(** * HIL native kernels: a shallow embedding and its checked properties

    The development follows [hil/core/native/hilbert_math.c] and
    [hil/core/native/hilbert_native.c].

    - C [double] is an abstract scalar (class [Scalar]) with two instances:
      [float_scalar], IEEE binary64 as the machine computes it, and
      [real_scalar], exact real arithmetic, the idealisation in which the
      numerical identities of the specification are meant.
    - Objects live in a [memory] of blocks addressed by locations; a C pointer
      is [None] for [NULL], or a block with an offset in cells.
    - A computation yields a [result]: [Ok v], [Fault] (an access outside a
      live object, which C leaves undefined) or [Timeout] (the step budget of
      the one unbounded loop ran out).
    - [malloc]/[calloc] may refuse: the [world] carries the outcome of the
      coming requests and the contents found in fresh memory.
    - [size_t] counts are [nat]; they are bounded by the sizes of live objects,
      except in the byte counts handed to the allocator, whose 64-bit
      wrap-around is written out ([size_mul]).  [uint32_t] conversion is
      [u32]. *)

From Stdlib Require Import Reals Lra Floats ZArith Lia.
From stdpp Require Import base option list gmap.

Set Warnings "-inexact-float".

(* ====================================================================== *)
(** * Results of computations *)

Inductive result (A : Type) : Type :=
| Ok (a : A)
| Fault
| Timeout.
Arguments Ok {A} a.
Arguments Fault {A}.
Arguments Timeout {A}.

Global Instance result_ret : MRet result := fun A a => Ok a.
Global Instance result_bind : MBind result := fun A B f m =>
  match m with
  | Ok a => f a
  | Fault => Fault
  | Timeout => Timeout
  end.

(** [for (i = lo; i < lo + cnt; i++) s = body i s;] *)
Fixpoint for_range {St : Type} (lo cnt : nat) (body : nat -> St -> result St)
  (s : St) : result St :=
  match cnt with
  | 0 => Ok s
  | S k => s' ← body lo s; for_range (S lo) k body s'
  end.

(** [a[i]] and [a[i] = x] on an array of [length a] cells. *)
Definition aget {A : Type} (a : list A) (i : nat) : result A :=
  match a !! i with
  | Some x => Ok x
  | None => Fault
  end.

Definition aset {A : Type} (a : list A) (i : nat) (x : A) : result (list A) :=
  if decide (i < length a) then Ok (<[i := x]> a) else Fault.

(* ====================================================================== *)
(** * Scalars: the arithmetic of C [double] *)

Class Scalar (T : Type) : Type := {
  s_zero : T;                      (* 0.0 *)
  s_one : T;                       (* 1.0 *)
  s_eps : T;                       (* HIL_EPS, 1e-12 *)
  s_step : T;                      (* 1e-6, the perturbation of stability *)
  s_add : T -> T -> T;
  s_sub : T -> T -> T;
  s_mul : T -> T -> T;
  s_div : T -> T -> T;
  s_opp : T -> T;
  s_sqrt : T -> T;
  s_abs : T -> T;                  (* fabs *)
  s_ltb : T -> T -> bool;          (* x < y *)
  s_leb : T -> T -> bool;          (* x <= y *)
  s_isfinite : T -> bool;          (* isfinite *)
  s_of_size : nat -> T             (* (double) of a size_t *)
}.

(** [log] of libm, which IEEE 754 does not fix: only the exact instance
    has one. *)
Class MathLib (T : Type) : Type := {
  s_log : T -> T
}.

(** [(double) n] for [n] of [size_t], rounded to nearest even.  The primitive
    conversion takes 63 bits; from 2^63 on, the value is halved with the bit
    that is lost kept as a sticky bit, converted, and doubled. *)
Definition double_of_size (n : nat) : float :=
  let z := Z.of_nat n in
  if (z <? 2 ^ 63)%Z then PrimFloat.of_uint63 (Uint63.of_Z z)
  else PrimFloat.mul 2
         (PrimFloat.of_uint63
            (Uint63.of_Z (Z.lor (Z.shiftr z 1) (Z.land z 1)))).

(** IEEE binary64, rounding to nearest even. *)
Global Instance float_scalar : Scalar float := {
  s_zero := 0%float;
  s_one := 1%float;
  s_eps := 1e-12%float;
  s_step := 1e-6%float;
  s_add := PrimFloat.add;
  s_sub := PrimFloat.sub;
  s_mul := PrimFloat.mul;
  s_div := PrimFloat.div;
  s_opp := PrimFloat.opp;
  s_sqrt := PrimFloat.sqrt;
  s_abs := PrimFloat.abs;
  s_ltb := PrimFloat.ltb;
  s_leb := PrimFloat.leb;
  s_isfinite := PrimFloat.is_finite;
  s_of_size := double_of_size
}.

Definition Rltb (x y : R) : bool := if Rlt_dec x y then true else false.
Definition Rleb (x y : R) : bool := if Rle_dec x y then true else false.

(** Exact arithmetic. *)
Global Instance real_scalar : Scalar R := {
  s_zero := 0%R;
  s_one := 1%R;
  s_eps := (/ 1000000000000)%R;
  s_step := (/ 1000000)%R;
  s_add := Rplus;
  s_sub := Rminus;
  s_mul := Rmult;
  s_div := Rdiv;
  s_opp := Ropp;
  s_sqrt := R_sqrt.sqrt;
  s_abs := Rabs;
  s_ltb := Rltb;
  s_leb := Rleb;
  s_isfinite := fun _ => true;
  s_of_size := INR
}.

Global Instance real_mathlib : MathLib R := {
  s_log := ln
}.

(* ====================================================================== *)
(** * Integers *)

(** [(uint32_t) i] *)
Definition u32 (i : nat) : nat := N.to_nat (N.of_nat i mod 2 ^ 32)%N.

(** [a * b] in [size_t], 64 bits wide. *)
Definition size_mul (a b : nat) : nat :=
  N.to_nat ((N.of_nat a * N.of_nat b) mod 2 ^ 64)%N.

(** [calloc] refuses a request whose byte count does not fit [size_t]. *)
Definition size_mul_fits (a b : nat) : bool :=
  (N.of_nat a * N.of_nat b <? 2 ^ 64)%N.

Global Arguments u32 : simpl never.
Global Arguments size_mul : simpl never.
Global Arguments size_mul_fits : simpl never.

(* ====================================================================== *)
(** * Memory *)

Definition loc := positive.

(** A pointer into an array: [NULL], or a block and an offset in cells. *)
Definition ptr : Type := option (loc * nat).

Definition ptr_add (p : ptr) (k : nat) : ptr :=
  match p with
  | Some (l, o) => Some (l, o + k)
  | None => None
  end.

Definition is_null (p : ptr) : bool :=
  match p with
  | None => true
  | Some _ => false
  end.

Inductive block (T : Type) : Type :=
| F64 (xs : list T)         (* an array of double *)
| U32 (xs : list nat).      (* an array of uint32_t *)
Arguments F64 {T} xs.
Arguments U32 {T} xs.

Abbreviation memory T := (gmap loc (block T)).

(** The allocator as the program meets it: [w_grants] holds the outcome of the
    coming requests ([false] is a refusal; past its end every request is
    granted), and [w_junk_f64], [w_junk_int] the contents of fresh cells. *)
Record world (T : Type) : Type := World {
  w_mem : memory T;
  w_grants : list bool;
  w_junk_f64 : nat -> T;
  w_junk_int : nat -> nat
}.
Arguments World {T}.
Arguments w_mem {T}.
Arguments w_grants {T}.
Arguments w_junk_f64 {T}.
Arguments w_junk_int {T}.

Definition granted (grants : list bool) : bool :=
  match grants with
  | [] => true
  | b :: _ => b
  end.

Definition set_grants {T} (w : world T) (g : list bool) : world T :=
  World (w_mem w) g (w_junk_f64 w) (w_junk_int w).

Definition set_mem {T} (w : world T) (m : memory T) : world T :=
  World m (w_grants w) (w_junk_f64 w) (w_junk_int w).

(** [malloc(bytes)] for an array that stays local to the caller: [bytes / size]
    cells of indeterminate contents, or [NULL]. *)
Definition malloc_local {T A} (junk : nat -> A) (bytes size : nat) (w : world T)
  : option (list A) * world T :=
  if granted (w_grants w)
  then (Some (junk <$> seq 0 (bytes / size)), set_grants w (tail (w_grants w)))
  else (None, set_grants w (tail (w_grants w))).

(** [calloc(n, size)] for a local array: [n] zeroed cells, or [NULL]. *)
Definition calloc_local {T A} (zero : A) (n size : nat) (w : world T)
  : option (list A) * world T :=
  if size_mul_fits n size && granted (w_grants w)
  then (Some (replicate n zero), set_grants w (tail (w_grants w)))
  else (None, set_grants w (tail (w_grants w))).

(** [malloc(bytes)] for an array of double that is handed on by pointer: a
    fresh block in memory. *)
Definition malloc_f64 {T} (bytes : nat) (w : world T) : ptr * world T :=
  if granted (w_grants w)
  then let l := fresh (dom (w_mem w)) in
       (Some (l, 0),
        World (<[l := F64 (w_junk_f64 w <$> seq 0 (bytes / 8))]> (w_mem w))
              (tail (w_grants w)) (w_junk_f64 w) (w_junk_int w))
  else (None, set_grants w (tail (w_grants w))).

(** [free(p)]: nothing for [NULL]; otherwise [p] must be the start of a live
    block. *)
Definition free {T} (p : ptr) (m : memory T) : result (memory T) :=
  match p with
  | None => Ok m
  | Some (l, 0) =>
      match m !! l with
      | Some _ => Ok (delete l m)
      | None => Fault
      end
  | Some (l, S _) => Fault
  end.

(** [p[i]] read and written, for [double *p] and [uint32_t *p]. *)
Definition read_f64 {T} (m : memory T) (p : ptr) (i : nat) : result T :=
  match p with
  | Some (l, o) =>
      match m !! l with
      | Some (F64 xs) => aget xs (o + i)
      | _ => Fault
      end
  | None => Fault
  end.

Definition write_f64 {T} (m : memory T) (p : ptr) (i : nat) (x : T)
  : result (memory T) :=
  match p with
  | Some (l, o) =>
      match m !! l with
      | Some (F64 xs) => xs' ← aset xs (o + i) x; Ok (<[l := F64 xs']> m)
      | _ => Fault
      end
  | None => Fault
  end.

Definition read_u32 {T} (m : memory T) (p : ptr) (i : nat) : result nat :=
  match p with
  | Some (l, o) =>
      match m !! l with
      | Some (U32 xs) => aget xs (o + i)
      | _ => Fault
      end
  | None => Fault
  end.

(** [memcpy(dst, src, bytes)] between arrays of double. *)
Definition memcpy_f64 {T} (m : memory T) (dst src : ptr) (bytes : nat)
  : result (memory T) :=
  for_range 0 (bytes / 8)
    (fun i m => x ← read_f64 m src i; write_f64 m dst i x) m.

(* ====================================================================== *)
(** * Data model (hilbert_native.h) *)

Record hil_matrix_t : Type := Matrix {
  data : ptr;
  rows : nat;
  cols : nat
}.

Record hil_graph_t : Type := Graph {
  num_nodes : nat;
  num_edges : nat;
  src : ptr;
  dst : ptr;
  weight : ptr
}.

Record hil_field_t : Type := Field {
  coordinates : hil_matrix_t
}.

(* ====================================================================== *)
(** * hilbert_math.c *)

Section Kernels.
Context {T : Type} {SC : Scalar T}.

Definition HIL_EPS : T := s_eps.

Definition hil_clamp_min (x m : T) : T :=
  if s_ltb x m then m else x.

Definition hil_safe_log {ML : MathLib T} (x : T) : T :=
  s_log (hil_clamp_min x HIL_EPS).

Definition hil_vec_dot (m : memory T) (a b : ptr) (n : nat) : result T :=
  for_range 0 n
    (fun i s => x ← read_f64 m a i; y ← read_f64 m b i; Ok (s_add s (s_mul x y)))
    s_zero.

Definition hil_vec_norm (m : memory T) (a : ptr) (n : nat) : result T :=
  s ← for_range 0 n
        (fun i s => x ← read_f64 m a i; Ok (s_add s (s_mul x x))) s_zero;
  Ok (s_sqrt s).

Definition hil_vec_zero (m : memory T) (dst : ptr) (n : nat) : result (memory T) :=
  for_range 0 n (fun i m => write_f64 m dst i s_zero) m.

Definition hil_vec_add_inplace (m : memory T) (dst src : ptr) (n : nat)
  : result (memory T) :=
  for_range 0 n
    (fun i m =>
       x ← read_f64 m dst i; y ← read_f64 m src i; write_f64 m dst i (s_add x y))
    m.

Definition hil_vec_scale_inplace (m : memory T) (dst : ptr) (n : nat) (k : T)
  : result (memory T) :=
  for_range 0 n
    (fun i m => x ← read_f64 m dst i; write_f64 m dst i (s_mul x k)) m.

(** [(idx & 1u) ? -1.0 : 1.0] *)
Definition hil_det_sign (idx : nat) : T :=
  if negb (Nat.land idx 1 =? 0) then s_opp s_one else s_one.

(* ====================================================================== *)
(** * hilbert_native.c: graphs *)

(** The loop of [hil_graph_validate] from edge [e], [cnt] edges to go. *)
Fixpoint validate_edges (m : memory T) (g : hil_graph_t) (e cnt : nat)
  : result bool :=
  match cnt with
  | 0 => Ok true
  | S k =>
      s ← read_u32 m (src g) e;
      d ← read_u32 m (dst g) e;
      if decide (num_nodes g ≤ s) then Ok false
      else if decide (num_nodes g ≤ d) then Ok false
      else
        w ← read_f64 m (weight g) e;
        if negb (s_isfinite w) then Ok false
        else if s_ltb w s_zero then Ok false
        else validate_edges m g (S e) k
  end.

Definition hil_graph_validate (m : memory T) (graph : option hil_graph_t)
  : result bool :=
  match graph with
  | None => Ok false
  | Some g =>
      if decide (num_nodes g = 0) then Ok false
      else if bool_decide (0 < num_edges g)
                && (is_null (src g) || is_null (dst g) || is_null (weight g))
      then Ok false
      else validate_edges m g 0 (num_edges g)
  end.

Definition degree_edge (g : hil_graph_t) (out_degree : ptr) (e : nat) (m : memory T)
  : result (memory T) :=
  s ← read_u32 m (src g) e;
  d ← read_u32 m (dst g) e;
  w ← read_f64 m (weight g) e;
  x ← read_f64 m out_degree s;
  m ← write_f64 m out_degree s (s_add x w);
  y ← read_f64 m out_degree d;
  write_f64 m out_degree d (s_add y w).

Definition hil_graph_degree (m : memory T) (graph : option hil_graph_t)
  (out_degree : ptr) : result (memory T) :=
  match graph with
  | None => Ok m
  | Some g =>
      if is_null out_degree then Ok m
      else
        m ← for_range 0 (num_nodes g) (fun i m => write_f64 m out_degree i s_zero) m;
        for_range 0 (num_edges g) (degree_edge g out_degree) m
  end.

Definition hil_graph_entropy {ML : MathLib T} (graph : option hil_graph_t) (w : world T)
  : result (T * world T) :=
  match graph with
  | None => Ok (s_zero, w)
  | Some g =>
      if decide (num_nodes g = 0) then Ok (s_zero, w)
      else
        let '(deg, w) := malloc_f64 (size_mul 8 (num_nodes g)) w in
        if is_null deg then Ok (s_zero, w)
        else
          m ← hil_graph_degree (w_mem w) graph deg;
          sum_deg ← for_range 0 (num_nodes g)
                      (fun i s => x ← read_f64 m deg i; Ok (s_add s x)) s_zero;
          if s_leb sum_deg HIL_EPS then
            m ← free deg m; Ok (s_zero, set_mem w m)
          else
            H ← for_range 0 (num_nodes g)
                  (fun i H =>
                     x ← read_f64 m deg i;
                     let p := s_div x sum_deg in
                     if s_ltb HIL_EPS p
                     then Ok (s_sub H (s_mul p (hil_safe_log p)))
                     else Ok H)
                  s_zero;
            m ← free deg m; Ok (H, set_mem w m)
  end.

(** Locals of [hil_graph_connected_components].  They never leave the
    function, so they are values here: [deg], [offset], [cur] (size_t),
    [adj], [queue] (uint32_t), [seen] (uint8_t). *)

Definition cc_in_range (n s d : nat) : bool :=
  bool_decide (s < n) && bool_decide (d < n).

(** First pass, one edge: [deg[s]++; deg[d]++] when both ends are in range. *)
Definition cc_count_edge (m : memory T) (g : hil_graph_t) (n e : nat)
  (deg : list nat) : result (list nat) :=
  s ← read_u32 m (src g) e;
  d ← read_u32 m (dst g) e;
  if cc_in_range n s d then
    x ← aget deg s;
    deg ← aset deg s (x + 1);
    y ← aget deg d;
    aset deg d (y + 1)
  else Ok deg.

(** [offset[i + 1] = offset[i] + deg[i]] *)
Definition cc_offset_step (deg : list nat) (i : nat) (offset : list nat)
  : result (list nat) :=
  a ← aget offset i;
  b ← aget deg i;
  aset offset (i + 1) (a + b).

(** Second pass, one edge: [adj[offset[s] + cur[s]++] = d] and the mirror. *)
Definition cc_fill_edge (m : memory T) (g : hil_graph_t) (n : nat)
  (offset : list nat) (e : nat) (st : list nat * list nat)
  : result (list nat * list nat) :=
  let '(adj, cur) := st in
  s ← read_u32 m (src g) e;
  d ← read_u32 m (dst g) e;
  if cc_in_range n s d then
    os ← aget offset s;
    cs ← aget cur s;
    cur ← aset cur s (cs + 1);
    adj ← aset adj (os + cs) d;
    od ← aget offset d;
    cd ← aget cur d;
    cur ← aset cur d (cd + 1);
    adj ← aset adj (od + cd) s;
    Ok (adj, cur)
  else Ok st.

Record bfs_state : Type := Bfs {
  seen : list nat;
  queue : list nat;
  qh : nat;
  qt : nat
}.

(** The body of the scan of [adj[k]]. *)
Definition bfs_visit (adj : list nat) (k : nat) (st : bfs_state)
  : result bfs_state :=
  u ← aget adj k;
  su ← aget (seen st) u;
  if decide (su = 0) then
    seen' ← aset (seen st) u 1;
    queue' ← aset (queue st) (qt st) u;
    Ok (Bfs seen' queue' (qh st) (qt st + 1))
  else Ok st.

(** [while (qh < qt)], at most [fuel] rounds.  [v + 1] is computed in
    [unsigned int], 32 bits wide. *)
Fixpoint bfs_drain (fuel : nat) (offset adj : list nat) (st : bfs_state)
  : result bfs_state :=
  if decide (qh st < qt st) then
    match fuel with
    | 0 => Timeout
    | S fuel =>
        v ← aget (queue st) (qh st);
        let st := Bfs (seen st) (queue st) (qh st + 1) (qt st) in
        lo ← aget offset v;
        hi ← aget offset (u32 (v + 1));
        st ← for_range lo (hi - lo) (bfs_visit adj) st;
        bfs_drain fuel offset adj st
    end
  else Ok st.

(** The body of [for (i = 0; i < n; i++)] over the roots. *)
Definition cc_root (fuel : nat) (offset adj : list nat) (i : nat)
  (st : list nat * list nat * nat) : result (list nat * list nat * nat) :=
  let '(sn, qu, comps) := st in
  si ← aget sn i;
  if decide (si = 0) then
    qu ← aset qu 0 (u32 i);
    sn ← aset sn i 1;
    b ← bfs_drain fuel offset adj (Bfs sn qu 0 1);
    Ok (seen b, queue b, comps + 1)
  else Ok st.

Definition hil_graph_connected_components (fuel : nat)
  (graph : option hil_graph_t) (w : world T) : result nat :=
  match graph with
  | None => Ok 0
  | Some g =>
      let n := num_nodes g in
      let m := num_edges g in
      if decide (n = 0) then Ok 0
      else
        let '(deg, w) := calloc_local 0 n 8 w in
        match deg with
        | None => Ok 0
        | Some deg =>
        deg ← for_range 0 m (cc_count_edge (w_mem w) g n) deg;
        let '(offset, w) :=
          malloc_local (w_junk_int w) (size_mul 8 (n + 1)) 8 w in
        match offset with
        | None => Ok 0
        | Some offset =>
        offset ← aset offset 0 0;
        offset ← for_range 0 n (cc_offset_step deg) offset;
        total ← aget offset n;
        let '(adj, w) := malloc_local (w_junk_int w) (size_mul 4 total) 4 w in
        match adj with
        | None => Ok 0
        | Some adj =>
        let '(cur, w) := calloc_local 0 n 8 w in
        match cur with
        | None => Ok 0
        | Some cur =>
        '(adj, _) ← for_range 0 m (cc_fill_edge (w_mem w) g n offset) (adj, cur);
        let '(sn, w) := calloc_local 0 n 1 w in
        let '(qu, w) := malloc_local (w_junk_int w) (size_mul 4 n) 4 w in
        match sn, qu with
        | Some sn, Some qu =>
            '(_, _, comps) ← for_range 0 n (cc_root fuel offset adj) (sn, qu, 0);
            Ok comps
        | _, _ => Ok 0
        end
        end
        end
        end
        end
  end.

(* ====================================================================== *)
(** * hilbert_native.c: fields *)

(** [!M.data || M.rows == 0 || M.cols == 0] *)
Definition matrix_empty (M : hil_matrix_t) : bool :=
  is_null (data M) || bool_decide (rows M = 0) || bool_decide (cols M = 0).

Definition hil_field_coherence (field : option hil_field_t) (w : world T)
  : result (T * world T) :=
  match field with
  | None => Ok (s_zero, w)
  | Some f =>
      let M := coordinates f in
      if matrix_empty M then Ok (s_zero, w)
      else
        let '(centroid, w) := malloc_f64 (size_mul 8 (cols M)) w in
        if is_null centroid then Ok (s_zero, w)
        else
          m ← hil_vec_zero (w_mem w) centroid (cols M);
          m ← for_range 0 (rows M)
                (fun r m =>
                   let row := ptr_add (data M) (r * cols M) in
                   hil_vec_add_inplace m centroid row (cols M))
                m;
          m ← hil_vec_scale_inplace m centroid (cols M)
                (s_div s_one (s_of_size (rows M)));
          cn ← hil_vec_norm m centroid (cols M);
          let c_norm := hil_clamp_min cn HIL_EPS in
          sum_cos ← for_range 0 (rows M)
                      (fun r s =>
                         let row := ptr_add (data M) (r * cols M) in
                         rn ← hil_vec_norm m row (cols M);
                         let r_norm := hil_clamp_min rn HIL_EPS in
                         dot ← hil_vec_dot m row centroid (cols M);
                         Ok (s_add s (s_div dot (s_mul r_norm c_norm))))
                      s_zero;
          m ← free centroid m;
          Ok (s_div sum_cos (s_of_size (rows M)), set_mem w m)
  end.

(** One row of [hil_field_perturb]. *)
Definition perturb_row (M : hil_matrix_t) (epsilon : T) (r : nat) (m : memory T)
  : result (memory T) :=
  let row := ptr_add (data M) (r * cols M) in
  m ← for_range 0 (cols M)
        (fun c m =>
           let idx := r * cols M + c in
           x ← read_f64 m row c;
           write_f64 m row c (s_add x (s_mul epsilon (hil_det_sign idx))))
        m;
  nrm ← hil_vec_norm m row (cols M);
  if s_ltb HIL_EPS nrm
  then hil_vec_scale_inplace m row (cols M) (s_div s_one nrm)
  else Ok m.

Definition hil_field_perturb (m : memory T) (field : option hil_field_t)
  (epsilon : T) : result (memory T) :=
  match field with
  | None => Ok m
  | Some f =>
      let M := coordinates f in
      if matrix_empty M then Ok m
      else for_range 0 (rows M) (perturb_row M epsilon) m
  end.

(* ====================================================================== *)
(** * hilbert_native.c: release *)

(** The structure is passed by pointer and updated in place: the updated
    structure is returned beside the memory. *)
Definition hil_matrix_free (mat : option hil_matrix_t) (m : memory T)
  : result (option hil_matrix_t * memory T) :=
  match mat with
  | None => Ok (None, m)
  | Some M =>
      m ← free (data M) m;
      Ok (Some (Matrix None 0 0), m)
  end.

Definition hil_graph_free (graph : option hil_graph_t) (m : memory T)
  : result (option hil_graph_t * memory T) :=
  match graph with
  | None => Ok (None, m)
  | Some g =>
      m ← free (src g) m;
      m ← free (dst g) m;
      m ← free (weight g) m;
      Ok (Some (Graph 0 0 None None None), m)
  end.

Definition hil_field_free (field : option hil_field_t) (m : memory T)
  : result (option hil_field_t * memory T) :=
  match field with
  | None => Ok (None, m)
  | Some f =>
      '(mat, m) ← hil_matrix_free (Some (coordinates f)) m;
      Ok (option_map Field mat, m)
  end.

(* ====================================================================== *)
(** * hilbert_native.c: stability *)

Definition hil_epistemic_stability (field : option hil_field_t)
  (graph : option hil_graph_t) (w : world T) : result (T * world T) :=
  match field with
  | None => Ok (s_zero, w)
  | Some f =>
      let eps := s_step in
      '(C0, w) ← hil_field_coherence field w;
      let M := coordinates f in
      if matrix_empty M then Ok (s_zero, w)
      else
        let bytes := size_mul (size_mul 8 (rows M)) (cols M) in
        let '(tmp_data, w) := malloc_f64 bytes w in
        if is_null tmp_data then Ok (s_zero, w)
        else
          let tmp := Field (Matrix tmp_data (rows M) (cols M)) in
          m ← memcpy_f64 (w_mem w) tmp_data (data M) bytes;
          m ← hil_field_perturb m (Some tmp) eps;
          '(C1, w) ← hil_field_coherence (Some tmp) (set_mem w m);
          '(_, m) ← hil_field_free (Some tmp) (w_mem w);
          Ok (s_div (s_abs (s_sub C1 C0)) eps, set_mem w m)
  end.

End Kernels.


(* ====================================================================== *)
(** * hilbert_math.c: the remaining helpers *)

(** [exp], [log1p] and [pow] of libm; as for [log], only the exact instance
    has them.  [pow] is called on a base above one only, where it is
    [Rpower]. *)
Class MathLibExp (T : Type) : Type := {
  s_exp : T -> T;
  s_log1p : T -> T;
  s_pow : T -> T -> T
}.

Global Instance real_mathlib_exp : MathLibExp R := {
  s_exp := exp;
  s_log1p := fun x => ln (1 + x);
  s_pow := Rpower
}.

Section MoreKernels.
Context {T : Type} {SC : Scalar T}.

Definition hil_safe_log1p {ME : MathLibExp T} (x : T) : T := s_log1p x.

(** [LIM = 709.0] *)
Definition hil_safe_exp {ME : MathLibExp T} (x : T) : T :=
  let LIM := s_of_size 709 in
  let x := if s_ltb LIM x then LIM else x in
  let x := if s_ltb x (s_opp LIM) then s_opp LIM else x in
  s_exp x.

Definition hil_decay_exponential {ME : MathLibExp T} (t tau : T) : T :=
  let tau := hil_clamp_min tau HIL_EPS in
  if s_leb t s_zero then s_one
  else hil_safe_exp (s_div (s_opp t) tau).

Definition hil_decay_linear (t t_max : T) : T :=
  let t_max := hil_clamp_min t_max HIL_EPS in
  if s_leb t s_zero then s_one
  else
    let v := s_sub s_one (s_div t t_max) in
    if s_ltb v s_zero then s_zero else v.

Definition hil_decay_power {ME : MathLibExp T} (t alpha : T) : T :=
  let alpha := if s_ltb alpha s_zero then s_zero else alpha in
  if s_leb t s_zero then s_one
  else s_pow (s_add s_one t) (s_opp alpha).

Definition hil_vec_copy (m : memory T) (dst src : ptr) (n : nat)
  : result (memory T) :=
  for_range 0 n (fun i m => x ← read_f64 m src i; write_f64 m dst i x) m.

(* ====================================================================== *)
(** * hilbert_native.c: density, mean norm, vectors *)

(** [(double)] of the two counts; [2.0] is [(double) 2]. *)
Definition hil_graph_density (graph : option hil_graph_t) : T :=
  match graph with
  | None => s_zero
  | Some g =>
      let n := s_of_size (num_nodes g) in
      if s_leb n s_one then s_zero
      else
        let max_e := s_div (s_mul n (s_sub n s_one)) (s_of_size 2) in
        let e := s_of_size (num_edges g) in
        if s_leb max_e s_zero then s_zero
        else
          let d := s_div e max_e in
          let d := if s_ltb d s_zero then s_zero else d in
          let d := if s_ltb s_one d then s_one else d in
          d
  end.

Definition hil_field_mean_norm (m : memory T) (field : option hil_field_t)
  : result T :=
  match field with
  | None => Ok s_zero
  | Some f =>
      let M := coordinates f in
      if matrix_empty M then Ok s_zero
      else
        sum ← for_range 0 (rows M)
                (fun r s =>
                   let row := ptr_add (data M) (r * cols M) in
                   x ← hil_vec_norm m row (cols M);
                   Ok (s_add s x))
                s_zero;
        Ok (s_div sum (s_of_size (rows M)))
  end.

End MoreKernels.

(** [hil_vector_t]: the fields [data] and [length] of the C structure. *)
Record hil_vector_t : Type := Vector {
  vec_data : ptr;
  vec_length : nat
}.

Definition hil_vector_free {T} (vec : option hil_vector_t) (m : memory T)
  : result (option hil_vector_t * memory T) :=
  match vec with
  | None => Ok (None, m)
  | Some v =>
      m ← free (vec_data v) m;
      Ok (Some (Vector None 0), m)
  end.
(* ====================================================================== *)
(** * Vocabulary of the statements *)

(** What [free] leaves of the memory. *)
Definition released {T} (p : ptr) (m : memory T) : memory T :=
  match p with
  | Some (l, _) => delete l m
  | None => m
  end.

(** [p] is [NULL] or the start of a live block: what [free] accepts. *)
Definition freeable {T} (m : memory T) (p : ptr) : Prop :=
  match p with
  | Some (l, o) => o = 0 /\ is_Some (m !! l)
  | None => True
  end.

Definition distinct_blocks (p q : ptr) : Prop :=
  forall l o o', p = Some (l, o) -> q = Some (l, o') -> False.

Definition zero_graph : hil_graph_t := Graph 0 0 None None None.
Definition zero_matrix : hil_matrix_t := Matrix None 0 0.

Section ValidateSpec.
Context {T : Type} {SC : Scalar T}.

(** Edge [e] has an endpoint outside the nodes, or a weight that is negative
    or not finite. *)
Definition edge_rejected (m : memory T) (g : hil_graph_t) (e : nat) : Prop :=
  exists s d,
    read_u32 m (src g) e = Ok s /\ read_u32 m (dst g) e = Ok d
    /\ (num_nodes g <= s \/ num_nodes g <= d
        \/ exists w, read_f64 m (weight g) e = Ok w
                     /\ (s_isfinite w = false \/ s_ltb w s_zero = true)).

Definition graph_rejected (m : memory T) (graph : option hil_graph_t) : Prop :=
  match graph with
  | None => True
  | Some g =>
      num_nodes g = 0
      \/ (0 < num_edges g /\ (src g = None \/ dst g = None \/ weight g = None))
      \/ exists e, e < num_edges g /\ edge_rejected m g e
  end.

(** The three edge arrays hold [num_edges] cells. *)
Definition edges_readable (m : memory T) (g : hil_graph_t) : Prop :=
  forall e, e < num_edges g ->
    exists s d w,
      read_u32 m (src g) e = Ok s /\ read_u32 m (dst g) e = Ok d
      /\ read_f64 m (weight g) e = Ok w.

End ValidateSpec.

Section ListKernels.
Context {T : Type} {SC : Scalar T}.

(** The sum of squares, the Euclidean norm and the dot product of arrays
    given as lists, accumulated from the left as the loops do. *)
Definition sum_sq (xs : list T) : T :=
  foldl (fun s x => s_add s (s_mul x x)) s_zero xs.

Definition norm_list (xs : list T) : T := s_sqrt (sum_sq xs).

Definition dot_list (xs ys : list T) : T :=
  foldl (fun s xy => s_add s (s_mul xy.1 xy.2)) s_zero (zip xs ys).

End ListKernels.

Section PerturbSpec.
Context {T : Type} {SC : Scalar T}.

(** [det_sign] in the words of the specification: [+1] for an even index,
    [-1] for an odd one. *)
Definition det_sign_spec (idx : nat) : T :=
  if Nat.even idx then s_one else s_opp s_one.

(** Row [r]: [epsilon * det_sign(idx)] is added to the coordinate at the
    flattened index [idx = r * cols + c]. *)
Definition shift_row (epsilon : T) (cols r : nat) (row : list T) : list T :=
  imap (fun c x => s_add x (s_mul epsilon (det_sign_spec (r * cols + c)))) row.

(** A row whose norm exceeds [EPS] is rescaled by the inverse of its norm;
    another row is left as it is. *)
Definition renormalize (row : list T) : list T :=
  let nrm := norm_list row in
  if s_ltb s_eps nrm then (fun x => s_mul x (s_div s_one nrm)) <$> row
  else row.

(** The perturbation of the rows [r], ..., [r + cnt - 1], whose coordinates
    are [xs]. *)
Fixpoint perturb_spec (epsilon : T) (cols r cnt : nat) (xs : list T) : list T :=
  match cnt with
  | 0 => []
  | S k =>
      renormalize (shift_row epsilon cols r (take cols xs))
      ++ perturb_spec epsilon cols (S r) k (drop cols xs)
  end.

End PerturbSpec.

(** [n] is a value of [size_t]. *)
Definition fits_size_t (n : nat) : Prop := (N.of_nat n < 2 ^ 64)%N.

Section FieldSpec.
Context {T : Type} {SC : Scalar T}.

(** The rows of a row-major matrix of [cnt] rows and [cols] columns. *)
Fixpoint chunks (cols cnt : nat) (xs : list T) : list (list T) :=
  match cnt with
  | 0 => []
  | S k => take cols xs :: chunks cols k (drop cols xs)
  end.

(** The mean vector of the rows. *)
Definition centroid_of (cols : nat) (rs : list (list T)) : list T :=
  (fun x => s_mul x (s_div s_one (s_of_size (length rs))))
    <$> foldl (zip_with s_add) (replicate cols s_zero) rs.

(** The cosine of a row to the centroid [c], norms clamped from below. *)
Definition cosine_to (c : list T) (c_norm : T) (row : list T) : T :=
  s_div (dot_list row c)
        (s_mul (hil_clamp_min (norm_list row) s_eps) c_norm).

(** The mean cosine of the rows to their centroid. *)
Definition coherence_of (cols : nat) (rs : list (list T)) : T :=
  let c := centroid_of cols rs in
  let c_norm := hil_clamp_min (norm_list c) s_eps in
  s_div (foldl (fun s row => s_add s (cosine_to c c_norm row)) s_zero rs)
        (s_of_size (length rs)).

(** The coordinates of field [f] are the cells [xs] of a live block. *)
Definition field_cells (m : memory T) (f : hil_field_t) (xs : list T) : Prop :=
  exists l o pre post,
    data (coordinates f) = Some (l, o)
    /\ m !! l = Some (F64 (pre ++ xs ++ post))
    /\ length pre = o
    /\ length xs = rows (coordinates f) * cols (coordinates f).

End FieldSpec.

Section StabilitySpec.
Context {T : Type} {SC : Scalar T}.

(** What [hil_epistemic_stability] returns for a field of coordinates [xs],
    by the answers [gs] of the allocator to its three requests. *)
Definition stability_of (rows cols : nat) (xs : list T) (gs : list bool) : T :=
  if granted (tail gs) then
    let C0 := if granted gs then coherence_of cols (chunks cols rows xs)
              else s_zero in
    let C1 := if granted (tail (tail gs))
              then coherence_of cols
                     (chunks cols rows (perturb_spec s_step cols 0 rows xs))
              else s_zero in
    s_div (s_abs (s_sub C1 C0)) s_step
  else s_zero.

(** The requests it makes: two when the second is refused, else three. *)
Definition stability_grants (gs : list bool) : list bool :=
  if granted (tail gs) then tail (tail (tail gs)) else tail (tail gs).

(** A field the functions may be called on: absent, empty, or with its
    coordinates in a live block. *)
Definition field_ok (m : memory T) (field : option hil_field_t) : Prop :=
  match field with
  | None => True
  | Some f =>
      matrix_empty (coordinates f) = true
      \/ (0 < rows (coordinates f) /\ 0 < cols (coordinates f)
          /\ fits_size_t (8 * (rows (coordinates f) * cols (coordinates f)))
          /\ exists xs, field_cells m f xs)
  end.

(** The allocator answers its next [n] requests by [gs1] as it does by
    [gs2]. *)
Definition same_answers (n : nat) (gs1 gs2 : list bool) : Prop :=
  forall k, k < n -> granted (drop k gs1) = granted (drop k gs2).

(** The field is absent, or empty, or has the same coordinates in the two
    memories. *)
Definition same_coordinates (m1 m2 : memory T) (field : option hil_field_t)
  : Prop :=
  match field with
  | None => True
  | Some f =>
      matrix_empty (coordinates f) = true
      \/ (0 < rows (coordinates f) /\ 0 < cols (coordinates f)
          /\ fits_size_t (8 * (rows (coordinates f) * cols (coordinates f)))
          /\ exists xs, field_cells m1 f xs /\ field_cells m2 f xs)
  end.

End StabilitySpec.

Section DegreeSpec.
Context {T : Type} {SC : Scalar T}.

(** The cells [xs] of a live array, found at pointer [p]. *)
Definition u32_cells (m : memory T) (p : ptr) (xs : list nat) : Prop :=
  exists l o pre post,
    p = Some (l, o) /\ m !! l = Some (U32 (pre ++ xs ++ post)) /\ length pre = o.

Definition f64_cells (m : memory T) (p : ptr) (xs : list T) : Prop :=
  exists l o pre post,
    p = Some (l, o) /\ m !! l = Some (F64 (pre ++ xs ++ post)) /\ length pre = o.

(** The edge arrays of [g] hold [srcs], [dsts] and [ws]: their first
    [num_edges] entries can be read and are these.  With no edge nothing is
    asked of the three pointers, which may be [NULL]. *)
Definition edges_stored (m : memory T) (g : hil_graph_t)
  (srcs dsts : list nat) (ws : list T) : Prop :=
  length srcs = num_edges g /\ length dsts = num_edges g
  /\ length ws = num_edges g
  /\ (forall e s, srcs !! e = Some s -> read_u32 m (src g) e = Ok s)
  /\ (forall e d, dsts !! e = Some d -> read_u32 m (dst g) e = Ok d)
  /\ (forall e w, ws !! e = Some w -> read_f64 m (weight g) e = Ok w).

(** [deg[i] += w] *)
Definition add_at (i : nat) (w : T) (deg : list T) : list T :=
  match deg !! i with
  | Some x => <[i := s_add x w]> deg
  | None => deg
  end.

(** Every edge adds its weight to the entries of its two ends. *)
Fixpoint accumulate (srcs dsts : list nat) (ws : list T) (deg : list T)
  : list T :=
  match srcs, dsts, ws with
  | s :: srcs, d :: dsts, w :: ws =>
      accumulate srcs dsts ws (add_at d w (add_at s w deg))
  | _, _, _ => deg
  end.

(** The weighted degrees of [n] nodes, from zero. *)
Definition weighted_degree (n : nat) (srcs dsts : list nat) (ws : list T)
  : list T :=
  accumulate srcs dsts ws (replicate n s_zero).

(** A sum taken from the left, as the loops take it. *)
Definition sum_left (xs : list T) : T := foldl s_add s_zero xs.

End DegreeSpec.

Section EntropySpec.
Context {T : Type} {SC : Scalar T} {ML : MathLib T}.

(** The Shannon entropy of the distribution [deg / sum deg], over the
    entries with [p > EPS]; zero when the sum is at most [EPS]. *)
Definition entropy_of (deg : list T) : T :=
  let sum_deg := sum_left deg in
  if s_leb sum_deg s_eps then s_zero
  else
    foldl (fun H x =>
             let p := s_div x sum_deg in
             if s_ltb s_eps p then s_sub H (s_mul p (hil_safe_log p)) else H)
          s_zero deg.

End EntropySpec.

(** ** Integer ranges and the allocator *)

(** [n] is a value of [uint32_t]. *)
Definition fits_uint32 (n : nat) : Prop := (N.of_nat n < 2 ^ 32)%N.

(** Every coming request of the allocator is granted. *)
Definition all_granted (gs : list bool) : Prop := Forall (fun b => b = true) gs.

(** ** Undirected graphs and their components *)

Definition edge_in_range (n : nat) (e : nat * nat) : Prop := e.1 < n /\ e.2 < n.

Global Instance edge_in_range_dec n e : Decision (edge_in_range n e).
Proof. unfold edge_in_range. apply _. Defined.

(** The edges whose two ends are nodes. *)
Definition in_range_edges (n : nat) (es : list (nat * nat)) : list (nat * nat) :=
  filter (edge_in_range n) es.

(** [u] and [v] are the ends of an edge, in either direction. *)
Definition adjacent (es : list (nat * nat)) (u v : nat) : Prop :=
  (u, v) ∈ es \/ (v, u) ∈ es.

(** [u] and [v] are joined by a path. *)
Definition connected (es : list (nat * nat)) : relation nat := rtc (adjacent es).

(** [k] is the number of connected components of the graph of nodes
    [0 .. n-1] and edges [es]: there are [k] nodes, one in each component. *)
Definition component_count (n : nat) (es : list (nat * nat)) (k : nat) : Prop :=
  exists reps : list nat,
    length reps = k /\ NoDup reps
    /\ (forall r, r ∈ reps -> r < n)
    /\ (forall v, v < n -> exists r, r ∈ reps /\ connected es r v)
    /\ (forall r r', r ∈ reps -> r' ∈ reps -> connected es r r' -> r = r').

(** The edge list of a graph, as the passes read it. *)
Definition edge_list {T} (m : memory T) (g : hil_graph_t) (es : list (nat * nat))
  : Prop :=
  length es = num_edges g
  /\ forall e s d, es !! e = Some (s, d) ->
       read_u32 m (src g) e = Ok s /\ read_u32 m (dst g) e = Ok d.

(** What edge [e] appends to the adjacency of [v]; the adjacency of [v]. *)
Definition edge_nbrs (n v : nat) (e : nat * nat) : list nat :=
  if cc_in_range n e.1 e.2
  then (if decide (e.1 = v) then [e.2] else [])
       ++ (if decide (e.2 = v) then [e.1] else [])
  else [].

Definition nbrs (n : nat) (es : list (nat * nat)) (v : nat) : list nat :=
  es ≫= edge_nbrs n v.

(** [offset[i]]: the degrees before [i], summed. *)
Definition prefix_sum (deg : list nat) (i : nat) : nat := sum_list (take i deg).

(** The path 0 - 1 - ... - (n-1), and two triangles side by side. *)
Definition path_edges (n : nat) : list (nat * nat) :=
  (fun i => (i, S i)) <$> seq 0 (n - 1).

Definition two_triangles : list (nat * nat) :=
  [(0, 1); (1, 2); (2, 0); (3, 4); (4, 5); (5, 3)].

(** ** Invariants of the component passes *)

Section ComponentInvariants.
Context (n : nat) (E : list (nat * nat)).

(** The adjacency under construction over the degrees [deg]: [L v] is what
    [v] holds so far. *)
Definition filling (deg : list nat) (L : nat -> list nat) (adj cur : list nat)
  : Prop :=
  length adj = prefix_sum deg n /\ length cur = n
  /\ (forall v, v < n -> cur !! v = Some (length (L v)))
  /\ (forall v j u, v < n -> L v !! j = Some u ->
        adj !! (prefix_sum deg v + j) = Some u)
  /\ (forall v, v < n -> length (L v) <= length (nbrs n E v)).

(** The marks of the traversal. *)
Definition is_seen (sn : list nat) (v : nat) : Prop := sn !! v = Some 1.

Definition seen_ok (sn : list nat) : Prop :=
  length sn = n /\ forall v, v < n -> sn !! v = Some 0 \/ sn !! v = Some 1.

(** The traversal from root [i], started on the marks [sn0]: the first
    [done_upto] nodes of the queue have their adjacency marked. *)
Definition bfs_inv (sn0 : list nat) (i done_upto : nat) (st : bfs_state) : Prop :=
  seen_ok (seen st) /\ length (queue st) = n
  /\ qh st <= qt st /\ qt st <= n
  /\ NoDup (take (qt st) (queue st))
  /\ (forall v, v ∈ take (qt st) (queue st) -> v < n)
  /\ (forall v, is_seen (seen st) v
                <-> is_seen sn0 v \/ v ∈ take (qt st) (queue st))
  /\ (forall v, v ∈ take (qt st) (queue st) -> connected E i v)
  /\ queue st !! 0 = Some i /\ 0 < qt st
  /\ (forall j v u, j < done_upto -> j < qt st -> queue st !! j = Some v ->
        adjacent E v u -> is_seen (seen st) u).

(** The scan of the adjacency of [v] in [adj], up to [k]. *)
Definition scan_inv (adj : list nat) (sn0 : list nat) (i qh0 v lo k : nat)
  (st : bfs_state) : Prop :=
  bfs_inv sn0 i qh0 st /\ qh st = S qh0 /\ queue st !! qh0 = Some v
  /\ forall k', lo <= k' < k -> exists u, adj !! k' = Some u /\ is_seen (seen st) u.

(** The roots met so far: up to [i], every node is marked, and the marked
    nodes are the components of the roots. *)
Definition roots_inv (i : nat) (st : list nat * list nat * nat) : Prop :=
  seen_ok st.1.1 /\ length st.1.2 = n
  /\ exists roots,
       st.2 = length roots /\ NoDup roots
       /\ (forall r, r ∈ roots -> r < i)
       /\ (forall v, is_seen st.1.1 v <-> exists r, r ∈ roots /\ connected E r v)
       /\ (forall r r', r ∈ roots -> r' ∈ roots -> connected E r r' -> r = r')
       /\ (forall v, v < i -> is_seen st.1.1 v).

End ComponentInvariants.

(* ====================================================================== *)
(** * Sample inputs *)

(** A populated graph in a memory of three blocks, and a populated matrix. *)
Definition demo_graph : hil_graph_t :=
  Graph 3 2 (Some (1%positive, 0)) (Some (2%positive, 0)) (Some (3%positive, 0)).
Definition demo_graph_memory : memory float :=
  <[1%positive := U32 [0; 1]]>
    (<[2%positive := U32 [1; 2]]>
       (<[3%positive := F64 [1%float; 2%float]]> ∅)).
Definition demo_matrix : hil_matrix_t := Matrix (Some (1%positive, 0)) 1 2.
Definition demo_matrix_memory : memory float :=
  <[1%positive := F64 [3%float; 4%float]]> ∅.

(** A valid triangle. *)
Definition triangle_memory : memory float :=
  <[1%positive := U32 [0; 1; 2]]>
    (<[2%positive := U32 [1; 2; 0]]>
       (<[3%positive := F64 [1%float; 2%float; 0.5%float]]> ∅)).
Definition triangle_graph : hil_graph_t :=
  Graph 3 3 (Some (1%positive, 0)) (Some (2%positive, 0)) (Some (3%positive, 0)).

(** A field of two rows and three columns. *)
Definition demo_field : hil_field_t := Field (Matrix (Some (1%positive, 0)) 2 3).
Definition demo_field_memory : memory float :=
  <[1%positive := F64 [1; 2; 3; 1; 2; 4]%float]> ∅.

(** A world around [demo_field_memory] whose allocator grants every request. *)
Definition demo_field_world : world float :=
  World demo_field_memory [] (fun _ => nan) (fun _ => 0).

(** The memory of [demo_field_world] beside another array, with other junk in
    fresh memory and an allocator that grants three requests and refuses the
    fourth. *)
Definition later_field_world : world float :=
  World (<[2%positive := F64 [9]%float]> demo_field_memory)
        [true; true; true; false] (fun _ => 0%float) (fun _ => 7).

(** Two identical rows, all zero. *)
Definition zero_rows_field : hil_field_t := Field (Matrix (Some (1%positive, 0)) 2 3).
Definition zero_rows_world : world float :=
  World (<[1%positive := F64 [0; 0; 0; 0; 0; 0]%float]> ∅) []
        (fun _ => nan) (fun _ => 0).

(** A world of exact arithmetic with two copies of the row (3, 4). *)
Definition exact_rows_field : hil_field_t := Field (Matrix (Some (1%positive, 0)) 2 2).
Definition exact_rows_world : world R :=
  World (<[1%positive := F64 [3; 4; 3; 4]%R]> ∅) [] (fun _ => 0%R) (fun _ => 0).

(** Two copies of the row (1e200, 1e200), whose squares are beyond binary64. *)
Definition huge_rows_field : hil_field_t := Field (Matrix (Some (1%positive, 0)) 2 2).
Definition huge_rows_world : world float :=
  World (<[1%positive := F64 [1e200; 1e200; 1e200; 1e200]%float]> ∅) []
        (fun _ => nan) (fun _ => 0).

(** A world of exact arithmetic with two copies of the zero row. *)
Definition exact_zero_rows_world : world R :=
  World (<[1%positive := F64 [0; 0; 0; 0]%R]> ∅) [] (fun _ => 0%R) (fun _ => 0).

(** The path 0 - 1 - 2 - 3 with weights 0.1, 0.2, 0.3, and a buffer of four
    cells for its degrees. *)
Definition path4_graph : hil_graph_t :=
  Graph 4 3 (Some (1%positive, 0)) (Some (2%positive, 0)) (Some (3%positive, 0)).
Definition path4_weights : list float := [0.1; 0.2; 0.3]%float.
Definition path4_memory : memory float :=
  <[1%positive := U32 [0; 1; 2]]>
    (<[2%positive := U32 [1; 2; 3]]>
       (<[3%positive := F64 path4_weights]>
          (<[4%positive := F64 [nan; nan; nan; nan]]> ∅))).

(** The same path with exact weights 1, 2, 3. *)
Definition exact_path4_memory : memory R :=
  <[1%positive := U32 [0; 1; 2]]>
    (<[2%positive := U32 [1; 2; 3]]>
       (<[3%positive := F64 [1; 2; 3]%R]>
          (<[4%positive := F64 [7; 7; 7; 7]%R]> ∅))).

(** Two nodes, no edge: the edge arrays are there and hold nothing. *)
Definition two_nodes_graph : hil_graph_t :=
  Graph 2 0 (Some (1%positive, 0)) (Some (2%positive, 0)) (Some (3%positive, 0)).
Definition two_nodes_world : world R :=
  World (<[1%positive := U32 []]>
           (<[2%positive := U32 []]> (<[3%positive := F64 []]> ∅)))
        [] (fun _ => 0%R) (fun _ => 0).

(** A triangle of unit weights, in exact arithmetic. *)
Definition exact_triangle_world : world R :=
  World (<[1%positive := U32 [0; 1; 2]]>
           (<[2%positive := U32 [1; 2; 0]]>
              (<[3%positive := F64 [1; 1; 1]%R]> ∅)))
        [] (fun _ => 0%R) (fun _ => 0).

(** Five nodes and no edge; two triangles; a graph of two nodes whose only
    edge leaves the node range; a single node. *)
Definition five_nodes_graph : hil_graph_t := Graph 5 0 None None None.
Definition two_triangles_graph : hil_graph_t :=
  Graph 6 6 (Some (1%positive, 0)) (Some (2%positive, 0)) (Some (3%positive, 0)).
Definition two_triangles_memory : memory float :=
  <[1%positive := U32 [0; 1; 2; 3; 4; 5]]>
    (<[2%positive := U32 [1; 2; 0; 4; 5; 3]]>
       (<[3%positive := F64 [1; 1; 1; 1; 1; 1]%float]> ∅)).
Definition stray_edge_graph : hil_graph_t :=
  Graph 2 1 (Some (1%positive, 0)) (Some (2%positive, 0)) (Some (3%positive, 0)).
Definition stray_edge_memory : memory float :=
  <[1%positive := U32 [0]]>
    (<[2%positive := U32 [5]]> (<[3%positive := F64 [1%float]]> ∅)).
Definition one_node_graph : hil_graph_t := Graph 1 0 None None None.

(** A world around a memory: the allocator answers [gs]. *)
Definition world_of (m : memory float) (gs : list bool) : world float :=
  World m gs (fun _ => nan) (fun _ => 0).

(* ====================================================================== *)
(** * Further vocabulary and sample inputs *)

(** Two arrays of double, each in a block of its own. *)
Definition two_vectors {T} (a b : list T) : memory T :=
  <[1%positive := F64 a]> (<[2%positive := F64 b]> ∅).

Section MeanNormSpec.
Context {T : Type} {SC : Scalar T}.

(** The mean of the norms of the rows. *)
Definition mean_norm_of (rs : list (list T)) : T :=
  s_div (foldl (fun s row => s_add s (norm_list row)) s_zero rs)
        (s_of_size (length rs)).

(** Row [i] of [rs] as [hil_field_perturb] leaves it, the rows counted from
    [r]. *)
Definition perturbed_rows (epsilon : T) (cols r : nat) (rs : list (list T))
  : list (list T) :=
  imap (fun i row => renormalize (shift_row epsilon cols (r + i) row)) rs.

End MeanNormSpec.

(** The weight that meets node [i]: every edge counts once for each of its
    ends at [i], a loop at [i] twice. *)
Fixpoint incident_weight (i : nat) (srcs dsts : list nat) (ws : list R) : R :=
  match srcs, dsts, ws with
  | s :: srcs, d :: dsts, w :: ws =>
      ((if decide (s = i) then w else 0) + (if decide (d = i) then w else 0)
       + incident_weight i srcs dsts ws)%R
  | _, _, _ => 0%R
  end.

(** The first [k] requests to come are granted. *)
Definition requests_granted (k : nat) (gs : list bool) : Prop :=
  forall i, i < k -> granted (Nat.iter i tail gs) = true.

Definition zero_vector : hil_vector_t := Vector None 0.

(** A vector over the block of [demo_matrix_memory]; a graph whose [src] and
    [dst] are one array. *)
Definition demo_vector : hil_vector_t := Vector (Some (1%positive, 0)) 2.
Definition shared_array_graph : hil_graph_t :=
  Graph 3 2 (Some (1%positive, 0)) (Some (1%positive, 0)) (Some (3%positive, 0)).

(** 2^61 nodes and no edge: the byte count of the degree array is 2^64. *)
Definition wrapping_graph : hil_graph_t :=
  Graph (N.to_nat (2 ^ 61)) 0 None None None.
(* ====================================================================== *)
(** * Loops and array cells *)

Section Loops.
Context {St : Type}.
Implicit Types (body : nat -> St -> result St) (s : St).

Lemma bind_Ok {A B : Type} (m : result A) (f : A -> result B) (b : B) :
  m ≫= f = Ok b <-> exists a, m = Ok a /\ f a = Ok b.
Proof.
  destruct m as [a| |]; simpl; split.
  - intros Hf. exists a. done.
  - intros (a' & Ha & Hf). by simplify_eq.
  - discriminate.
  - intros (a' & Ha & _). discriminate.
  - discriminate.
  - intros (a' & Ha & _). discriminate.
Qed.

(** Total correctness of a counted loop from an invariant. *)
Lemma for_range_inv (P : nat -> St -> Prop) lo cnt body s :
  P lo s ->
  (forall i s, lo <= i < lo + cnt -> P i s ->
               exists s', body i s = Ok s' /\ P (S i) s') ->
  exists s', for_range lo cnt body s = Ok s' /\ P (lo + cnt) s'.
Proof.
  revert lo s. induction cnt as [|k IH]; intros lo s HP Hstep; simpl.
  - exists s. rewrite Nat.add_0_r. done.
  - destruct (Hstep lo s) as (s1 & -> & HP1); [lia | done |]. simpl.
    destruct (IH (S lo) s1) as (s2 & -> & HP2); [done | |].
    + intros i s' Hi. apply Hstep. lia.
    + exists s2. replace (lo + S k) with (S lo + k) by lia. done.
Qed.

(** Partial correctness: what an invariant says of a loop that returned. *)
Lemma for_range_post (P : nat -> St -> Prop) lo cnt body s s' :
  for_range lo cnt body s = Ok s' ->
  P lo s ->
  (forall i s s', lo <= i < lo + cnt -> P i s -> body i s = Ok s' -> P (S i) s') ->
  P (lo + cnt) s'.
Proof.
  revert lo s. induction cnt as [|k IH]; intros lo s Hrun HP Hstep; simpl in *.
  - simplify_eq. by rewrite Nat.add_0_r.
  - apply bind_Ok in Hrun as (s1 & Hb & Hrun).
    replace (lo + S k) with (S lo + k) by lia.
    apply (IH (S lo) s1); [done | |].
    + apply (Hstep lo s); [lia | done | done].
    + intros i t t' Hi. apply Hstep. lia.
Qed.

Lemma for_range_ext lo cnt body body' s :
  (forall i s, lo <= i < lo + cnt -> body i s = body' i s) ->
  for_range lo cnt body s = for_range lo cnt body' s.
Proof.
  revert lo s. induction cnt as [|k IH]; intros lo s Hext; simpl; [done|].
  rewrite Hext by lia. destruct (body' lo s); simpl; try done.
  apply IH. intros. apply Hext. lia.
Qed.

End Loops.

Lemma aget_Ok {A} (a : list A) i x : aget a i = Ok x <-> a !! i = Some x.
Proof. unfold aget. destruct (a !! i); split; intros; simplify_eq; done. Qed.

Lemma aget_lt {A} (a : list A) i :
  i < length a -> exists x, aget a i = Ok x /\ a !! i = Some x.
Proof.
  intros Hi. destruct (lookup_lt_is_Some_2 a i Hi) as [x Hx].
  exists x. by rewrite aget_Ok.
Qed.

Lemma aset_Ok {A} (a : list A) i x a' :
  aset a i x = Ok a' <-> i < length a /\ a' = <[i := x]> a.
Proof.
  unfold aset. destruct (decide (i < length a)) as [Hi|Hi]; split.
  - intros Heq. by simplify_eq.
  - intros [_ ->]. done.
  - discriminate.
  - intros [? _]. lia.
Qed.

Lemma aset_lt {A} (a : list A) i x :
  i < length a -> aset a i x = Ok (<[i := x]> a).
Proof. intros. by apply aset_Ok. Qed.

(** Folding over the cells [o + lo .. o + lo + cnt) of an array. *)
Lemma for_range_fold {A B} (f : B -> A -> B) (xs : list A) o lo cnt (s : B) :
  o + lo + cnt <= length xs ->
  for_range lo cnt (fun i s => x ← aget xs (o + i); Ok (f s x)) s
  = Ok (foldl f s (take cnt (drop (o + lo) xs))).
Proof.
  revert lo s. induction cnt as [|k IH]; intros lo s Hlen; simpl; [done|].
  destruct (aget_lt xs (o + lo)) as (x & -> & Hx); [lia|]. simpl.
  rewrite (drop_S _ _ _ Hx). simpl.
  rewrite IH by lia. by replace (o + S lo) with (S (o + lo)) by lia.
Qed.

(** Projections of a world and the sequencing of results, and no more. *)
Ltac world_simpl :=
  cbn [w_mem w_grants w_junk_f64 w_junk_int set_grants set_mem
       mbind result_bind is_null fst snd option_map].


(* ====================================================================== *)
(** * Blocks of memory and the vector kernels *)

Section MemoryLemmas.
Context {T : Type}.
Implicit Types (m : memory T) (blk : list T).

Lemma read_f64_block m l o blk i :
  m !! l = Some (F64 blk) -> read_f64 m (Some (l, o)) i = aget blk (o + i).
Proof. intros Hl. unfold read_f64. by rewrite Hl. Qed.

Lemma write_f64_block m l o blk i x :
  m !! l = Some (F64 blk) ->
  write_f64 m (Some (l, o)) i x
  = (blk' ← aset blk (o + i) x; Ok (<[l := F64 blk']> m)).
Proof. intros Hl. unfold write_f64. by rewrite Hl. Qed.

Lemma aget_middle {A} (pre post : list A) x n :
  length pre = n -> aget (pre ++ x :: post) n = Ok x.
Proof. intros Hn. unfold aget. by rewrite list_lookup_middle. Qed.

(** A loop that works on one block is a loop on the cells of that block;
    [Q] is what the loop needs of the rest of the memory. *)
Lemma for_range_block (Q : memory T -> Prop) (l : loc)
  (f : nat -> list T -> result (list T))
  (body : nat -> memory T -> result (memory T)) :
  (forall m blk, Q m -> Q (<[l := F64 blk]> m)) ->
  (forall i m blk, Q m -> m !! l = Some (F64 blk) ->
     body i m = (blk' ← f i blk; Ok (<[l := F64 blk']> m))) ->
  forall cnt lo m blk, Q m -> m !! l = Some (F64 blk) ->
    for_range lo cnt body m
    = (blk' ← for_range lo cnt f blk; Ok (<[l := F64 blk']> m)).
Proof.
  intros HQ Hbody. induction cnt as [|k IH]; intros lo m blk Hm Hl; simpl.
  - by rewrite insert_id.
  - rewrite (Hbody _ _ _ Hm Hl).
    destruct (f lo blk) as [blk1| |]; simpl; [|done..].
    rewrite (IH _ _ blk1) by (apply HQ || apply lookup_insert_eq; done).
    destruct (for_range (S lo) k f blk1); simpl; [|done..].
    by rewrite insert_insert_eq.
Qed.

(** Reading the cells [row] that sit between [pre] and [post]. *)
Lemma fold_cells {B} (f : B -> T -> B) pre row post o lo (s : B) :
  length pre = o + lo ->
  for_range lo (length row)
    (fun i s => x ← aget (pre ++ row ++ post) (o + i); Ok (f s x)) s
  = Ok (foldl f s row).
Proof.
  intros Hpre. rewrite for_range_fold.
  - rewrite <- Hpre, drop_app_length, take_app_length. done.
  - rewrite !length_app. lia.
Qed.

Lemma fold_cells2 {B} (f : B -> T * T -> B) pre row post pre' row' post'
  o o' lo (s : B) :
  length pre = o + lo -> length pre' = o' + lo -> length row' = length row ->
  for_range lo (length row)
    (fun i s =>
       x ← aget (pre ++ row ++ post) (o + i);
       y ← aget (pre' ++ row' ++ post') (o' + i);
       Ok (f s (x, y))) s
  = Ok (foldl f s (zip row row')).
Proof.
  revert pre pre' row' lo s.
  induction row as [|x row IH]; intros pre pre' row' lo s Hpre Hpre' Hlen.
  - done.
  - destruct row' as [|y row']; [done|]. simpl in Hlen. simpl.
    rewrite !aget_middle by done. simpl.
    specialize (IH (pre ++ [x]) (pre' ++ [y]) row' (S lo) (f s (x, y))).
    rewrite <- !(assoc_L (++)) in IH. simpl in IH.
    apply IH; rewrite ?length_app; simpl; lia.
Qed.

(** Updating in place the cells [row] that sit between [pre] and [post]. *)
Lemma update_cells (g : nat -> T -> T) row pre post o lo :
  length pre = o + lo ->
  for_range lo (length row)
    (fun i b => x ← aget b (o + i); aset b (o + i) (g i x))
    (pre ++ row ++ post)
  = Ok (pre ++ imap (fun j => g (lo + j)) row ++ post).
Proof.
  revert pre lo. induction row as [|x row IH]; intros pre lo Hpre.
  - done.
  - simpl. rewrite aget_middle by done. simpl.
    rewrite aset_lt by (rewrite !length_app; simpl; lia). simpl.
    rewrite insert_app_r_alt by lia.
    replace (o + lo - length pre) with 0 by lia. simpl.
    specialize (IH (pre ++ [g lo x]) (S lo)).
    rewrite <- !(assoc_L (++)) in IH. simpl in IH.
    rewrite IH by (rewrite length_app; simpl; lia).
    rewrite Nat.add_0_r. do 2 f_equal. f_equal. f_equal. apply imap_ext. intros j y _. simpl.
    f_equal. lia.
    (* *)
Qed.

Lemma fill_cells (v : T) row pre post o lo :
  length pre = o + lo ->
  for_range lo (length row) (fun i b => aset b (o + i) v) (pre ++ row ++ post)
  = Ok (pre ++ replicate (length row) v ++ post).
Proof.
  revert pre lo. induction row as [|x row IH]; intros pre lo Hpre.
  - done.
  - simpl. rewrite aset_lt by (rewrite !length_app; simpl; lia). simpl.
    rewrite insert_app_r_alt by lia.
    replace (o + lo - length pre) with 0 by lia. simpl.
    specialize (IH (pre ++ [v]) (S lo)).
    rewrite <- !(assoc_L (++)) in IH. simpl in IH.
    apply IH. rewrite length_app. simpl. lia.
Qed.

End MemoryLemmas.

Section KernelLemmas.
Context {T : Type} {SC : Scalar T}.
Implicit Types (m : memory T) (row pre post : list T).

Lemma vec_norm_cells m l o n pre row post :
  m !! l = Some (F64 (pre ++ row ++ post)) -> length pre = o ->
  length row = n ->
  hil_vec_norm m (Some (l, o)) n = Ok (norm_list row).
Proof.
  intros Hl Hpre <-. unfold hil_vec_norm.
  erewrite for_range_ext.
  2:{ intros i s _. rewrite (read_f64_block _ _ _ _ _ Hl). reflexivity. }
  rewrite (fold_cells (fun s x => s_add s (s_mul x x))) by lia. done.
Qed.

Lemma vec_dot_cells m l o n pre row post l' o' pre' row' post' :
  m !! l = Some (F64 (pre ++ row ++ post)) -> length pre = o ->
  m !! l' = Some (F64 (pre' ++ row' ++ post')) -> length pre' = o' ->
  length row = n -> length row' = n ->
  hil_vec_dot m (Some (l, o)) (Some (l', o')) n
  = Ok (dot_list row row').
Proof.
  intros Hl Hpre Hl' Hpre' <- Hlen. unfold hil_vec_dot.
  erewrite for_range_ext.
  2:{ intros i s _. rewrite (read_f64_block _ _ _ _ _ Hl).
      rewrite (read_f64_block _ _ _ _ _ Hl'). reflexivity. }
  rewrite (fold_cells2 (fun s xy => s_add s (s_mul xy.1 xy.2))
             pre row post pre' row' post') by lia.
  done.
Qed.

(** [for (i = 0; i < n; i++) p[i] = g(i, p[i]);] on the cells [row]. *)
Lemma map_cells m l o n pre row post (g : nat -> T -> T) :
  m !! l = Some (F64 (pre ++ row ++ post)) -> length pre = o ->
  length row = n ->
  for_range 0 n
    (fun i m => x ← read_f64 m (Some (l, o)) i;
                write_f64 m (Some (l, o)) i (g i x)) m
  = Ok (<[l := F64 (pre ++ imap g row ++ post)]> m).
Proof.
  intros Hl Hpre <-.
  rewrite (for_range_block (fun _ => True) l
             (fun i b => x ← aget b (o + i); aset b (o + i) (g i x)))
    with (blk := pre ++ row ++ post); [|done| |done|done].
  - rewrite update_cells by lia. simpl. done.
  - intros i m' blk _ Hm'. unfold read_f64, write_f64. rewrite Hm'.
    destruct (aget blk (o + i)); simpl; [|done..].
    destruct (aset blk _ _); done.
Qed.

Lemma vec_scale_cells m l o n pre row post k :
  m !! l = Some (F64 (pre ++ row ++ post)) -> length pre = o ->
  length row = n ->
  hil_vec_scale_inplace m (Some (l, o)) n k
  = Ok (<[l := F64 (pre ++ ((fun x => s_mul x k) <$> row) ++ post)]> m).
Proof.
  intros Hl Hpre Hn. unfold hil_vec_scale_inplace.
  rewrite (map_cells m l o n pre row post (fun _ x => s_mul x k)) by done.
  pose proof (imap_const (fun x => s_mul x k) row) as E. unfold const in E.
  by rewrite E.
Qed.

Lemma vec_zero_cells m l o n pre row post :
  m !! l = Some (F64 (pre ++ row ++ post)) -> length pre = o ->
  length row = n ->
  hil_vec_zero m (Some (l, o)) n
  = Ok (<[l := F64 (pre ++ replicate n s_zero ++ post)]> m).
Proof.
  intros Hl Hpre <-. unfold hil_vec_zero.
  rewrite (for_range_block (fun _ => True) l
             (fun i b => aset b (o + i) s_zero))
    with (blk := pre ++ row ++ post); [|done| |done|done].
  - rewrite fill_cells by lia. done.
  - intros i m' blk _ Hm'. unfold write_f64. by rewrite Hm'.
Qed.

Lemma vec_add_cells m l o n pre row post l' o' pre' row' post' :
  l <> l' ->
  m !! l = Some (F64 (pre ++ row ++ post)) -> length pre = o ->
  m !! l' = Some (F64 (pre' ++ row' ++ post')) -> length pre' = o' ->
  length row = n -> length row' = n ->
  hil_vec_add_inplace m (Some (l, o)) (Some (l', o')) n
  = Ok (<[l := F64 (pre ++ zip_with s_add row row' ++ post)]> m).
Proof.
  intros Hne Hl Hpre Hl' Hpre' <- Hlen. unfold hil_vec_add_inplace.
  rewrite (for_range_block
             (fun m => m !! l' = Some (F64 (pre' ++ row' ++ post'))) l
             (fun i b => x ← aget b (o + i);
                         y ← aget (pre' ++ row' ++ post') (o' + i);
                         aset b (o + i) (s_add x y)))
    with (blk := pre ++ row ++ post); [| | |done|done].
  - assert (Hloop : forall row0 rowb pre0 preb postb lo,
      length pre0 = o + lo -> length preb = o' + lo ->
      length rowb = length row0 ->
      for_range lo (length row0)
        (fun i b => x ← aget b (o + i);
                    y ← aget (preb ++ rowb ++ postb) (o' + i);
                    aset b (o + i) (s_add x y))
        (pre0 ++ row0 ++ post)
      = Ok (pre0 ++ zip_with s_add row0 rowb ++ post)).
    { induction row0 as [|x row0 IH]; intros rowb pre0 preb postb lo H0 Hb Hlb.
      - destruct rowb; done.
      - destruct rowb as [|y rowb]; [done|]. simpl in Hlb. simpl.
        rewrite !aget_middle by done. simpl.
        rewrite aset_lt by (rewrite !length_app; simpl; lia). simpl.
        rewrite insert_app_r_alt by lia.
        replace (o + lo - length pre0) with 0 by lia. simpl.
        specialize (IH rowb (pre0 ++ [s_add x y]) (preb ++ [y]) postb (S lo)).
        rewrite <- !(assoc_L (++)) in IH. simpl in IH.
        apply IH; rewrite ?length_app; simpl; lia. }
    rewrite (Hloop row row' pre pre' post' 0) by lia. done.
  - intros m' blk Hm'. by rewrite lookup_insert_ne.
  - intros i m' blk Hm'2 Hm'. unfold read_f64, write_f64. rewrite Hm', Hm'2.
    destruct (aget blk (o + i)); simpl; [|done..].
    destruct (aget _ (o' + i)); simpl; [|done..].
    destruct (aset blk _ _); done.
Qed.

End KernelLemmas.

(* ====================================================================== *)
(** * Exact arithmetic *)

Section ExactSums.
Local Open Scope R_scope.

Lemma sum_sq_from (a : R) (xs : list R) :
  foldl (fun s x => s + x * x) a xs = a + sum_sq xs.
Proof.
  unfold sum_sq. simpl. revert a.
  induction xs as [|x xs IH]; intros a; simpl; [lra|].
  rewrite (IH (a + x * x)), (IH (0 + x * x)). lra.
Qed.

Lemma sum_sq_cons (x : R) (xs : list R) : sum_sq (x :: xs) = x * x + sum_sq xs.
Proof.
  unfold sum_sq at 1. simpl. rewrite sum_sq_from. lra.
Qed.

Lemma sum_sq_nonneg (xs : list R) : 0 <= sum_sq xs.
Proof.
  induction xs as [|x xs IH]; [unfold sum_sq; simpl; lra|].
  rewrite sum_sq_cons. nra.
Qed.

Lemma sum_sq_scale (k : R) (xs : list R) :
  sum_sq ((fun x => x * k) <$> xs) = k * k * sum_sq xs.
Proof.
  induction xs as [|x xs IH]; [unfold sum_sq; simpl; lra|].
  rewrite fmap_cons, !sum_sq_cons, IH. lra.
Qed.

Lemma Rltb_true (x y : R) : x < y -> Rltb x y = true.
Proof. intros Hlt. unfold Rltb. by destruct (Rlt_dec x y). Qed.

Lemma Rltb_false (x y : R) : y <= x -> Rltb x y = false.
Proof. intros Hle. unfold Rltb. destruct (Rlt_dec x y); [lra|done]. Qed.

Lemma Rleb_true (x y : R) : x <= y -> Rleb x y = true.
Proof. intros Hle. unfold Rleb. by destruct (Rle_dec x y). Qed.

Lemma Rleb_false (x y : R) : y < x -> Rleb x y = false.
Proof. intros Hlt. unfold Rleb. destruct (Rle_dec x y); [lra|done]. Qed.

Lemma eps_pos : 0 < (s_eps : R).
Proof. simpl. lra. Qed.

(** In exact arithmetic the rescaled row has norm one. *)
Lemma renormalize_unit (row : list R) :
  s_eps < norm_list row -> norm_list (renormalize row) = 1.
Proof.
  intros Hn. pose proof eps_pos as He.
  unfold renormalize.
  change (s_ltb s_eps (norm_list row)) with (Rltb s_eps (norm_list row)).
  rewrite Rltb_true by done.
  unfold norm_list in *.
  change (@s_sqrt R real_scalar) with R_sqrt.sqrt in *.
  change (@s_mul R real_scalar) with Rmult.
  change (@s_div R real_scalar) with Rdiv.
  change (@s_one R real_scalar) with 1.
  rewrite sum_sq_scale.
  set (S := sum_sq row) in *.
  assert (HS : 0 < S).
  { destruct (Rle_lt_dec S 0) as [Hle|]; [|done].
    rewrite (sqrt_neg_0 S Hle) in Hn. lra. }
  assert (Hq : 0 < R_sqrt.sqrt S) by (by apply sqrt_lt_R0).
  replace (1 / R_sqrt.sqrt S * (1 / R_sqrt.sqrt S) * S) with 1; [apply sqrt_1|].
  rewrite <- (sqrt_sqrt S) at 3 by lra. field. lra.
Qed.

End ExactSums.

Section ExactCoherence.
Local Open Scope R_scope.
Implicit Types (v : list R).

Lemma dot_list_self_from (a : R) v :
  foldl (fun s xy => s + xy.1 * xy.2) a (zip v v) = a + sum_sq v.
Proof.
  revert a. induction v as [|x v IH]; intros a; simpl.
  - unfold sum_sq. simpl. lra.
  - rewrite IH, sum_sq_cons. lra.
Qed.

Lemma dot_list_self v : dot_list v v = sum_sq v.
Proof.
  unfold dot_list. change (@s_zero R real_scalar) with 0.
  change (@s_add R real_scalar) with Rplus.
  change (@s_mul R real_scalar) with Rmult.
  rewrite dot_list_self_from. lra.
Qed.

Lemma zeros_scaled (v : list R) :
  replicate (length v) 0 = (fun x => 0 * x) <$> v.
Proof.
  induction v as [|x v IH]; [done|].
  rewrite fmap_cons, <- IH. simpl. f_equal. lra.
Qed.

Lemma add_scaled (a : R) v :
  zip_with Rplus ((fun x => a * x) <$> v) v = (fun x => (a + 1) * x) <$> v.
Proof.
  induction v as [|x v IH]; [done|].
  rewrite !fmap_cons. cbn [zip_with]. rewrite IH. f_equal. lra.
Qed.

Lemma sum_of_copies v k : forall a : R,
  foldl (zip_with Rplus) ((fun x => a * x) <$> v) (replicate k v)
  = (fun x => (a + INR k) * x) <$> v.
Proof.
  induction k as [|k IH]; intros a.
  - simpl. apply list_fmap_ext. intros _ x _. lra.
  - cbn [replicate foldl]. rewrite add_scaled, IH.
    apply list_fmap_ext. intros _ x _. rewrite S_INR. lra.
Qed.

Lemma centroid_of_copies v k :
  (0 < k)%nat -> centroid_of (length v) (replicate k v) = v.
Proof.
  intros Hk. unfold centroid_of. rewrite length_replicate.
  change (@s_zero R real_scalar) with 0.
  change (@s_add R real_scalar) with Rplus.
  rewrite zeros_scaled, sum_of_copies, <- list_fmap_compose.
  rewrite <- (list_fmap_id v) at 2. apply list_fmap_ext. intros _ x _.
  simpl. assert (0 < INR k) by (apply lt_0_INR; lia). field. lra.
Qed.

Lemma clamp_min_above (x m : R) : m <= x -> hil_clamp_min x m = x.
Proof. intros Hle. unfold hil_clamp_min. simpl. by rewrite Rltb_false. Qed.

Lemma cosine_to_self v :
  s_eps <= norm_list v -> cosine_to v (norm_list v) v = 1.
Proof.
  intros Hn. pose proof eps_pos as He.
  unfold cosine_to. rewrite clamp_min_above by done.
  rewrite dot_list_self. unfold norm_list in *.
  change (@s_sqrt R real_scalar) with R_sqrt.sqrt in *.
  change (@s_div R real_scalar) with Rdiv.
  change (@s_mul R real_scalar) with Rmult.
  set (S := sum_sq v) in *.
  assert (HS : 0 < S).
  { destruct (Rle_lt_dec S 0) as [Hle|]; [|done].
    rewrite (sqrt_neg_0 S Hle) in Hn. lra. }
  rewrite sqrt_sqrt by lra. field. lra.
Qed.

Lemma count_ones {A} (g : A -> R) (l : list A) : forall a : R,
  (forall x, x ∈ l -> g x = 1) ->
  foldl (fun s x => s + g x) a l = a + INR (length l).
Proof.
  induction l as [|x l IH]; intros a Hg.
  - simpl. lra.
  - cbn [foldl]. rewrite IH by (intros y Hy; apply Hg; by right).
    rewrite (Hg x) by by left. rewrite length_cons. rewrite S_INR. lra.
Qed.

(** The mean cosine of [k] copies of a row of norm at least [EPS] is one. *)
Lemma coherence_of_copies v k :
  (0 < k)%nat -> s_eps <= norm_list v ->
  coherence_of (length v) (replicate k v) = 1.
Proof.
  intros Hk Hn. unfold coherence_of. rewrite centroid_of_copies by done.
  rewrite clamp_min_above by done.
  change (@s_zero R real_scalar) with 0.
  change (@s_add R real_scalar) with Rplus.
  change (@s_div R real_scalar) with Rdiv.
  rewrite (count_ones (cosine_to v (norm_list v))).
  - rewrite length_replicate. simpl.
    assert (0 < INR k) by (apply lt_0_INR; lia). field. lra.
  - intros x Hx. apply elem_of_replicate in Hx as [-> _].
    by apply cosine_to_self.
Qed.

End ExactCoherence.

(* ====================================================================== *)
(** * Release *)

Section Release.
Context {T : Type}.
Implicit Types (m : memory T) (p : ptr).

Lemma free_Ok m p m' : free p m = Ok m' -> freeable m p /\ m' = released p m.
Proof.
  unfold free, freeable, released. destruct p as [[l [|o]]|]; try discriminate.
  - destruct (m !! l) eqn:E; [|discriminate]. intros ?; simplify_eq. eauto.
  - intros ?; simplify_eq. done.
Qed.

Lemma free_freeable m p : freeable m p -> free p m = Ok (released p m).
Proof.
  unfold free, freeable, released. destruct p as [[l o]|]; [|done].
  intros [-> [b Hb]]. by rewrite Hb.
Qed.

Lemma freeable_released m p q :
  freeable m q -> (forall l o o', p = Some (l, o) -> q = Some (l, o') -> False) ->
  freeable (released p m) q.
Proof.
  unfold freeable, released. destruct q as [[l o]|]; [|done].
  intros [-> Hl] Hne. split; [done|]. destruct p as [[l' o']|]; [|done].
  rewrite lookup_delete_ne; [done|]. intros ->. by eapply Hne.
Qed.

End Release.

(** C9: after [hil_graph_free] the graph is the zero graph (the three pointers
    null, [num_nodes] and [num_edges] 0) and its three arrays are released;
    after [hil_matrix_free] the matrix is the zero matrix and its array is
    released; a second release of the released structure changes neither the
    structure nor the memory.  The release of live, distinct arrays goes
    through, and the release of an absent structure does nothing. *)
Theorem release_zeroes_and_repeats_safely (T : Type) :
  (forall (g : hil_graph_t) (m : memory T) g' m',
      hil_graph_free (Some g) m = Ok (g', m') ->
      g' = Some zero_graph
      /\ m' = released (weight g) (released (dst g) (released (src g) m))
      /\ hil_graph_free g' m' = Ok (g', m'))
  /\ (forall (g : hil_graph_t) (m : memory T),
      freeable m (src g) -> freeable m (dst g) -> freeable m (weight g) ->
      distinct_blocks (src g) (dst g) -> distinct_blocks (src g) (weight g) ->
      distinct_blocks (dst g) (weight g) ->
      exists m', hil_graph_free (Some g) m = Ok (Some zero_graph, m'))
  /\ (forall (M : hil_matrix_t) (m : memory T) M' m',
      hil_matrix_free (Some M) m = Ok (M', m') ->
      M' = Some zero_matrix /\ m' = released (data M) m
      /\ hil_matrix_free M' m' = Ok (M', m'))
  /\ (forall (M : hil_matrix_t) (m : memory T),
      freeable m (data M) ->
      exists m', hil_matrix_free (Some M) m = Ok (Some zero_matrix, m'))
  /\ (forall m : memory T,
      hil_graph_free None m = Ok (None, m) /\ hil_matrix_free None m = Ok (None, m)).
Proof.
  repeat split.
  - unfold hil_graph_free in H.
    apply bind_Ok in H as (m1 & _ & H). apply bind_Ok in H as (m2 & _ & H).
    apply bind_Ok in H as (m3 & _ & H). by simplify_eq.
  - unfold hil_graph_free in H.
    apply bind_Ok in H as (m1 & H1 & H). apply bind_Ok in H as (m2 & H2 & H).
    apply bind_Ok in H as (m3 & H3 & H). simplify_eq.
    apply free_Ok in H1 as [_ ->]. apply free_Ok in H2 as [_ ->].
    by apply free_Ok in H3 as [_ ->].
  - unfold hil_graph_free in H.
    apply bind_Ok in H as (m1 & _ & H). apply bind_Ok in H as (m2 & _ & H).
    apply bind_Ok in H as (m3 & _ & H). by simplify_eq.
  - intros g m Hs Hd Hw Hsd Hsw Hdw. eexists. unfold hil_graph_free.
    rewrite (free_freeable _ _ Hs). simpl.
    rewrite (free_freeable _ (dst g)) by by apply freeable_released. simpl.
    rewrite (free_freeable _ (weight g)) by by repeat apply freeable_released.
    done.
  - unfold hil_matrix_free in H. apply bind_Ok in H as (m1 & _ & H).
    by simplify_eq.
  - unfold hil_matrix_free in H. apply bind_Ok in H as (m1 & H1 & H).
    simplify_eq. by apply free_Ok in H1 as [_ ->].
  - unfold hil_matrix_free in H. apply bind_Ok in H as (m1 & _ & H).
    by simplify_eq.
  - intros M m HM. eexists. unfold hil_matrix_free.
    by rewrite (free_freeable _ _ HM).
Qed.

Lemma release_zeroes_and_repeats_safely_witness :
  hil_graph_free (Some demo_graph) demo_graph_memory = Ok (Some zero_graph, ∅)
  /\ hil_graph_free (Some zero_graph) (∅ : memory float) = Ok (Some zero_graph, ∅)
  /\ hil_matrix_free (Some demo_matrix) demo_matrix_memory = Ok (Some zero_matrix, ∅)
  /\ hil_matrix_free (Some zero_matrix) (∅ : memory float) = Ok (Some zero_matrix, ∅).
Proof.
  destruct (release_zeroes_and_repeats_safely float) as (Hg & _ & HM & _ & _).
  assert (Eg : hil_graph_free (Some demo_graph) demo_graph_memory
               = Ok (Some zero_graph, ∅)) by (vm_compute; reflexivity).
  assert (EM : hil_matrix_free (Some demo_matrix) demo_matrix_memory
               = Ok (Some zero_matrix, ∅)) by (vm_compute; reflexivity).
  destruct (Hg _ _ _ _ Eg) as (_ & _ & Hg2).
  destruct (HM _ _ _ _ EM) as (_ & _ & HM2).
  repeat split; assumption.
Defined.

(* ====================================================================== *)
(** * Validation *)

Section Validate.
Context {T : Type} {SC : Scalar T}.

Lemma validate_edges_spec (m : memory T) g e cnt :
  (forall e', e <= e' < e + cnt ->
     exists s d w, read_u32 m (src g) e' = Ok s /\ read_u32 m (dst g) e' = Ok d
                   /\ read_f64 m (weight g) e' = Ok w) ->
  exists b, validate_edges m g e cnt = Ok b
    /\ (b = false <-> exists e', e <= e' < e + cnt /\ edge_rejected m g e').
Proof.
  revert e. induction cnt as [|k IH]; intros e Hrd; simpl.
  - exists true. split; [done|]. split; [done|]. intros (e' & ? & _). lia.
  - destruct (Hrd e) as (s & d & w & Hs & Hd & Hw); [lia|].
    rewrite Hs, Hd. simpl.
    assert (Hhere : forall P : Prop, P ->
      (num_nodes g <= s \/ num_nodes g <= d
       \/ exists w, read_f64 m (weight g) e = Ok w
                    /\ (s_isfinite w = false \/ s_ltb w s_zero = true)) ->
      exists b, Ok false = Ok b
        /\ (b = false <-> exists e', e <= e' < e + S k /\ edge_rejected m g e')).
    { intros _ _ Hbad. exists false. split; [done|]. split; [|done].
      intros _. exists e. split; [lia|]. exists s, d. done. }
    destruct (decide (num_nodes g <= s)) as [Hsn|Hsn]; [apply (Hhere True); auto|].
    destruct (decide (num_nodes g <= d)) as [Hdn|Hdn]; [apply (Hhere True); auto|].
    rewrite Hw. simpl.
    destruct (s_isfinite w) eqn:Hfin; simpl;
      [|apply (Hhere True); [done|]; right; right; exists w; auto].
    destruct (s_ltb w s_zero) eqn:Hneg;
      [apply (Hhere True); [done|]; right; right; exists w; auto|].
    destruct (IH (S e)) as (b & Hb & Hiff).
    { intros e' He'. apply Hrd. lia. }
    exists b. split; [done|]. rewrite Hiff. split.
    + intros (e' & He' & Hrej). exists e'. split; [lia | done].
    + intros (e' & He' & Hrej). destruct (decide (e' = e)) as [->|Hne].
      * destruct Hrej as (s' & d' & Hs' & Hd' & Hbad).
        rewrite Hs in Hs'. rewrite Hd in Hd'. simplify_eq.
        destruct Hbad as [?|[?|(w' & Hw' & Hbad)]]; [lia | lia |].
        rewrite Hw in Hw'. simplify_eq. destruct Hbad; congruence.
      * exists e'. split; [lia | done].
Qed.

End Validate.

(** C2: when the edge arrays that are present can be read,
    [hil_graph_validate] answers false exactly for an absent graph, a graph
    of no node, a graph with edges and a null edge array, an edge with an end
    at or beyond [num_nodes], and an edge whose weight is negative or not
    finite; it answers true for every other graph, and so for every graph of
    at least one node and no edge. *)
Theorem validate_rejects_exactly (T : Type) (SC : Scalar T)
  (m : memory T) (graph : option hil_graph_t) :
  (forall g, graph = Some g ->
     src g <> None -> dst g <> None -> weight g <> None -> edges_readable m g) ->
  (exists b, hil_graph_validate m graph = Ok b
     /\ (b = false <-> graph_rejected m graph))
  /\ (forall g, graph = Some g -> num_edges g = 0 -> 0 < num_nodes g ->
        hil_graph_validate m graph = Ok true).
Proof.
  intros Hrd. split.
  - destruct graph as [g|]; simpl; [|exists false; done].
    destruct (decide (num_nodes g = 0)) as [Hn|Hn].
    { exists false. split; [done|]. split; [|done]. intros _. by left. }
    destruct (bool_decide (0 < num_edges g)
              && (is_null (src g) || is_null (dst g) || is_null (weight g)))
      eqn:Hnull.
    { exists false. split; [done|]. split; [|done]. intros _. right. left.
      apply andb_prop in Hnull as [Hm Hnull]. apply bool_decide_eq_true in Hm.
      split; [done|].
      destruct (src g), (dst g), (weight g); simpl in Hnull; try discriminate; auto. }
    assert (Hcase : num_edges g = 0
                    \/ (src g <> None /\ dst g <> None /\ weight g <> None)).
    { apply andb_false_iff in Hnull as [Hm|Hnull].
      - apply bool_decide_eq_false in Hm. left. lia.
      - right. destruct (src g), (dst g), (weight g); simpl in Hnull;
          try discriminate; done. }
    destruct (validate_edges_spec m g 0 (num_edges g)) as (b & Hb & Hiff).
    { intros e' He'. destruct Hcase as [Hz|(? & ? & ?)]; [lia|].
      apply (Hrd g); [done..|lia]. }
    exists b. split; [done|]. rewrite Hiff. split.
    + intros (e' & He' & Hrej). right. right. exists e'. split; [lia|done].
    + intros [?|[[Hm Hp]|(e' & He' & Hrej)]]; [done | |].
      * destruct Hcase as [?|(? & ? & ?)]; [lia|]. destruct Hp as [?|[?|?]]; done.
      * exists e'. split; [lia|done].
  - intros g -> Hm Hn. simpl. destruct (decide (num_nodes g = 0)); [lia|].
    rewrite Hm. simpl. done.
Qed.

Lemma validate_rejects_exactly_witness :
  hil_graph_validate triangle_memory (Some triangle_graph) = Ok true
  /\ ~ graph_rejected triangle_memory (Some triangle_graph).
Proof.
  assert (Hrd : forall g, Some triangle_graph = Some g ->
     src g <> None -> dst g <> None -> weight g <> None ->
     edges_readable triangle_memory g).
  { intros g Hg _ _ _. injection Hg as <-. intros e He.
    destruct e as [|[|[|e]]]; [| | |simpl in He; lia].
    - exists 0, 1, 1%float. vm_compute. auto.
    - exists 1, 2, 2%float. vm_compute. auto.
    - exists 2, 0, 0.5%float. vm_compute. auto. }
  destruct (validate_rejects_exactly float float_scalar triangle_memory
              (Some triangle_graph) Hrd) as [(b & Hb & Hiff) _].
  assert (Hrun : hil_graph_validate triangle_memory (Some triangle_graph) = Ok true)
    by (vm_compute; reflexivity).
  split; [exact Hrun|].
  intros Hrej. apply Hiff in Hrej. rewrite Hrun in Hb. congruence.
Defined.

(* ====================================================================== *)
(** * Coherence *)

Lemma size_mul_small a b : fits_size_t (a * b) -> size_mul a b = a * b.
Proof.
  unfold fits_size_t, size_mul. intros Hfit.
  rewrite N.mod_small by lia. lia.
Qed.

Lemma fits_size_t_le a b : a <= b -> fits_size_t b -> fits_size_t a.
Proof. unfold fits_size_t. lia. Qed.

Section Coherence.
Context {T : Type} {SC : Scalar T}.
Implicit Types (m : memory T) (row pre post xs c : list T).

Lemma length_chunks cols cnt xs : length (chunks cols cnt xs) = cnt.
Proof. revert xs. induction cnt as [|k IH]; intros xs; simpl; [done|]. by rewrite IH. Qed.

Lemma concat_chunks cols cnt xs :
  length xs = cnt * cols -> concat (chunks cols cnt xs) = xs.
Proof.
  revert xs. induction cnt as [|k IH]; intros xs Hlen; simpl in *.
  - by destruct xs.
  - rewrite IH by (rewrite length_drop; lia). apply take_drop.
Qed.

Lemma Forall_chunks cols cnt xs :
  length xs = cnt * cols -> Forall (fun r => length r = cols) (chunks cols cnt xs).
Proof.
  revert xs. induction cnt as [|k IH]; intros xs Hlen; simpl in *; [done|].
  constructor; [rewrite length_take; lia|].
  apply IH. rewrite length_drop. lia.
Qed.

Lemma chunks_concat cols (rs : list (list T)) :
  Forall (fun r => length r = cols) rs ->
  chunks cols (length rs) (concat rs) = rs.
Proof.
  induction 1 as [|r rs Hr _ IH]; simpl; [done|].
  rewrite take_app_length' by done. rewrite drop_app_length' by done.
  by rewrite IH.
Qed.

Lemma length_foldl_zip_add c (rs : list (list T)) cols :
  length c = cols -> Forall (fun r => length r = cols) rs ->
  length (foldl (zip_with s_add) c rs) = cols.
Proof.
  intros Hc Hrs. revert c Hc. induction Hrs as [|r rs Hr _ IH]; intros c Hc; simpl.
  - done.
  - apply IH. rewrite length_zip_with. lia.
Qed.

Lemma centroid_loop M lc l o cnt : forall r m pre xs post c,
  lc <> l -> data M = Some (l, o) ->
  m !! l = Some (F64 (pre ++ xs ++ post)) ->
  length pre = o + r * cols M -> length xs = cnt * cols M ->
  m !! lc = Some (F64 c) -> length c = cols M ->
  for_range r cnt
    (fun r m => hil_vec_add_inplace m (Some (lc, 0))
                  (ptr_add (data M) (r * cols M)) (cols M)) m
  = Ok (<[lc := F64 (foldl (zip_with s_add) c (chunks (cols M) cnt xs))]> m).
Proof.
  induction cnt as [|k IH]; intros r m pre xs post c Hne HM Hl Hpre Hxs Hlc Hc.
  - simpl. by rewrite insert_id.
  - simpl in *. rewrite HM. simpl ptr_add.
    rewrite <- (take_drop (cols M) xs) in Hl. rewrite <- (assoc_L (++)) in Hl.
    rewrite (vec_add_cells m lc 0 (cols M) [] c []
               l (o + r * cols M) pre (take (cols M) xs)
               (drop (cols M) xs ++ post) Hne);
      [|by rewrite app_nil_r|done|done|done|done|rewrite length_take; lia].
    simpl. rewrite app_nil_r.
    specialize (IH (S r) (<[lc := F64 (zip_with s_add c (take (cols M) xs))]> m)
                  (pre ++ take (cols M) xs) (drop (cols M) xs) post
                  (zip_with s_add c (take (cols M) xs)) Hne HM).
    rewrite HM in IH. simpl in IH. rewrite IH.
    + by rewrite insert_insert_eq.
    + rewrite lookup_insert_ne by done. by rewrite <- (assoc_L (++)).
    + rewrite length_app, length_take. simpl. lia.
    + rewrite length_drop. lia.
    + apply lookup_insert_eq.
    + rewrite length_zip_with, length_take. lia.
Qed.

Lemma cosine_loop M lc l o c c_norm m cnt : forall r pre xs post (s : T),
  data M = Some (l, o) ->
  m !! l = Some (F64 (pre ++ xs ++ post)) ->
  length pre = o + r * cols M -> length xs = cnt * cols M ->
  m !! lc = Some (F64 c) -> length c = cols M ->
  for_range r cnt
    (fun r s =>
       let row := ptr_add (data M) (r * cols M) in
       rn ← hil_vec_norm m row (cols M);
       let r_norm := hil_clamp_min rn HIL_EPS in
       dot ← hil_vec_dot m row (Some (lc, 0)) (cols M);
       Ok (s_add s (s_div dot (s_mul r_norm c_norm)))) s
  = Ok (foldl (fun s row => s_add s (cosine_to c c_norm row)) s
          (chunks (cols M) cnt xs)).
Proof.
  induction cnt as [|k IH]; intros r pre xs post s HM Hl Hpre Hxs Hlc Hc.
  - done.
  - simpl in *. rewrite HM. simpl ptr_add.
    pose proof Hl as Hl0.
    rewrite <- (take_drop (cols M) xs) in Hl. rewrite <- (assoc_L (++)) in Hl.
    rewrite (vec_norm_cells m l (o + r * cols M) (cols M) pre
               (take (cols M) xs) _ Hl)
      by (done || rewrite length_take; lia).
    simpl.
    rewrite (vec_dot_cells m l (o + r * cols M) (cols M) pre
               (take (cols M) xs) _ lc 0 [] c [] Hl);
      [|done|by rewrite app_nil_r|done|rewrite length_take; lia|done].
    simpl.
    specialize (IH (S r) (pre ++ take (cols M) xs) (drop (cols M) xs) post
                  (s_add s (cosine_to c c_norm (take (cols M) xs))) HM).
    rewrite HM in IH. simpl in IH. apply IH.
    + by rewrite <- (assoc_L (++)).
    + rewrite length_app, length_take. simpl. lia.
    + rewrite length_drop. lia.
    + done.
    + done.
Qed.

Lemma fresh_block_None m : m !! fresh (dom m) = None.
Proof. apply not_elem_of_dom. apply is_fresh. Qed.

Lemma matrix_empty_false M l o :
  data M = Some (l, o) -> 0 < rows M -> 0 < cols M -> matrix_empty M = false.
Proof.
  intros HM Hr Hc. unfold matrix_empty. rewrite HM. simpl.
  rewrite !bool_decide_eq_false_2 by lia. done.
Qed.

(** [hil_field_coherence] computes [coherence_of] and gives the memory back as
    it found it. *)
Lemma coherence_run (f : hil_field_t) (w : world T) xs :
  field_cells (w_mem w) f xs ->
  0 < rows (coordinates f) -> 0 < cols (coordinates f) ->
  fits_size_t (8 * cols (coordinates f)) ->
  hil_field_coherence (Some f) w
  = Ok (if granted (w_grants w)
        then coherence_of (cols (coordinates f))
               (chunks (cols (coordinates f)) (rows (coordinates f)) xs)
        else s_zero,
        set_grants w (tail (w_grants w))).
Proof.
  intros (l & o & pre & post & HM & Hl & Hpre & Hxs) Hr Hc Hfit.
  unfold hil_field_coherence.
  rewrite (matrix_empty_false _ l o) by done.
  unfold malloc_f64. destruct (granted (w_grants w)); [|done].
  rewrite size_mul_small by done.
  rewrite Nat.mul_comm, Nat.div_mul by done.
  set (M := coordinates f) in *.
  set (lc := fresh (dom (w_mem w))).
  assert (Hfresh : w_mem w !! lc = None) by apply fresh_block_None.
  assert (Hne : lc <> l) by (intros ->; congruence).
  simpl is_null. cbv iota. simpl w_mem.
  set (junk := w_junk_f64 w <$> seq 0 (cols M)).
  assert (Hjunk : length junk = cols M).
  { unfold junk. by rewrite length_fmap, length_seq. }
  rewrite (vec_zero_cells _ lc 0 (cols M) [] junk []);
    [|rewrite app_nil_r; apply lookup_insert_eq|done|done].
  simpl. rewrite app_nil_r, insert_insert_eq.
  rewrite (centroid_loop M lc l o (rows M) 0 _ pre xs post
             (replicate (cols M) s_zero) Hne HM);
    [|by rewrite lookup_insert_ne|lia|done|apply lookup_insert_eq
     |by rewrite length_replicate].
  simpl. rewrite insert_insert_eq.
  set (csum := foldl _ _ _).
  assert (Hcsum : length csum = cols M).
  { apply length_foldl_zip_add; [by rewrite length_replicate|].
    by apply Forall_chunks. }
  rewrite (vec_scale_cells _ lc 0 (cols M) [] csum []);
    [|rewrite app_nil_r; apply lookup_insert_eq|done|done].
  simpl. rewrite app_nil_r, insert_insert_eq.
  set (c := (fun x => _) <$> csum).
  assert (Hcen : c = centroid_of (cols M) (chunks (cols M) (rows M) xs)).
  { unfold c, centroid_of. by rewrite length_chunks. }
  assert (Hclen : length c = cols M) by (unfold c; by rewrite length_fmap).
  rewrite (vec_norm_cells _ lc 0 (cols M) [] c []);
    [|rewrite app_nil_r; apply lookup_insert_eq|done|done].
  simpl.
  rewrite (cosine_loop M lc l o c _ _ (rows M) 0 pre xs post s_zero HM);
    [|by rewrite lookup_insert_ne|lia|done|apply lookup_insert_eq|done].
  simpl. rewrite lookup_insert_eq. simpl.
  rewrite delete_insert_id by done.
  unfold coherence_of. rewrite length_chunks, <- Hcen. done.
Qed.

Lemma coherence_empty (f : hil_field_t) (w : world T) :
  matrix_empty (coordinates f) = true ->
  hil_field_coherence (Some f) w = Ok (s_zero, w).
Proof. intros He. unfold hil_field_coherence. by rewrite He. Qed.

End Coherence.

Section ExactSmallCoherence.
Local Open Scope R_scope.
Implicit Types (v : list R).

Lemma clamp_min_below (x m : R) : x < m -> hil_clamp_min x m = m.
Proof. intros Hlt. unfold hil_clamp_min. simpl. by rewrite Rltb_true. Qed.

Lemma count_const {A} (g : A -> R) (c : R) (l : list A) : forall a : R,
  (forall x, x ∈ l -> g x = c) ->
  foldl (fun s x => s + g x) a l = a + INR (length l) * c.
Proof.
  induction l as [|x l IH]; intros a Hg.
  - simpl. lra.
  - cbn [foldl]. rewrite IH by (intros y Hy; apply Hg; by right).
    rewrite (Hg x) by by left. rewrite length_cons. rewrite S_INR. lra.
Qed.

(** The mean cosine of [k] copies of a row of norm below [EPS]: both norms
    are clamped to [EPS]. *)
Lemma coherence_of_small_copies v k :
  (0 < k)%nat -> norm_list v < s_eps ->
  coherence_of (length v) (replicate k v) = sum_sq v / (s_eps * s_eps)
  /\ 0 <= sum_sq v / (s_eps * s_eps) < 1.
Proof.
  intros Hk Hn. pose proof eps_pos as He.
  pose proof (sum_sq_nonneg v) as HS.
  split.
  - unfold coherence_of. rewrite centroid_of_copies by done.
    rewrite clamp_min_below by done.
    change (@s_zero R real_scalar) with 0.
    change (@s_add R real_scalar) with Rplus.
    change (@s_div R real_scalar) with Rdiv.
    rewrite (count_const (cosine_to v s_eps) (sum_sq v / (s_eps * s_eps))).
    + rewrite length_replicate. simpl.
      assert (0 < INR k) by (apply lt_0_INR; lia). field. lra.
    + intros x Hx. apply elem_of_replicate in Hx as [-> _].
      unfold cosine_to. rewrite clamp_min_below by done.
      by rewrite dot_list_self.
  - assert (Hlt : sum_sq v < s_eps * s_eps).
    { unfold norm_list in Hn.
      change (@s_sqrt R real_scalar) with R_sqrt.sqrt in Hn.
      rewrite <- (sqrt_sqrt (sum_sq v)) by done.
      pose proof (sqrt_pos (sum_sq v)).
      apply Rmult_le_0_lt_compat; lra. }
    assert (Hee : 0 < s_eps * s_eps) by (apply Rmult_lt_0_compat; lra).
    split.
    + apply Rmult_le_pos; [lra|]. left. by apply Rinv_0_lt_compat.
    + apply (Rmult_lt_reg_r (s_eps * s_eps)); [done|].
      unfold Rdiv. rewrite Rmult_assoc, Rinv_l by lra. lra.
Qed.

End ExactSmallCoherence.

(** C5, as stated, fails on rows of norm below [EPS]: two identical zero rows
    have coherence 0 in binary64.  It also fails in binary64 on rows whose
    squares overflow: two identical rows (1e200, 1e200) have coherence NaN. *)
Lemma coherence_identical_rows_not_one :
  (chunks 3 2 [0; 0; 0; 0; 0; 0]%float = [[0; 0; 0]; [0; 0; 0]]%float
   /\ hil_field_coherence (Some zero_rows_field) zero_rows_world
      = Ok (0%float, zero_rows_world)
   /\ (PrimFloat.abs (0 - 1) <? 0.5)%float = false)
  /\ (chunks 2 2 [1e200; 1e200; 1e200; 1e200]%float
      = [[1e200; 1e200]; [1e200; 1e200]]%float
      /\ hil_field_coherence (Some huge_rows_field) huge_rows_world
         = Ok (nan, huge_rows_world)
      /\ (PrimFloat.abs (nan - 1) <? 0.5)%float = false).
Proof. repeat split; vm_compute; reflexivity. Qed.

(** C5: in exact arithmetic, take a field of at least one row and one column
    whose coordinates are the cells of a live array, with [8 * cols] within
    the range of [size_t], and whose rows are all the same row [v]; when the
    allocation of the centroid is granted, its coherence is 1 if the norm of
    [v] is at least [EPS], and [|v|^2 / EPS^2], which is below 1, if the norm
    of [v] is below [EPS].  For every scalar type the coherence of an absent
    field and of an empty field is 0. *)
Theorem coherence_identical_rows :
  (forall (f : hil_field_t) (w : world R) (v : list R),
      field_cells (w_mem w) f (concat (replicate (rows (coordinates f)) v)) ->
      length v = cols (coordinates f) ->
      0 < rows (coordinates f) -> 0 < cols (coordinates f) ->
      fits_size_t (8 * cols (coordinates f)) ->
      granted (w_grants w) = true ->
      (s_eps <= norm_list v)%R ->
      hil_field_coherence (Some f) w
      = Ok (1%R, set_grants w (tail (w_grants w))))
  /\ (forall (f : hil_field_t) (w : world R) (v : list R),
      field_cells (w_mem w) f (concat (replicate (rows (coordinates f)) v)) ->
      length v = cols (coordinates f) ->
      0 < rows (coordinates f) -> 0 < cols (coordinates f) ->
      fits_size_t (8 * cols (coordinates f)) ->
      granted (w_grants w) = true ->
      (norm_list v < s_eps)%R ->
      hil_field_coherence (Some f) w
      = Ok ((sum_sq v / (s_eps * s_eps))%R, set_grants w (tail (w_grants w)))
      /\ (0 <= sum_sq v / (s_eps * s_eps) < 1)%R)
  /\ (forall (T : Type) (SC : Scalar T) (w : world T),
      hil_field_coherence None w = Ok (s_zero, w))
  /\ (forall (T : Type) (SC : Scalar T) (f : hil_field_t) (w : world T),
      matrix_empty (coordinates f) = true ->
      hil_field_coherence (Some f) w = Ok (s_zero, w)).
Proof.
  split; [|split; [|split]].
  - intros f w v Hcells Hv Hr Hc Hfit Hgr Hn.
    rewrite (coherence_run f w _ Hcells Hr Hc Hfit). rewrite Hgr.
    rewrite <- Hv.
    rewrite <- (length_replicate (rows (coordinates f)) v) at 1.
    rewrite chunks_concat by (apply Forall_replicate; done).
    rewrite coherence_of_copies by done. done.
  - intros f w v Hcells Hv Hr Hc Hfit Hgr Hn.
    destruct (coherence_of_small_copies v (rows (coordinates f)) Hr Hn)
      as [Hval Hrange].
    split; [|done].
    rewrite (coherence_run f w _ Hcells Hr Hc Hfit). rewrite Hgr.
    rewrite <- Hv.
    rewrite <- (length_replicate (rows (coordinates f)) v) at 1.
    rewrite chunks_concat by (apply Forall_replicate; done).
    by rewrite Hval.
  - done.
  - intros T SC f w He. by apply coherence_empty.
Qed.

Lemma coherence_identical_rows_witness :
  hil_field_coherence (Some exact_rows_field) exact_rows_world
  = Ok (1%R, exact_rows_world)
  /\ hil_field_coherence (Some exact_rows_field) exact_zero_rows_world
     = Ok ((sum_sq [0; 0] / (s_eps * s_eps))%R, exact_zero_rows_world)
  /\ (0 <= sum_sq [0; 0] / (s_eps * s_eps) < 1)%R.
Proof.
  destruct coherence_identical_rows as (Hone & Hsmall & _).
  split.
  - apply (Hone exact_rows_field exact_rows_world [3; 4]%R).
    + exists 1%positive, 0, [], [].
      split; [reflexivity|]. split; [reflexivity|]. split; reflexivity.
    + reflexivity.
    + simpl. lia.
    + simpl. lia.
    + vm_compute. reflexivity.
    + reflexivity.
    + unfold norm_list, sum_sq. simpl.
      replace (0 + 3 * 3 + 4 * 4)%R with (5 * 5)%R by lra.
      rewrite sqrt_square by lra. lra.
  - apply (Hsmall exact_rows_field exact_zero_rows_world [0; 0]%R).
    + exists 1%positive, 0, [], [].
      split; [reflexivity|]. split; [reflexivity|]. split; reflexivity.
    + reflexivity.
    + simpl. lia.
    + simpl. lia.
    + vm_compute. reflexivity.
    + reflexivity.
    + unfold norm_list, sum_sq. simpl.
      replace (0 + 0 * 0 + 0 * 0)%R with 0%R by lra.
      rewrite sqrt_0. lra.
Defined.

(* ====================================================================== *)
(** * Perturbation *)

Section Perturb.
Context {T : Type} {SC : Scalar T}.
Implicit Types (m : memory T) (row pre post xs : list T).

Lemma land_1_even idx : (Nat.land idx 1 =? 0) = Nat.even idx.
Proof.
  change 1 with (Nat.ones 1) at 1. rewrite Nat.land_ones. simpl (2 ^ 1).
  destruct (Nat.even idx) eqn:E.
  - apply Nat.even_spec in E as [k ->]. apply Nat.eqb_eq. rewrite Nat.mul_comm. apply Nat.Div0.mod_mul.
  - apply Nat.eqb_neq. intros Hz.
    assert (Nat.even idx = true); [|congruence].
    apply Nat.even_spec. exists (idx / 2).
    pose proof (Nat.div_mod_eq idx 2). lia.
Qed.

Lemma hil_det_sign_spec idx : hil_det_sign idx = det_sign_spec (T := T) idx.
Proof.
  unfold hil_det_sign, det_sign_spec. rewrite land_1_even.
  by destruct (Nat.even idx).
Qed.

Lemma perturb_row_cells M epsilon r m l o pre row post :
  data M = Some (l, o) ->
  m !! l = Some (F64 (pre ++ row ++ post)) ->
  length pre = o + r * cols M -> length row = cols M ->
  perturb_row M epsilon r m
  = Ok (<[l := F64 (pre ++ renormalize (shift_row epsilon (cols M) r row) ++ post)]> m).
Proof.
  intros HM Hl Hpre Hrow. unfold perturb_row. rewrite HM. simpl ptr_add.
  rewrite (map_cells m l (o + r * cols M) (cols M) pre row post
             (fun c x => s_add x (s_mul epsilon (hil_det_sign (r * cols M + c)))))
    by done.
  simpl.
  assert (Hshift : imap (fun c x => s_add x (s_mul epsilon
                           (hil_det_sign (r * cols M + c)))) row
                   = shift_row epsilon (cols M) r row).
  { unfold shift_row. apply imap_ext. intros c x _. simpl.
    by rewrite hil_det_sign_spec. }
  rewrite Hshift.
  set (row1 := shift_row epsilon (cols M) r row).
  assert (Hlen1 : length row1 = cols M).
  { unfold row1, shift_row. by rewrite length_imap. }
  rewrite (vec_norm_cells _ l (o + r * cols M) (cols M) pre row1 post);
    [|apply lookup_insert_eq|done|done].
  simpl. unfold renormalize, HIL_EPS.
  destruct (s_ltb s_eps (norm_list row1)); [|done].
  rewrite (vec_scale_cells _ l (o + r * cols M) (cols M) pre row1 post);
    [|apply lookup_insert_eq|done|done].
  by rewrite insert_insert_eq.
Qed.

Lemma perturb_rows_cells M epsilon l o cnt : forall r m pre xs post,
  data M = Some (l, o) ->
  m !! l = Some (F64 (pre ++ xs ++ post)) ->
  length pre = o + r * cols M -> length xs = cnt * cols M ->
  for_range r cnt (perturb_row M epsilon) m
  = Ok (<[l := F64 (pre ++ perturb_spec epsilon (cols M) r cnt xs ++ post)]> m).
Proof.
  induction cnt as [|k IH]; intros r m pre xs post HM Hl Hpre Hxs.
  - simpl. destruct xs; [|done]. by rewrite insert_id.
  - simpl in *.
    rewrite <- (take_drop (cols M) xs) in Hl. rewrite <- (assoc_L (++)) in Hl.
    rewrite (perturb_row_cells M epsilon r m l o pre _ _ HM Hl Hpre)
      by (rewrite length_take; lia).
    simpl.
    set (row1 := renormalize _).
    assert (Hlen1 : length row1 = cols M).
    { unfold row1, renormalize, shift_row.
      destruct (s_ltb _ _); rewrite ?length_fmap, length_imap, length_take; lia. }
    rewrite (IH (S r) _ (pre ++ row1) (drop (cols M) xs) post HM).
    + rewrite insert_insert_eq. by rewrite <- !(assoc_L (++)).
    + rewrite lookup_insert_eq. by rewrite <- !(assoc_L (++)).
    + rewrite length_app. simpl. lia.
    + rewrite length_drop. lia.
Qed.

Lemma length_renormalize row : length (renormalize row) = length row.
Proof. unfold renormalize. destruct (s_ltb _ _); by rewrite ?length_fmap. Qed.

Lemma length_perturb_spec epsilon cols cnt : forall r xs,
  length xs = cnt * cols ->
  length (perturb_spec epsilon cols r cnt xs) = cnt * cols.
Proof.
  induction cnt as [|k IH]; intros r xs Hxs; simpl in *; [done|].
  rewrite length_app, length_renormalize. unfold shift_row.
  rewrite length_imap, length_take, IH by (rewrite length_drop; lia). lia.
Qed.

Lemma perturb_run m (f : hil_field_t) epsilon xs :
  field_cells m f xs ->
  0 < rows (coordinates f) -> 0 < cols (coordinates f) ->
  exists l o pre post,
    data (coordinates f) = Some (l, o)
    /\ m !! l = Some (F64 (pre ++ xs ++ post)) /\ length pre = o
    /\ hil_field_perturb m (Some f) epsilon
       = Ok (<[l := F64 (pre ++ perturb_spec epsilon (cols (coordinates f)) 0
                                  (rows (coordinates f)) xs ++ post)]> m).
Proof.
  intros (l & o & pre & post & HM & Hl & Hpre & Hxs) Hr Hc.
  exists l, o, pre, post. repeat split; try done.
  unfold hil_field_perturb, matrix_empty. rewrite HM. simpl is_null.
  rewrite !bool_decide_eq_false_2 by lia. simpl.
  apply (perturb_rows_cells (coordinates f) epsilon l o); [done|done|lia|done].
Qed.

End Perturb.

(** C8, as stated, fails in binary64 on rows whose squares overflow: with
    [epsilon = 0] the rows (1e200, 1e200) have the computed norm infinity,
    which exceeds [EPS], and are rescaled to (0, 0), of norm 0 and not 1. *)
Lemma perturb_huge_rows_not_unit :
  hil_field_perturb (w_mem huge_rows_world) (Some huge_rows_field) 0%float
  = Ok (<[1%positive := F64 [0; 0; 0; 0]%float]> (w_mem huge_rows_world))
  /\ hil_vec_norm (w_mem huge_rows_world) (Some (1%positive, 0)) 2
     = Ok infinity
  /\ s_ltb (s_eps : float) infinity = true
  /\ norm_list [0; 0]%float = 0%float.
Proof. repeat split; vm_compute; reflexivity. Qed.

(** C8: [hil_field_perturb] on a field of at least one row and one column
    leaves in the cells what the specification says: [epsilon * det_sign idx]
    is added to the cell of flattened index [idx = row * cols + col], then the
    row is scaled by the inverse of its norm when that norm exceeds [EPS] and
    left as it is otherwise; cells outside the field keep their values.  For
    an absent or empty field the memory is unchanged.  [hil_det_sign] is 1 at
    an even index and -1 at an odd one, and in exact arithmetic a rescaled row
    has norm 1. *)
Theorem perturb_refines_spec :
  (forall (T : Type) (SC : Scalar T) (m : memory T) (f : hil_field_t)
          (epsilon : T) l o pre xs post,
      data (coordinates f) = Some (l, o) ->
      0 < rows (coordinates f) -> 0 < cols (coordinates f) ->
      m !! l = Some (F64 (pre ++ xs ++ post)) ->
      length pre = o ->
      length xs = rows (coordinates f) * cols (coordinates f) ->
      hil_field_perturb m (Some f) epsilon
      = Ok (<[l := F64 (pre ++ perturb_spec epsilon (cols (coordinates f)) 0
                                 (rows (coordinates f)) xs ++ post)]> m))
  /\ (forall (T : Type) (SC : Scalar T) (m : memory T) (epsilon : T),
      hil_field_perturb m None epsilon = Ok m)
  /\ (forall (T : Type) (SC : Scalar T) (m : memory T) (f : hil_field_t)
             (epsilon : T),
      matrix_empty (coordinates f) = true ->
      hil_field_perturb m (Some f) epsilon = Ok m)
  /\ (forall (T : Type) (SC : Scalar T) (idx : nat),
      hil_det_sign idx = if Nat.even idx then s_one else s_opp (s_one : T))
  /\ (forall row : list R,
      (s_eps < norm_list row)%R -> norm_list (renormalize row) = 1%R).
Proof.
  split; [|split; [|split; [|split]]].
  - intros T SC m f epsilon l o pre xs post HM Hr Hc Hl Hpre Hxs.
    unfold hil_field_perturb, matrix_empty. rewrite HM. simpl is_null.
    rewrite !bool_decide_eq_false_2 by lia. simpl.
    apply (perturb_rows_cells (coordinates f) epsilon l o); [done|done|lia|done].
  - done.
  - intros T SC m f epsilon He. unfold hil_field_perturb. by rewrite He.
  - intros T SC idx. apply hil_det_sign_spec.
  - apply renormalize_unit.
Qed.

Lemma perturb_refines_spec_witness :
  hil_field_perturb demo_field_memory (Some demo_field) 0.5%float
  = Ok (<[1%positive :=
            F64 (perturb_spec 0.5%float 3 0 2 [1; 2; 3; 1; 2; 4]%float)]>
          demo_field_memory).
Proof.
  destruct perturb_refines_spec as (Hrun & _).
  apply (Hrun float float_scalar demo_field_memory demo_field 0.5%float
           1%positive 0 [] [1; 2; 3; 1; 2; 4]%float []).
  - reflexivity.
  - simpl. lia.
  - simpl. lia.
  - reflexivity.
  - reflexivity.
  - reflexivity.
Defined.

(* ====================================================================== *)
(** * Stability *)

Section Stability.
Context {T : Type} {SC : Scalar T}.
Implicit Types (m : memory T) (row pre post xs : list T).

Lemma copy_cells row : forall pre post pre' row' post' o o' lo,
  length pre = o + lo -> length pre' = o' + lo -> length row' = length row ->
  for_range lo (length row)
    (fun i b => x ← aget (pre ++ row ++ post) (o + i); aset b (o' + i) x)
    (pre' ++ row' ++ post')
  = Ok (pre' ++ row ++ post').
Proof.
  induction row as [|x row IH]; intros pre post pre' row' post' o o' lo H1 H2 H3.
  - by destruct row'.
  - destruct row' as [|y row']; [done|]. simpl in H3. simpl.
    rewrite aget_middle by done. simpl.
    rewrite aset_lt by (rewrite !length_app; simpl; lia). simpl.
    rewrite insert_app_r_alt by lia.
    replace (o' + lo - length pre') with 0 by lia. simpl.
    specialize (IH (pre ++ [x]) post (pre' ++ [x]) row' post' o o' (S lo)).
    rewrite <- !(assoc_L (++)) in IH. simpl in IH.
    apply IH; rewrite ?length_app; simpl; lia.
Qed.

Lemma memcpy_cells m l o pre row post l' o' pre' row' post' bytes :
  l' <> l ->
  m !! l = Some (F64 (pre ++ row ++ post)) -> length pre = o ->
  m !! l' = Some (F64 (pre' ++ row' ++ post')) -> length pre' = o' ->
  length row' = length row -> bytes / 8 = length row ->
  memcpy_f64 m (Some (l', o')) (Some (l, o)) bytes
  = Ok (<[l' := F64 (pre' ++ row ++ post')]> m).
Proof.
  intros Hne Hl Hpre Hl' Hpre' Hlen Hbytes. unfold memcpy_f64. rewrite Hbytes.
  rewrite (for_range_block
             (fun m => m !! l = Some (F64 (pre ++ row ++ post))) l'
             (fun i b => x ← aget (pre ++ row ++ post) (o + i); aset b (o' + i) x))
    with (blk := pre' ++ row' ++ post'); [| | |done|done].
  - rewrite (copy_cells row pre post pre' row' post' o o' 0) by lia. done.
  - intros m' blk Hm'. by rewrite lookup_insert_ne.
  - intros i m' blk Hm'2 Hm'. unfold read_f64, write_f64. rewrite Hm', Hm'2.
    destruct (aget _ (o + i)); simpl; [|done..].
    destruct (aset blk _ _); done.
Qed.

Lemma set_grants_own (w : world T) : set_grants w (w_grants w) = w.
Proof. by destruct w. Qed.

(** [hil_epistemic_stability] on a field with coordinates: the value, and
    the world it leaves, which differs from the one it found in the pending
    answers of the allocator only. *)
Lemma stability_run (f : hil_field_t) (graph : option hil_graph_t)
  (w : world T) xs :
  field_cells (w_mem w) f xs ->
  0 < rows (coordinates f) -> 0 < cols (coordinates f) ->
  fits_size_t (8 * (rows (coordinates f) * cols (coordinates f))) ->
  hil_epistemic_stability (Some f) graph w
  = Ok (stability_of (rows (coordinates f)) (cols (coordinates f)) xs
          (w_grants w),
        set_grants w (stability_grants (w_grants w))).
Proof.
  intros Hcells Hr Hc Hfit.
  assert (Hfitc : fits_size_t (8 * cols (coordinates f))).
  { eapply fits_size_t_le; [|exact Hfit]. nia. }
  unfold hil_epistemic_stability.
  rewrite (coherence_run f w xs) by done. world_simpl.
  destruct Hcells as (l & o & pre & post & HM & Hl & Hpre & Hxs).
  rewrite (matrix_empty_false _ l o) by done.
  unfold stability_of, stability_grants.
  destruct w as [m gs jf ji]. world_simpl. cbn [w_mem] in Hl.
  set (M := coordinates f) in *.
  unfold malloc_f64. world_simpl.
  destruct (granted (tail gs)); [|done].
  assert (Hbytes : size_mul (size_mul 8 (rows M)) (cols M) / 8 = rows M * cols M).
  { rewrite (size_mul_small 8 (rows M))
      by (eapply fits_size_t_le; [|exact Hfit]; nia).
    rewrite size_mul_small by (eapply fits_size_t_le; [|exact Hfit]; nia).
    rewrite <- Nat.mul_assoc, Nat.mul_comm, Nat.div_mul by done. done. }
  rewrite Hbytes.
  set (lt := fresh (dom m)).
  assert (Hfresh : m !! lt = None) by apply fresh_block_None.
  assert (Hne : lt <> l) by (intros ->; congruence).
  set (junk := jf <$> seq 0 (rows M * cols M)).
  assert (Hjunk : length junk = rows M * cols M).
  { unfold junk. by rewrite length_fmap, length_seq. }
  rewrite HM. world_simpl.
  rewrite (memcpy_cells _ l o pre xs post lt 0 [] junk [] _ Hne);
    [|by rewrite lookup_insert_ne
     |done
     |rewrite app_nil_r; apply lookup_insert_eq
     |done|lia|lia].
  world_simpl. rewrite app_nil_l, app_nil_r, insert_insert_eq.
  set (tmp := Field (Matrix (Some (lt, 0)) (rows M) (cols M))).
  destruct (perturb_run (<[lt := F64 xs]> m) tmp s_step xs)
    as (l' & o' & pre' & post' & Htmp & Hl' & Hpre' & Hrun); [|done|done|].
  { exists lt, 0, [], []. rewrite app_nil_r.
    repeat split; [apply lookup_insert_eq|done]. }
  cbn in Htmp. injection Htmp as <- <-. destruct pre'; [|done].
  rewrite lookup_insert_eq in Hl'. injection Hl' as Hl'.
  assert (post' = []) as ->.
  { apply (f_equal length) in Hl'. cbn [app] in Hl'. rewrite length_app in Hl'.
    destruct post'; [done|simpl in Hl'; lia]. }
  rewrite Hrun. world_simpl. rewrite app_nil_l, app_nil_r, insert_insert_eq.
  set (P := perturb_spec s_step (cols (coordinates tmp)) 0 (rows (coordinates tmp)) xs).
  rewrite (coherence_run tmp _ P); [| |done|done|done].
  2:{ exists lt, 0, [], []. rewrite app_nil_r. world_simpl.
      repeat split; [apply lookup_insert_eq|].
      unfold P. by apply length_perturb_spec. }
  world_simpl. unfold hil_field_free, hil_matrix_free, free.
  cbn [coordinates data tmp]. rewrite lookup_insert_eq. world_simpl.
  rewrite delete_insert_id by done. done.
Qed.

Lemma stability_empty (f : hil_field_t) (graph : option hil_graph_t) (w : world T) :
  matrix_empty (coordinates f) = true ->
  hil_epistemic_stability (Some f) graph w = Ok (s_zero, w).
Proof.
  intros He. unfold hil_epistemic_stability.
  rewrite coherence_empty by done. simpl. by rewrite He.
Qed.

(** On a field that may be passed, the call returns and leaves the memory as
    it found it. *)
Lemma stability_keeps_memory (field : option hil_field_t)
  (graph : option hil_graph_t) (w : world T) :
  field_ok (w_mem w) field ->
  exists r gs, hil_epistemic_stability field graph w = Ok (r, set_grants w gs).
Proof.
  destruct field as [f|]; cbn [field_ok].
  - intros [He|(Hr & Hc & Hfit & xs & Hcells)].
    + exists s_zero, (w_grants w). rewrite set_grants_own.
      by apply stability_empty.
    + eexists _, _. by apply (stability_run f graph w xs).
  - intros _. exists s_zero, (w_grants w). by rewrite set_grants_own.
Qed.

End Stability.

Lemma demo_field_ok : field_ok (w_mem demo_field_world) (Some demo_field).
Proof.
  right. split; [simpl; lia|]. split; [simpl; lia|].
  split; [vm_compute; reflexivity|].
  exists [1; 2; 3; 1; 2; 4]%float, 1%positive, 0, [], [].
  split; [reflexivity|]. split; [reflexivity|]. split; reflexivity.
Defined.

(** C6: for every field whose coordinates are live cells, and every graph,
    [hil_epistemic_stability] ends with the memory it started from: every
    coordinate of the field, and with it [rows] and [cols], is as before the
    call, the copy it perturbs being released before it returns. *)
Theorem stability_leaves_memory_unchanged (T : Type) (SC : Scalar T)
  (field : option hil_field_t) (graph : option hil_graph_t) (w : world T) :
  field_ok (w_mem w) field ->
  exists r w',
    hil_epistemic_stability field graph w = Ok (r, w')
    /\ w_mem w' = w_mem w.
Proof.
  intros Hok.
  destruct (stability_keeps_memory field graph w Hok) as (r & gs & Hrun).
  exists r, (set_grants w gs). done.
Qed.

Lemma stability_leaves_memory_unchanged_witness :
  exists r w',
    hil_epistemic_stability (Some demo_field) (Some triangle_graph)
      demo_field_world = Ok (r, w')
    /\ w_mem w' = demo_field_memory.
Proof.
  exact (stability_leaves_memory_unchanged float float_scalar (Some demo_field)
           (Some triangle_graph) demo_field_world demo_field_ok).
Defined.

Section Repeat.
Context {T : Type} {SC : Scalar T}.

Lemma stability_of_answers r c (xs : list T) gs1 gs2 :
  same_answers 3 gs1 gs2 -> stability_of r c xs gs1 = stability_of r c xs gs2.
Proof.
  intros Hsame. unfold stability_of.
  assert (H0 : granted gs1 = granted gs2) by (apply (Hsame 0); lia).
  assert (H1 : granted (tail gs1) = granted (tail gs2)).
  { specialize (Hsame 1 ltac:(lia)). by destruct gs1, gs2. }
  assert (H2 : granted (tail (tail gs1)) = granted (tail (tail gs2))).
  { specialize (Hsame 2 ltac:(lia)).
    destruct gs1 as [|? [|? ?]], gs2 as [|? [|? ?]]; done. }
  by rewrite H0, H1, H2.
Qed.

(** Two calls on the same coordinates, answered alike by the allocator,
    return the same value, and each leaves its memory as it found it. *)
Lemma stability_repeats (field : option hil_field_t)
  (g1 g2 : option hil_graph_t) (w1 w2 : world T) :
  same_coordinates (w_mem w1) (w_mem w2) field ->
  same_answers 3 (w_grants w1) (w_grants w2) ->
  exists r w1' w2',
    hil_epistemic_stability field g1 w1 = Ok (r, w1')
    /\ hil_epistemic_stability field g2 w2 = Ok (r, w2')
    /\ w_mem w1' = w_mem w1 /\ w_mem w2' = w_mem w2.
Proof.
  intros Hco Hsame. destruct field as [f|]; cbn [same_coordinates] in Hco.
  - destruct Hco as [He|(Hr & Hc & Hfit & xs & Hx1 & Hx2)].
    + exists s_zero, w1, w2. by rewrite !stability_empty.
    + eexists _, _, _.
      rewrite (stability_run f g1 w1 xs) by done.
      rewrite (stability_run f g2 w2 xs) by done.
      rewrite (stability_of_answers _ _ _ _ _ Hsame).
      split; [reflexivity|]. split; [reflexivity|].
      by destruct w1, w2.
  - by exists s_zero, w1, w2.
Qed.

End Repeat.

(** C7, as stated, fails for repeated calls: on the same field, unchanged
    between the calls, a call whose three allocations are granted returns
    21.848201544494295, and the next call, whose first allocation is refused,
    returns 997862.76418767648. *)
Lemma stability_second_call_differs :
  hil_epistemic_stability (Some demo_field) None
    (set_grants demo_field_world [true; true; true; false])
  = Ok (21.848201544494295%float, set_grants demo_field_world [false])
  /\ hil_epistemic_stability (Some demo_field) None
       (set_grants demo_field_world [false])
     = Ok (997862.76418767648%float, demo_field_world)
  /\ w_mem (set_grants demo_field_world [false]) = w_mem demo_field_world
  /\ (21.848201544494295 =? 997862.76418767648)%float = false.
Proof. repeat split; vm_compute; reflexivity. Qed.

(** C7: for every field and every two graphs, absent ones included,
    [hil_epistemic_stability] gives in any one state the same result with
    either graph.  Two calls, with either graph, in two states in which the
    field is absent, or empty, or has the same coordinates in live cells, and
    in which the allocator answers its next three requests alike, return the
    same value, and each leaves the memory as it found it. *)
Theorem stability_ignores_graph (T : Type) (SC : Scalar T)
  (field : option hil_field_t) (g1 g2 : option hil_graph_t) :
  (forall w : world T,
      hil_epistemic_stability field g1 w = hil_epistemic_stability field g2 w)
  /\ (forall w1 w2 : world T,
      same_coordinates (w_mem w1) (w_mem w2) field ->
      same_answers 3 (w_grants w1) (w_grants w2) ->
      exists r w1' w2',
        hil_epistemic_stability field g1 w1 = Ok (r, w1')
        /\ hil_epistemic_stability field g2 w2 = Ok (r, w2')
        /\ w_mem w1' = w_mem w1 /\ w_mem w2' = w_mem w2).
Proof.
  split; [reflexivity|].
  intros w1 w2. apply stability_repeats.
Qed.

Lemma stability_ignores_graph_witness :
  hil_epistemic_stability (Some demo_field) (Some triangle_graph) demo_field_world
  = hil_epistemic_stability (Some demo_field) None demo_field_world
  /\ exists r w1' w2',
       hil_epistemic_stability (Some demo_field) (Some triangle_graph)
         demo_field_world = Ok (r, w1')
       /\ hil_epistemic_stability (Some demo_field) None later_field_world
          = Ok (r, w2')
       /\ w_mem w1' = w_mem demo_field_world
       /\ w_mem w2' = w_mem later_field_world.
Proof.
  destruct (stability_ignores_graph float float_scalar (Some demo_field)
              (Some triangle_graph) None) as [Heq Hagain].
  split; [exact (Heq demo_field_world)|].
  apply (Hagain demo_field_world later_field_world).
  - right. split; [simpl; lia|]. split; [simpl; lia|].
    split; [vm_compute; reflexivity|].
    exists [1; 2; 3; 1; 2; 4]%float. split.
    + exists 1%positive, 0, [], [].
      split; [reflexivity|]. split; [reflexivity|]. split; reflexivity.
    + exists 1%positive, 0, [], [].
      split; [reflexivity|]. split; [reflexivity|]. split; reflexivity.
  - intros k Hk. destruct k as [|[|[|k]]]; [reflexivity..|lia].
Defined.

(* ====================================================================== *)
(** * Weighted degrees *)

Section Degree.
Context {T : Type} {SC : Scalar T}.
Implicit Types (m : memory T) (deg pre post ws : list T) (srcs dsts : list nat).

Lemma length_add_at i w deg : length (add_at i w deg) = length deg.
Proof. unfold add_at. destruct (deg !! i); by rewrite ?length_insert. Qed.

Lemma length_accumulate srcs : forall dsts ws deg,
  length (accumulate srcs dsts ws deg) = length deg.
Proof.
  induction srcs as [|s srcs IH]; intros [|d dsts] [|w ws] deg; simpl; try done.
  by rewrite IH, !length_add_at.
Qed.

(** [x = deg[i]; deg[i] = x + w] on the cells [deg] between [pre] and [post]. *)
Lemma bump_cell pre deg post o i w :
  length pre = o -> i < length deg ->
  (x ← aget (pre ++ deg ++ post) (o + i);
   aset (pre ++ deg ++ post) (o + i) (s_add x w))
  = Ok (pre ++ add_at i w deg ++ post).
Proof.
  intros Hpre Hi. destruct (lookup_lt_is_Some_2 deg i Hi) as [x Hx].
  unfold aget. rewrite lookup_app_r by lia.
  replace (o + i - length pre) with i by lia.
  rewrite lookup_app_l by done. rewrite Hx. simpl.
  rewrite aset_lt by (rewrite !length_app; lia).
  rewrite insert_app_r_alt by lia.
  replace (o + i - length pre) with i by lia.
  rewrite insert_app_l by done. unfold add_at. by rewrite Hx.
Qed.

(** The edge loop on the cells of the output block. *)
Lemma accumulate_cells n pre post oo srcs : forall dsts ws deg
    ps qs pd qd pw qw os od ow lo,
  length pre = oo -> length deg = n ->
  length dsts = length srcs -> length ws = length srcs ->
  length ps = os + lo -> length pd = od + lo -> length pw = ow + lo ->
  Forall (fun s => s < n) srcs -> Forall (fun d => d < n) dsts ->
  for_range lo (length srcs)
    (fun e b =>
       s ← aget (ps ++ srcs ++ qs) (os + e);
       d ← aget (pd ++ dsts ++ qd) (od + e);
       w ← aget (pw ++ ws ++ qw) (ow + e);
       x ← aget b (oo + s);
       b ← aset b (oo + s) (s_add x w);
       y ← aget b (oo + d);
       aset b (oo + d) (s_add y w))
    (pre ++ deg ++ post)
  = Ok (pre ++ accumulate srcs dsts ws deg ++ post).
Proof.
  induction srcs as [|s srcs IH];
    intros dsts ws deg ps qs pd qd pw qw os od ow lo
           Hpre Hdeg Hld Hlw Hps Hpd Hpw Hs Hd.
  - done.
  - destruct dsts as [|d dsts]; [done|]. destruct ws as [|w ws]; [done|].
    apply Forall_cons in Hs as [Hs0 Hs]. apply Forall_cons in Hd as [Hd0 Hd].
    simpl in Hld, Hlw. cbn [length for_range accumulate].
    cbn [app]. rewrite !aget_middle by done. cbn [mbind result_bind].
    pose proof (bump_cell pre deg post oo s w Hpre ltac:(lia)) as E1.
    apply bind_Ok in E1 as (x & Hx & E1).
    rewrite Hx. cbn [mbind result_bind]. rewrite E1. cbn [mbind result_bind].
    pose proof (bump_cell pre (add_at s w deg) post oo d w Hpre
                  ltac:(rewrite length_add_at; lia)) as E2.
    apply bind_Ok in E2 as (y & Hy & E2).
    rewrite Hy. cbn [mbind result_bind]. rewrite E2. cbn [mbind result_bind].
    specialize (IH dsts ws (add_at d w (add_at s w deg))
                  (ps ++ [s]) qs (pd ++ [d]) qd (pw ++ [w]) qw os od ow (S lo)).
    rewrite <- !(assoc_L (++)) in IH. cbn [app] in IH.
    apply IH; rewrite ?length_app, ?length_add_at; simpl; try lia; done.
Qed.

Lemma read_u32_block m l o blk i :
  m !! l = Some (U32 blk) -> read_u32 m (Some (l, o)) i = aget blk (o + i).
Proof. intros Hl. unfold read_u32. by rewrite Hl. Qed.

(** [hil_graph_degree] leaves the weighted degrees in the output cells,
    whatever they held. *)
Lemma degree_run m (g : hil_graph_t) srcs dsts ws lo oo pre old post :
  u32_cells m (src g) srcs -> u32_cells m (dst g) dsts ->
  f64_cells m (weight g) ws ->
  length srcs = num_edges g -> length dsts = num_edges g ->
  length ws = num_edges g ->
  m !! lo = Some (F64 (pre ++ old ++ post)) -> length pre = oo ->
  length old = num_nodes g ->
  (forall lw ow, weight g = Some (lw, ow) -> lw <> lo) ->
  Forall (fun s => s < num_nodes g) srcs ->
  Forall (fun d => d < num_nodes g) dsts ->
  hil_graph_degree m (Some g) (Some (lo, oo))
  = Ok (<[lo := F64 (pre ++ weighted_degree (num_nodes g) srcs dsts ws ++ post)]> m).
Proof.
  intros (ls & os & ps & qs & Hsp & Hls & Hps) (ld & od & pd & qd & Hdp & Hld & Hpd)
         (lw & ow & pw & qw & Hwp & Hlw & Hpw) Hns Hnd Hnw Hlo Hpre Hold Hsep Hs Hd.
  assert (Hne_w : lw <> lo) by (by eapply Hsep).
  assert (Hne_s : ls <> lo) by (intros ->; congruence).
  assert (Hne_d : ld <> lo) by (intros ->; congruence).
  unfold hil_graph_degree. cbn [is_null].
  change (for_range 0 (num_nodes g) _ m)
    with (hil_vec_zero m (Some (lo, oo)) (num_nodes g)).
  rewrite (vec_zero_cells m lo oo (num_nodes g) pre old post) by done.
  cbn [mbind result_bind].
  rewrite (for_range_block
             (fun m => m !! ls = Some (U32 (ps ++ srcs ++ qs))
                       /\ m !! ld = Some (U32 (pd ++ dsts ++ qd))
                       /\ m !! lw = Some (F64 (pw ++ ws ++ qw))) lo
             (fun e b =>
                s ← aget (ps ++ srcs ++ qs) (os + e);
                d ← aget (pd ++ dsts ++ qd) (od + e);
                w ← aget (pw ++ ws ++ qw) (ow + e);
                x ← aget b (oo + s);
                b ← aset b (oo + s) (s_add x w);
                y ← aget b (oo + d);
                aset b (oo + d) (s_add y w)))
    with (blk := pre ++ replicate (num_nodes g) s_zero ++ post).
  - rewrite <- Hns.
    rewrite (accumulate_cells (num_nodes g) pre post oo srcs dsts ws
               (replicate (num_nodes g) s_zero) ps qs pd qd pw qw os od ow 0);
      try done; try lia.
    + cbn [mbind result_bind]. by rewrite insert_insert_eq.
    + by rewrite length_replicate.
  - intros m' blk (? & ? & ?). by rewrite !lookup_insert_ne.
  - intros e m' blk (Hs' & Hd' & Hw') Hm'. unfold degree_edge.
    rewrite Hsp, Hdp, Hwp.
    rewrite (read_u32_block _ _ _ _ _ Hs'), (read_u32_block _ _ _ _ _ Hd').
    rewrite (read_f64_block _ _ _ _ _ Hw').
    destruct (aget _ (os + e)) as [s| |]; cbn [mbind result_bind]; [|done..].
    destruct (aget _ (od + e)) as [d| |]; cbn [mbind result_bind]; [|done..].
    destruct (aget _ (ow + e)) as [w| |]; cbn [mbind result_bind]; [|done..].
    rewrite (read_f64_block _ _ _ _ _ Hm').
    destruct (aget blk (oo + s)) as [x| |]; cbn [mbind result_bind]; [|done..].
    rewrite (write_f64_block _ _ _ _ _ _ Hm').
    destruct (aset blk (oo + s) _) as [b1| |]; cbn [mbind result_bind]; [|done..].
    rewrite (read_f64_block _ lo oo b1) by apply lookup_insert_eq.
    destruct (aget b1 (oo + d)) as [y| |]; cbn [mbind result_bind]; [|done..].
    rewrite (write_f64_block _ lo oo b1) by apply lookup_insert_eq.
    destruct (aset b1 (oo + d) _) as [b2| |]; cbn [mbind result_bind]; [|done..].
    by rewrite insert_insert_eq.
  - by rewrite !lookup_insert_ne.
  - apply lookup_insert_eq.
Qed.

Lemma cells_read_f64 (m : memory T) p (xs : list T) i x :
  f64_cells m p xs -> xs !! i = Some x -> read_f64 m p i = Ok x.
Proof.
  intros (l & o & pre & post & -> & Hl & Ho) Hi.
  rewrite (read_f64_block _ _ _ _ _ Hl). apply aget_Ok.
  rewrite lookup_app_r by lia. rewrite lookup_app_l.
  - by replace (o + i - length pre) with i by lia.
  - apply lookup_lt_Some in Hi. lia.
Qed.

Lemma cells_read_u32 (m : memory T) p (xs : list nat) i x :
  u32_cells m p xs -> xs !! i = Some x -> read_u32 m p i = Ok x.
Proof.
  intros (l & o & pre & post & -> & Hl & Ho) Hi.
  rewrite (read_u32_block _ _ _ _ _ Hl). apply aget_Ok.
  rewrite lookup_app_r by lia. rewrite lookup_app_l.
  - by replace (o + i - length pre) with i by lia.
  - apply lookup_lt_Some in Hi. lia.
Qed.

Lemma frame_of_lookups {A} (blk xs : list A) o :
  (forall e x, xs !! e = Some x -> blk !! (o + e) = Some x) ->
  xs <> [] ->
  blk = take o blk ++ xs ++ drop (o + length xs) blk /\ length (take o blk) = o.
Proof.
  intros Hread Hne.
  assert (Hlen : o + length xs <= length blk).
  { destruct (lookup_lt_is_Some_2 xs (length xs - 1)) as [x Hx].
    { destruct xs; [done|simpl; lia]. }
    apply Hread, lookup_lt_Some in Hx. lia. }
  split; [|rewrite length_take; lia].
  apply list_eq. intros i.
  destruct (decide (i < o)) as [Hi|Hi].
  { rewrite lookup_app_l by (rewrite length_take; lia).
    by rewrite lookup_take_lt. }
  rewrite lookup_app_r by (rewrite length_take; lia).
  rewrite length_take, Nat.min_l by lia.
  destruct (decide (i - o < length xs)) as [Hx|Hx].
  - rewrite lookup_app_l by done.
    destruct (lookup_lt_is_Some_2 xs (i - o) Hx) as [x Hxi].
    rewrite Hxi. rewrite <- (Hread _ _ Hxi). f_equal. lia.
  - rewrite lookup_app_r by lia. rewrite lookup_drop. f_equal. lia.
Qed.

Lemma stored_u32_cells m p (xs : list nat) :
  (forall e s, xs !! e = Some s -> read_u32 m p e = Ok s) -> xs <> [] ->
  u32_cells m p xs.
Proof.
  intros Hread Hne.
  destruct xs as [|x0 xs']; [done|].
  pose proof (Hread 0 x0 eq_refl) as H0. unfold read_u32 in H0.
  destruct p as [[l o]|]; [|done].
  destruct (m !! l) as [[blk|blk]|] eqn:Hl; try done.
  destruct (frame_of_lookups blk (x0 :: xs') o) as [Heq Hpre]; [|done|].
  { intros e x He. specialize (Hread e x He). unfold read_u32 in Hread.
    rewrite Hl in Hread. by apply aget_Ok. }
  exists l, o, (take o blk), (drop (o + length (x0 :: xs')) blk).
  split; [done|]. split; [by rewrite <- Heq|done].
Qed.

Lemma stored_f64_cells m p (xs : list T) :
  (forall e w, xs !! e = Some w -> read_f64 m p e = Ok w) -> xs <> [] ->
  f64_cells m p xs.
Proof.
  intros Hread Hne.
  destruct xs as [|x0 xs']; [done|].
  pose proof (Hread 0 x0 eq_refl) as H0. unfold read_f64 in H0.
  destruct p as [[l o]|]; [|done].
  destruct (m !! l) as [[blk|blk]|] eqn:Hl; try done.
  destruct (frame_of_lookups blk (x0 :: xs') o) as [Heq Hpre]; [|done|].
  { intros e x He. specialize (Hread e x He). unfold read_f64 in Hread.
    rewrite Hl in Hread. by apply aget_Ok. }
  exists l, o, (take o blk), (drop (o + length (x0 :: xs')) blk).
  split; [done|]. split; [by rewrite <- Heq|done].
Qed.

(** With an edge, the three arrays are live cells; with none, the lists are
    empty. *)
Lemma edges_stored_cases m (g : hil_graph_t) srcs dsts ws :
  edges_stored m g srcs dsts ws ->
  (num_edges g = 0 /\ srcs = [] /\ dsts = [] /\ ws = [])
  \/ (0 < num_edges g /\ u32_cells m (src g) srcs /\ u32_cells m (dst g) dsts
      /\ f64_cells m (weight g) ws).
Proof.
  intros (Hls & Hld & Hlw & Hs & Hd & Hw).
  destruct (decide (num_edges g = 0)) as [Hz|Hnz].
  - left. rewrite Hz in *. split; [done|].
    by destruct srcs, dsts, ws.
  - right. split; [lia|].
    split; [|split].
    + apply stored_u32_cells; [done|]. intros ->. simpl in Hls. lia.
    + apply stored_u32_cells; [done|]. intros ->. simpl in Hld. lia.
    + apply stored_f64_cells; [done|]. intros ->. simpl in Hlw. lia.
Qed.

Lemma cells_edges_stored m (g : hil_graph_t) srcs dsts ws :
  u32_cells m (src g) srcs -> u32_cells m (dst g) dsts ->
  f64_cells m (weight g) ws ->
  length srcs = num_edges g -> length dsts = num_edges g ->
  length ws = num_edges g ->
  edges_stored m g srcs dsts ws.
Proof.
  intros Hs Hd Hw Hls Hld Hlw. repeat split; try done.
  - intros e s He. by eapply cells_read_u32.
  - intros e d He. by eapply cells_read_u32.
  - intros e w He. by eapply cells_read_f64.
Qed.

(** A graph without edges is stored wherever its pointers point. *)
Lemma edgeless_stored m (g : hil_graph_t) :
  num_edges g = 0 -> edges_stored m g [] [] [].
Proof. intros Hz. repeat split; try done. Qed.

(** [hil_graph_degree] on stored edges. *)
Lemma degree_run_stored m (g : hil_graph_t) srcs dsts ws lo oo pre old post :
  edges_stored m g srcs dsts ws ->
  m !! lo = Some (F64 (pre ++ old ++ post)) -> length pre = oo ->
  length old = num_nodes g ->
  (0 < num_edges g -> forall lw ow, weight g = Some (lw, ow) -> lw <> lo) ->
  Forall (fun s => s < num_nodes g) srcs ->
  Forall (fun d => d < num_nodes g) dsts ->
  hil_graph_degree m (Some g) (Some (lo, oo))
  = Ok (<[lo := F64 (pre ++ weighted_degree (num_nodes g) srcs dsts ws ++ post)]> m).
Proof.
  intros Hst Hlo Hpre Hold Hsep Hsr Hdr.
  pose proof Hst as (Hls & Hld & Hlw & _).
  destruct (edges_stored_cases m g srcs dsts ws Hst)
    as [(Hz & -> & -> & ->)|(Hpos & Hs & Hd & Hw)].
  - unfold hil_graph_degree. cbn [is_null].
    change (for_range 0 (num_nodes g) _ m)
      with (hil_vec_zero m (Some (lo, oo)) (num_nodes g)).
    rewrite (vec_zero_cells m lo oo (num_nodes g) pre old post) by done.
    rewrite Hz. reflexivity.
  - apply (degree_run m g srcs dsts ws lo oo pre old post); try done.
    by apply Hsep.
Qed.

End Degree.

Section ExactDegree.
Local Open Scope R_scope.
Implicit Types (deg ws : list R).

Lemma sum_left_from (a : R) (l : list R) : foldl Rplus a l = a + sum_left l.
Proof.
  unfold sum_left. change (@s_add R real_scalar) with Rplus.
  change (@s_zero R real_scalar) with 0.
  revert a. induction l as [|x l IH]; intros a; simpl; [lra|].
  rewrite (IH (a + x)), (IH (0 + x)). lra.
Qed.

Lemma sum_left_cons (x : R) (l : list R) : sum_left (x :: l) = x + sum_left l.
Proof.
  unfold sum_left at 1. change (@s_add R real_scalar) with Rplus.
  change (@s_zero R real_scalar) with 0. simpl. rewrite sum_left_from. lra.
Qed.

Lemma sum_left_nil : sum_left ([] : list R) = 0.
Proof. done. Qed.

Lemma sum_left_zeros n : sum_left (replicate n (0 : R)) = 0.
Proof.
  induction n as [|n IH]; [done|]. cbn [replicate].
  rewrite sum_left_cons, IH. lra.
Qed.

Lemma sum_left_add_at i (w : R) deg :
  (i < length deg)%nat -> sum_left (add_at i w deg) = sum_left deg + w.
Proof.
  revert i. induction deg as [|x deg IH]; intros i Hi; [simpl in Hi; lia|].
  destruct i as [|i].
  - unfold add_at. change ((x :: deg) !! 0%nat) with (Some x).
    cbn [insert list_insert].
    rewrite !sum_left_cons. change (@s_add R real_scalar) with Rplus. lra.
  - assert (Hi' : (i < length deg)%nat) by (simpl in Hi; lia).
    specialize (IH i Hi'). unfold add_at in *.
    change ((x :: deg) !! S i) with (deg !! i).
    destruct (lookup_lt_is_Some_2 deg i Hi') as [y Hy]. rewrite Hy in IH |- *.
    cbn [insert list_insert]. change (list_insert i) with (insert (M:=list R) i).
    rewrite !sum_left_cons. rewrite Rplus_assoc. f_equal. exact IH.
Qed.

Lemma sum_left_accumulate n srcs : forall dsts ws deg,
  length deg = n ->
  length dsts = length srcs -> length ws = length srcs ->
  Forall (fun s => (s < n)%nat) srcs -> Forall (fun d => (d < n)%nat) dsts ->
  sum_left (accumulate srcs dsts ws deg) = sum_left deg + 2 * sum_left ws.
Proof.
  induction srcs as [|s srcs IH]; intros dsts ws deg Hdeg Hld Hlw Hs Hd.
  - destruct ws; [|done]. simpl. rewrite sum_left_nil. lra.
  - destruct dsts as [|d dsts]; [done|]. destruct ws as [|w ws]; [done|].
    apply Forall_cons in Hs as [Hs0 Hs]. apply Forall_cons in Hd as [Hd0 Hd].
    simpl in Hld, Hlw. cbn [accumulate].
    rewrite IH; rewrite ?length_add_at; try done; try lia.
    rewrite !sum_left_add_at by (rewrite ?length_add_at; lia).
    rewrite sum_left_cons. lra.
Qed.

(** In exact arithmetic the degrees sum to twice the weights. *)
Lemma sum_weighted_degree n srcs dsts ws :
  length dsts = length srcs -> length ws = length srcs ->
  Forall (fun s => (s < n)%nat) srcs -> Forall (fun d => (d < n)%nat) dsts ->
  sum_left (weighted_degree n srcs dsts ws) = 2 * sum_left ws.
Proof.
  intros Hld Hlw Hs Hd. unfold weighted_degree.
  rewrite (sum_left_accumulate n) by (done || by rewrite length_replicate).
  change (@s_zero R real_scalar) with 0. rewrite sum_left_zeros. lra.
Qed.

End ExactDegree.

(** C3, as stated, fails in binary64: on the path 0 - 1 - 2 - 3 with weights
    0.1, 0.2, 0.3 the degrees sum to less than twice the weights. *)
Lemma degree_sum_rounds :
  hil_graph_degree path4_memory (Some path4_graph) (Some (4%positive, 0))
  = Ok (<[4%positive :=
            F64 (weighted_degree 4 [0; 1; 2] [1; 2; 3] path4_weights)]>
          path4_memory)
  /\ PrimFloat.ltb
       (sum_left (weighted_degree 4 [0; 1; 2] [1; 2; 3] path4_weights))
       (PrimFloat.mul 2 (sum_left path4_weights)) = true.
Proof. split; vm_compute; reflexivity. Qed.

(** C3: for every graph whose edge arrays can be read over their first
    [num_edges] entries (with no edge they may be [NULL]) and whose edge ends
    are below [num_nodes], and for an output buffer of [num_nodes] cells that,
    when the graph has an edge, lies in another allocation than the weight
    array, [hil_graph_degree] leaves in each cell of the buffer the weighted
    degree of its node, accumulated from zero, whatever the cell held before,
    and touches nothing else; in exact arithmetic these degrees sum to twice
    the sum of the weights. *)
Theorem degree_overwrites_and_sums :
  (forall (T : Type) (SC : Scalar T) (m : memory T) (g : hil_graph_t)
          srcs dsts ws lo oo pre old post,
      edges_stored m g srcs dsts ws ->
      m !! lo = Some (F64 (pre ++ old ++ post)) -> length pre = oo ->
      length old = num_nodes g ->
      (0 < num_edges g ->
       forall lw ow, weight g = Some (lw, ow) -> lw <> lo) ->
      Forall (fun s => s < num_nodes g) srcs ->
      Forall (fun d => d < num_nodes g) dsts ->
      hil_graph_degree m (Some g) (Some (lo, oo))
      = Ok (<[lo := F64 (pre ++ weighted_degree (num_nodes g) srcs dsts ws
                           ++ post)]> m)
      /\ length (weighted_degree (num_nodes g) srcs dsts ws) = num_nodes g)
  /\ (forall (n : nat) (srcs dsts : list nat) (ws : list R),
      length dsts = length srcs -> length ws = length srcs ->
      Forall (fun s => s < n) srcs -> Forall (fun d => d < n) dsts ->
      sum_left (weighted_degree n srcs dsts ws) = (2 * sum_left ws)%R).
Proof.
  split.
  - intros T SC m g srcs dsts ws lo oo pre old post
           Hst Hlo Hpre Hold Hsep Hsr Hdr.
    split; [by eapply degree_run_stored|].
    unfold weighted_degree. by rewrite length_accumulate, length_replicate.
  - intros n srcs dsts ws. apply sum_weighted_degree.
Qed.

Lemma degree_overwrites_and_sums_witness :
  (hil_graph_degree exact_path4_memory (Some path4_graph) (Some (4%positive, 0))
   = Ok (<[4%positive := F64 (weighted_degree 4 [0; 1; 2] [1; 2; 3] [1; 2; 3]%R)]>
           exact_path4_memory)
   /\ sum_left (weighted_degree 4 [0; 1; 2] [1; 2; 3] [1; 2; 3]%R)
      = (2 * sum_left [1; 2; 3])%R)
  /\ hil_graph_degree exact_path4_memory (Some (Graph 4 0 None None None))
       (Some (4%positive, 0))
     = Ok (<[4%positive := F64 [0; 0; 0; 0]%R]> exact_path4_memory).
Proof.
  destruct degree_overwrites_and_sums as [Hrun Hsum].
  split; [split|].
  - apply (Hrun R real_scalar exact_path4_memory path4_graph
             [0; 1; 2] [1; 2; 3] [1; 2; 3]%R 4%positive 0 [] [7; 7; 7; 7]%R []).
    + apply cells_edges_stored; try reflexivity.
      * exists 1%positive, 0, [], []. repeat split; reflexivity.
      * exists 2%positive, 0, [], []. repeat split; reflexivity.
      * exists 3%positive, 0, [], []. repeat split; reflexivity.
    + reflexivity.
    + reflexivity.
    + reflexivity.
    + intros _ lw ow Hw. injection Hw as <- _. discriminate.
    + repeat constructor.
    + repeat constructor.
  - apply Hsum; [reflexivity|reflexivity| |]; repeat constructor.
  - apply (Hrun R real_scalar exact_path4_memory (Graph 4 0 None None None)
             [] [] []%R 4%positive 0 [] [7; 7; 7; 7]%R []).
    + by apply edgeless_stored.
    + reflexivity.
    + reflexivity.
    + reflexivity.
    + simpl. lia.
    + constructor.
    + constructor.
Defined.

(* ====================================================================== *)
(** * Structural entropy *)

Section Entropy.
Context {T : Type} {SC : Scalar T} {ML : MathLib T}.
Implicit Types (m : memory T) (deg pre post ws : list T) (srcs dsts : list nat).

Lemma fold_block {B} (f : B -> T -> B) m l xs (s : B) :
  m !! l = Some (F64 xs) ->
  for_range 0 (length xs)
    (fun i s => x ← read_f64 m (Some (l, 0)) i; Ok (f s x)) s
  = Ok (foldl f s xs).
Proof.
  intros Hl.
  assert (Hl' : m !! l = Some (F64 ([] ++ xs ++ []))) by (by rewrite app_nil_r).
  erewrite for_range_ext.
  2:{ intros i s' _. rewrite (read_f64_block _ _ _ _ _ Hl'). reflexivity. }
  by apply (fold_cells f [] xs [] 0 0).
Qed.

Lemma read_u32_insert_fresh m p e s l b :
  m !! l = None -> read_u32 m p e = Ok s -> read_u32 (<[l := b]> m) p e = Ok s.
Proof.
  intros Hl. unfold read_u32. destruct p as [[l' o]|]; [|done].
  destruct (decide (l' = l)) as [->|Hne]; [by rewrite Hl|].
  by rewrite lookup_insert_ne.
Qed.

Lemma read_f64_insert_fresh m p e x l b :
  m !! l = None -> read_f64 m p e = Ok x -> read_f64 (<[l := b]> m) p e = Ok x.
Proof.
  intros Hl. unfold read_f64. destruct p as [[l' o]|]; [|done].
  destruct (decide (l' = l)) as [->|Hne]; [by rewrite Hl|].
  by rewrite lookup_insert_ne.
Qed.

Lemma edges_stored_insert m (g : hil_graph_t) srcs dsts ws l b :
  m !! l = None -> edges_stored m g srcs dsts ws ->
  edges_stored (<[l := b]> m) g srcs dsts ws.
Proof.
  intros Hl (Hls & Hld & Hlw & Hs & Hd & Hw). repeat split; try done.
  - intros e s He. apply read_u32_insert_fresh; [done|by apply Hs].
  - intros e d He. apply read_u32_insert_fresh; [done|by apply Hd].
  - intros e w He. apply read_f64_insert_fresh; [done|by apply Hw].
Qed.

(** [hil_graph_entropy] computes [entropy_of] of the weighted degrees and
    gives the memory back as it found it, the edge arrays absent or not. *)
Lemma entropy_run_stored (g : hil_graph_t) (w : world T) srcs dsts ws :
  edges_stored (w_mem w) g srcs dsts ws ->
  Forall (fun s => s < num_nodes g) srcs ->
  Forall (fun d => d < num_nodes g) dsts ->
  0 < num_nodes g -> fits_size_t (8 * num_nodes g) ->
  hil_graph_entropy (Some g) w
  = Ok (if granted (w_grants w)
        then entropy_of (weighted_degree (num_nodes g) srcs dsts ws)
        else s_zero,
        set_grants w (tail (w_grants w))).
Proof.
  intros Hst Hsr Hdr Hn Hfit.
  unfold hil_graph_entropy.
  destruct (decide (num_nodes g = 0)) as [?|_]; [lia|].
  unfold malloc_f64. destruct (granted (w_grants w)); [|done].
  rewrite size_mul_small by done. rewrite Nat.mul_comm, Nat.div_mul by done.
  destruct w as [m gs jf ji]. world_simpl. cbn [w_mem] in Hst.
  set (ld := fresh (dom m)).
  assert (Hfresh : m !! ld = None) by apply fresh_block_None.
  set (junk := jf <$> seq 0 (num_nodes g)).
  assert (Hjunk : length junk = num_nodes g).
  { unfold junk. by rewrite length_fmap, length_seq. }
  rewrite (degree_run_stored (<[ld := F64 junk]> m) g srcs dsts ws ld 0 []
             junk []); try done.
  2:{ by apply edges_stored_insert. }
  2:{ rewrite app_nil_r. apply lookup_insert_eq. }
  2:{ intros Hpos lw ow Hlw.
      destruct (edges_stored_cases m g srcs dsts ws Hst)
        as [(Hz & _)|(_ & _ & _ & Hw)]; [lia|].
      destruct Hw as (lw' & ow' & pw & qw & Hp & Hl & _).
      rewrite Hlw in Hp. injection Hp as <- <-. intros ->. congruence. }
  world_simpl. rewrite app_nil_l, app_nil_r, insert_insert_eq.
  set (deg := weighted_degree (num_nodes g) srcs dsts ws).
  assert (Hdeg : length deg = num_nodes g).
  { unfold deg, weighted_degree. by rewrite length_accumulate, length_replicate. }
  rewrite <- Hdeg.
  rewrite (fold_block s_add _ ld deg) by apply lookup_insert_eq.
  world_simpl. unfold entropy_of, HIL_EPS. fold (sum_left deg).
  destruct (s_leb (sum_left deg) s_eps).
  - unfold free. rewrite lookup_insert_eq. world_simpl.
    by rewrite delete_insert_id.
  - set (step := fun (H : T) (x : T) =>
                    if s_ltb s_eps (s_div x (sum_left deg))
                    then s_sub H (s_mul (s_div x (sum_left deg))
                                    (hil_safe_log (s_div x (sum_left deg))))
                    else H).
    erewrite (for_range_ext 0 (length deg) _
                (fun i H => x ← read_f64 (<[ld := F64 deg]> m) (Some (ld, 0)) i;
                            Ok (step H x))).
    2:{ intros i H _. destruct (read_f64 _ _ i) as [x| |]; [|done..].
        cbn [mbind result_bind]. unfold step.
        by destruct (s_ltb s_eps (s_div x (sum_left deg))). }
    rewrite (fold_block step _ ld deg) by apply lookup_insert_eq.
    world_simpl. unfold free. rewrite lookup_insert_eq. world_simpl.
    by rewrite delete_insert_id.
Qed.

End Entropy.

Section ExactEntropy.
Local Open Scope R_scope.

Lemma sum_left_copies (d : R) k : sum_left (replicate k d) = INR k * d.
Proof.
  induction k as [|k IH]; [simpl; rewrite sum_left_nil; lra|].
  cbn [replicate]. rewrite sum_left_cons, IH, S_INR. lra.
Qed.

Lemma foldl_copies {A} (step : R -> A -> R) (d : A) (q : R) k : forall a : R,
  (forall H, step H d = H - q) ->
  foldl step a (replicate k d) = a - INR k * q.
Proof.
  induction k as [|k IH]; intros a Hstep.
  - simpl. lra.
  - cbn [replicate foldl]. rewrite IH by done. rewrite Hstep, S_INR. lra.
Qed.

(** The entropy of [k] equal degrees that count is [ln k]. *)
Lemma entropy_of_copies (d : R) k :
  s_eps < INR k * d -> s_eps < 1 / INR k ->
  entropy_of (replicate k d) = ln (INR k).
Proof.
  intros Hsum Hp. pose proof eps_pos as He.
  assert (Hk : 0 < INR k).
  { destruct k as [|k]; [simpl in Hsum; lra|]. apply lt_0_INR. lia. }
  assert (Hd : 0 < d) by nra.
  unfold entropy_of. rewrite sum_left_copies.
  change (@s_leb R real_scalar) with Rleb.
  rewrite Rleb_false by done.
  assert (Hq : d / (INR k * d) = 1 / INR k) by (field; lra).
  rewrite (foldl_copies _ d (1 / INR k * ln (1 / INR k))).
  - unfold Rdiv at 2. rewrite Rmult_1_l, ln_Rinv by done.
    change (@s_zero R real_scalar) with 0. field. lra.
  - intros H. change (@s_div R real_scalar) with Rdiv. rewrite Hq.
    change (@s_ltb R real_scalar) with Rltb. rewrite Rltb_true by done.
    unfold hil_safe_log, HIL_EPS. rewrite clamp_min_above by lra.
    done.
Qed.

End ExactEntropy.

(** C4, as stated, fails on equal degrees: for two nodes and no edge the
    degrees are equal (to zero) and the entropy is 0, not [ln 2]; on a
    triangle of unit weights, whose degrees all equal 2, the entropy is 0
    and not [ln 3] when the allocation of the degree array is refused. *)
Lemma entropy_equal_degrees_not_ln :
  (weighted_degree 2 [] [] ([] : list R) = [0%R; 0%R]
   /\ hil_graph_entropy (Some two_nodes_graph) two_nodes_world
      = Ok (0%R, two_nodes_world)
   /\ ln 2 <> 0%R)
  /\ (weighted_degree 3 [0; 1; 2] [1; 2; 0] [1; 1; 1]%R = [2; 2; 2]%R
      /\ hil_graph_entropy (Some triangle_graph)
           (set_grants exact_triangle_world [false])
         = Ok (0%R, exact_triangle_world)
      /\ ln 3 <> 0%R).
Proof.
  split; (split; [|split]).
  - reflexivity.
  - rewrite (entropy_run_stored two_nodes_graph two_nodes_world [] [] []).
    + cbn [granted w_grants two_nodes_world]. unfold entropy_of.
      change (@s_leb R real_scalar) with Rleb.
      rewrite Rleb_true; [done|].
      unfold sum_left. simpl. lra.
    + by apply edgeless_stored.
    + constructor.
    + constructor.
    + simpl. lia.
    + vm_compute. reflexivity.
  - rewrite <- ln_1. intros Heq. apply ln_inv in Heq; lra.
  - cbv [weighted_degree accumulate add_at replicate
         lookup list_lookup insert list_insert].
    change (@s_add R real_scalar) with Rplus.
    change (@s_zero R real_scalar) with 0%R.
    repeat f_equal; lra.
  - unfold hil_graph_entropy, malloc_f64. reflexivity.
  - rewrite <- ln_1. intros Heq. apply ln_inv in Heq; lra.
Qed.

(** C4: take a graph of [n] nodes, with [0 < n] and [8 * n] within the range
    of [size_t], whose edge arrays can be read over their first [num_edges]
    entries (with no edge they may be [NULL]) and whose edge ends are below
    [n].  In exact arithmetic, if its weighted degrees all equal [d], with
    [n * d] and [1 / n] above [EPS], and the allocation is granted,
    [hil_graph_entropy] returns [ln n]; for every scalar type, if its total
    weighted degree is at most [EPS] the function returns 0.  For a graph of
    no node and for an absent graph it returns 0. *)
Theorem entropy_uniform_and_degenerate :
  (forall (g : hil_graph_t) (w : world R) srcs dsts ws (d : R),
      edges_stored (w_mem w) g srcs dsts ws ->
      Forall (fun s => s < num_nodes g) srcs ->
      Forall (fun d => d < num_nodes g) dsts ->
      0 < num_nodes g -> fits_size_t (8 * num_nodes g) ->
      granted (w_grants w) = true ->
      weighted_degree (num_nodes g) srcs dsts ws = replicate (num_nodes g) d ->
      (s_eps < INR (num_nodes g) * d)%R ->
      (s_eps < 1 / INR (num_nodes g))%R ->
      hil_graph_entropy (Some g) w
      = Ok (ln (INR (num_nodes g)), set_grants w (tail (w_grants w))))
  /\ (forall (T : Type) (SC : Scalar T) (ML : MathLib T)
             (g : hil_graph_t) (w : world T) srcs dsts ws,
      edges_stored (w_mem w) g srcs dsts ws ->
      Forall (fun s => s < num_nodes g) srcs ->
      Forall (fun d => d < num_nodes g) dsts ->
      0 < num_nodes g -> fits_size_t (8 * num_nodes g) ->
      s_leb (sum_left (weighted_degree (num_nodes g) srcs dsts ws)) s_eps = true ->
      hil_graph_entropy (Some g) w
      = Ok (s_zero, set_grants w (tail (w_grants w))))
  /\ (forall (T : Type) (SC : Scalar T) (ML : MathLib T)
             (g : hil_graph_t) (w : world T),
      num_nodes g = 0 -> hil_graph_entropy (Some g) w = Ok (s_zero, w))
  /\ (forall (T : Type) (SC : Scalar T) (ML : MathLib T) (w : world T),
      hil_graph_entropy None w = Ok (s_zero, w)).
Proof.
  split; [|split; [|split]].
  - intros g w srcs dsts ws d Hst Hsr Hdr Hn Hfit Hgr Hdeg Hsum Hp.
    rewrite (entropy_run_stored g w srcs dsts ws) by done.
    rewrite Hgr, Hdeg. by rewrite entropy_of_copies.
  - intros T SC ML g w srcs dsts ws Hst Hsr Hdr Hn Hfit Hle.
    rewrite (entropy_run_stored g w srcs dsts ws) by done.
    unfold entropy_of. rewrite Hle. by destruct (granted (w_grants w)).
  - intros T SC ML g w Hn. unfold hil_graph_entropy.
    by destruct (decide (num_nodes g = 0)).
  - done.
Qed.

Lemma entropy_uniform_and_degenerate_witness :
  hil_graph_entropy (Some triangle_graph) exact_triangle_world
  = Ok (ln (INR 3), exact_triangle_world)
  /\ hil_graph_entropy (Some (Graph 2 0 None None None)) exact_triangle_world
     = Ok (0%R, exact_triangle_world).
Proof.
  destruct entropy_uniform_and_degenerate as (Huni & Hlow & _).
  split.
  - apply (Huni triangle_graph exact_triangle_world [0; 1; 2] [1; 2; 0]
             [1; 1; 1]%R 2%R).
    + apply cells_edges_stored; try reflexivity.
      * exists 1%positive, 0, [], []. repeat split; reflexivity.
      * exists 2%positive, 0, [], []. repeat split; reflexivity.
      * exists 3%positive, 0, [], []. repeat split; reflexivity.
    + repeat constructor.
    + repeat constructor.
    + simpl. lia.
    + vm_compute. reflexivity.
    + reflexivity.
    + cbv [weighted_degree accumulate add_at triangle_graph num_nodes replicate
           lookup list_lookup insert list_insert].
      change (@s_add R real_scalar) with Rplus.
      change (@s_zero R real_scalar) with 0%R.
      repeat f_equal; lra.
    + simpl. lra.
    + simpl. lra.
  - apply (Hlow R real_scalar _ (Graph 2 0 None None None) exact_triangle_world
             [] [] []).
    + by apply edgeless_stored.
    + constructor.
    + constructor.
    + simpl. lia.
    + vm_compute. reflexivity.
    + change (@s_leb R real_scalar) with Rleb. apply Rleb_true.
      unfold sum_left. simpl. lra.
Defined.

(* ====================================================================== *)
(** * Connected components *)

Section Adjacency.
Context (n : nat) (es : list (nat * nat)).

Lemma cc_in_range_spec s d : cc_in_range n s d = true <-> s < n /\ d < n.
Proof.
  unfold cc_in_range. rewrite andb_true_iff, !bool_decide_eq_true. done.
Qed.

Lemma elem_of_edge_nbrs u v e :
  u ∈ edge_nbrs n v e <->
  edge_in_range n e /\ ((e.1 = v /\ e.2 = u) \/ (e.2 = v /\ e.1 = u)).
Proof.
  unfold edge_nbrs, edge_in_range. destruct e as [s d]. simpl.
  destruct (cc_in_range n s d) eqn:Hr.
  - apply cc_in_range_spec in Hr. rewrite elem_of_app.
    destruct (decide (s = v)), (decide (d = v));
      rewrite ?list_elem_of_singleton, ?elem_of_nil; simpl;
      intuition (subst; try congruence; auto).
  - rewrite elem_of_nil. split; [done|]. intros [Hr' _].
    apply cc_in_range_spec in Hr'. congruence.
Qed.

Lemma elem_of_nbrs u v :
  u ∈ nbrs n es v <-> adjacent (in_range_edges n es) v u.
Proof.
  unfold nbrs, adjacent, in_range_edges. rewrite list_elem_of_bind.
  setoid_rewrite elem_of_edge_nbrs. rewrite !list_elem_of_filter.
  split.
  - intros ([s d] & (Hr & [[<- <-]|[<- <-]]) & Hin); simpl in *; auto.
  - intros [[Hr Hin]|[Hr Hin]]; eexists; (split; [split; [exact Hr|]|exact Hin]);
      simpl; auto.
Qed.

Lemma nbrs_lt u v : u ∈ nbrs n es v -> u < n /\ v < n.
Proof.
  unfold nbrs. rewrite list_elem_of_bind.
  intros ([s d] & Hu & _). apply elem_of_edge_nbrs in Hu as [[Hs Hd] Hc].
  simpl in *. by destruct Hc as [[<- <-]|[<- <-]].
Qed.

Lemma adjacent_lt u v : adjacent (in_range_edges n es) u v -> u < n /\ v < n.
Proof.
  intros H. apply elem_of_nbrs in H. apply nbrs_lt in H. tauto.
Qed.

Lemma adjacent_sym (E : list (nat * nat)) u v : adjacent E u v -> adjacent E v u.
Proof. unfold adjacent. tauto. Qed.

Lemma connected_sym (E : list (nat * nat)) u v : connected E u v -> connected E v u.
Proof.
  induction 1 as [|x y z Hxy _ IH]; [constructor|].
  eapply rtc_r; [exact IH|]. by apply adjacent_sym.
Qed.

Lemma connected_lt u v :
  connected (in_range_edges n es) u v -> u < n -> v < n.
Proof.
  induction 1 as [|x y z Hxy _ IH]; [done|].
  intros _. apply IH. apply adjacent_lt in Hxy. tauto.
Qed.

End Adjacency.

Lemma nbrs_app n es es' v : nbrs n (es ++ es') v = nbrs n es v ++ nbrs n es' v.
Proof. unfold nbrs. apply bind_app. Qed.

Lemma nbrs_snoc n es e v : nbrs n (es ++ [e]) v = nbrs n es v ++ edge_nbrs n v e.
Proof. rewrite nbrs_app. unfold nbrs at 2. simpl. by rewrite app_nil_r. Qed.

Lemma nbrs_take_le n es k v : length (nbrs n (take k es) v) <= length (nbrs n es v).
Proof.
  rewrite <- (take_drop k es) at 2. rewrite nbrs_app, length_app. lia.
Qed.

Lemma length_edge_nbrs n v s d :
  length (edge_nbrs n v (s, d))
  = if cc_in_range n s d
    then (if decide (s = v) then 1 else 0) + (if decide (d = v) then 1 else 0)
    else 0.
Proof.
  unfold edge_nbrs. simpl. destruct (cc_in_range n s d); [|done].
  rewrite length_app. by destruct (decide (s = v)), (decide (d = v)).
Qed.

(** ** Prefix sums *)

Lemma prefix_sum_0 deg : prefix_sum deg 0 = 0.
Proof. done. Qed.

Lemma prefix_sum_S deg i x :
  deg !! i = Some x -> prefix_sum deg (S i) = prefix_sum deg i + x.
Proof.
  intros Hi. unfold prefix_sum. rewrite (take_S_r _ _ _ Hi), sum_list_with_app.
  simpl. lia.
Qed.

Lemma prefix_sum_mono deg i j : i <= j -> prefix_sum deg i <= prefix_sum deg j.
Proof.
  intros Hij. unfold prefix_sum.
  replace (take j deg) with (take i deg ++ take (j - i) (drop i deg)).
  - rewrite sum_list_with_app. lia.
  - rewrite take_take_drop. f_equal; lia.
Qed.

Lemma prefix_sum_all deg i : length deg <= i -> prefix_sum deg i = sum_list deg.
Proof. intros Hi. unfold prefix_sum. by rewrite take_ge. Qed.

(** ** The two passes that build the adjacency *)

Section Csr.
Context {T : Type} (m : memory T) (g : hil_graph_t) (n : nat)
        (es : list (nat * nat)).
Hypothesis Hedges : edge_list m g es.

Lemma sum_list_insert (l : list nat) i x y :
  l !! i = Some x -> sum_list (<[i := y]> l) + x = sum_list l + y.
Proof.
  revert i. induction l as [|a l IH]; intros [|i] Hi; simplify_eq/=; [lia|].
  specialize (IH i Hi). lia.
Qed.

(** First pass: [deg[v]] counts the adjacency of [v]. *)
Lemma count_pass :
  exists deg,
    for_range 0 (length es) (cc_count_edge m g n) (replicate n 0) = Ok deg
    /\ length deg = n
    /\ (forall v, v < n -> deg !! v = Some (length (nbrs n es v)))
    /\ sum_list deg <= 2 * length es.
Proof.
  destruct (for_range_inv
              (fun k deg => length deg = n
                 /\ (forall v, v < n ->
                       deg !! v = Some (length (nbrs n (take k es) v)))
                 /\ sum_list deg <= 2 * k)
              0 (length es) (cc_count_edge m g n) (replicate n 0))
    as (deg & Hrun & Hlen & Hdeg & Hsum).
  - split; [by rewrite length_replicate|]. split.
    + intros v Hv. by rewrite lookup_replicate_2.
    + rewrite sum_list_replicate. lia.
  - intros k deg Hk (Hlen & Hdeg & Hsum).
    destruct (lookup_lt_is_Some_2 es k ltac:(lia)) as [[s d] Hsd].
    destruct Hedges as [_ Hread]. destruct (Hread k s d Hsd) as [Hs Hd].
    unfold cc_count_edge. rewrite Hs, Hd. cbn [mbind result_bind].
    rewrite (take_S_r _ _ _ Hsd).
    destruct (cc_in_range n s d) eqn:Hr.
    + apply cc_in_range_spec in Hr as [Hsn Hdn].
      rewrite (proj2 (aget_Ok deg s _) (Hdeg s Hsn)). cbn [mbind result_bind].
      rewrite aset_lt by lia. cbn [mbind result_bind].
      set (deg1 := <[s := _]> deg).
      assert (Hd1 : deg1 !! d
                    = Some (length (nbrs n (take k es) d)
                            + if decide (s = d) then 1 else 0)).
      { unfold deg1. destruct (decide (s = d)) as [->|Hne].
        - by rewrite list_lookup_insert_eq by lia.
        - rewrite list_lookup_insert_ne by done. rewrite Hdeg by done.
          f_equal; lia. }
      rewrite (proj2 (aget_Ok deg1 d _) Hd1). cbn [mbind result_bind].
      rewrite aset_lt by (unfold deg1; rewrite length_insert; lia).
      eexists. split; [done|].
      split; [unfold deg1; by rewrite !length_insert|].
      split.
      2:{ pose proof (sum_list_insert deg1 d _
                        (length (nbrs n (take k es) d)
                         + (if decide (s = d) then 1 else 0) + 1) Hd1) as E2.
          pose proof (sum_list_insert deg s _
                        (length (nbrs n (take k es) s) + 1) (Hdeg s Hsn)) as E1.
          fold deg1 in E1. lia. }
      intros v Hv. rewrite nbrs_snoc, length_app, length_edge_nbrs.
      assert (Hr : cc_in_range n s d = true) by (by apply cc_in_range_spec).
      rewrite Hr.
      destruct (decide (d = v)) as [->|Hdv].
      * rewrite list_lookup_insert_eq by (unfold deg1; rewrite length_insert; lia).
        f_equal; destruct (decide (s = v)); lia.
      * rewrite list_lookup_insert_ne by done. unfold deg1.
        destruct (decide (s = v)) as [->|Hsv].
        -- rewrite list_lookup_insert_eq by lia. f_equal; lia.
        -- rewrite list_lookup_insert_ne by done. rewrite Hdeg by done.
           f_equal; lia.
    + eexists. split; [done|]. split; [done|]. split; [|lia].
      intros v Hv. rewrite nbrs_snoc, length_app, length_edge_nbrs, Hr.
      rewrite Hdeg by done. f_equal; lia.
  - exists deg. split; [done|]. split; [done|]. split; [|lia].
    intros v Hv. rewrite (Hdeg v Hv). by rewrite Nat.add_0_l, firstn_all.
Qed.

(** The offsets are the prefix sums of the degrees. *)
Lemma offsets_pass (deg offset0 : list nat) :
  length deg = n -> length offset0 = n + 1 ->
  exists offset,
    for_range 0 n (cc_offset_step deg) (<[0 := 0]> offset0) = Ok offset
    /\ length offset = n + 1
    /\ forall i, i <= n -> offset !! i = Some (prefix_sum deg i).
Proof.
  intros Hdeg Hoff.
  destruct (for_range_inv
              (fun i offset => length offset = n + 1
                 /\ forall j, j <= i -> offset !! j = Some (prefix_sum deg j))
              0 n (cc_offset_step deg) (<[0 := 0]> offset0))
    as (offset & Hrun & Hlen & Hpre).
  - split; [by rewrite length_insert|].
    intros j Hj. replace j with 0 by lia.
    by rewrite list_lookup_insert_eq by lia.
  - intros i offset Hi [Hlen Hpre].
    destruct (lookup_lt_is_Some_2 deg i ltac:(lia)) as [b Hb].
    unfold cc_offset_step, aget. rewrite (Hpre i) by lia.
    cbn [mbind result_bind]. rewrite Hb. cbn [mbind result_bind].
    rewrite aset_lt by lia.
    eexists. split; [done|]. split; [by rewrite length_insert|].
    intros j Hj. destruct (decide (j = i + 1)) as [->|Hne].
    + rewrite list_lookup_insert_eq by lia.
      replace (i + 1) with (S i) by lia. by rewrite (prefix_sum_S _ _ _ Hb).
    + rewrite list_lookup_insert_ne by lia. apply Hpre. lia.
  - exists offset. split; [done|]. split; [done|].
    intros i Hi. apply Hpre. lia.
Qed.

End Csr.

Section Fill.
Context {T : Type} (m : memory T) (g : hil_graph_t) (n : nat)
        (es : list (nat * nat)) (deg offset : list nat).
Hypothesis Hedges : edge_list m g es.
Hypothesis Hdeg_len : length deg = n.
Hypothesis Hdeg : forall v, v < n -> deg !! v = Some (length (nbrs n es v)).
Hypothesis Hoffset : forall i, i <= n -> offset !! i = Some (prefix_sum deg i).

Local Abbreviation off := (prefix_sum deg).

Lemma off_S v : v < n -> off (S v) = off v + length (nbrs n es v).
Proof. intros Hv. apply prefix_sum_S. by apply Hdeg. Qed.

Lemma off_below v v' : v < v' -> v < n -> off v + length (nbrs n es v) <= off v'.
Proof.
  intros Hlt Hv. rewrite <- off_S by done. apply prefix_sum_mono. lia.
Qed.

Lemma filling_ext L L' adj cur :
  (forall v, L v = L' v) -> filling n es deg L adj cur -> filling n es deg L' adj cur.
Proof.
  intros Heq (H1 & H2 & H3 & H4 & H5). repeat split; try done.
  - intros v Hv. rewrite <- Heq. by apply H3.
  - intros v j u Hv. rewrite <- Heq. by apply H4.
  - intros v Hv. rewrite <- Heq. by apply H5.
Qed.

Lemma push_bound L adj cur v :
  filling n es deg L adj cur -> v < n -> length (L v) < length (nbrs n es v) ->
  off v + length (L v) < length adj.
Proof.
  intros (H1 & _) Hv Hlt. rewrite H1.
  pose proof (off_S v Hv). pose proof (prefix_sum_mono deg (S v) n ltac:(lia)).
  lia.
Qed.

(** [adj[offset[v] + cur[v]++] = u] *)
Lemma push_filling L adj cur v u :
  filling n es deg L adj cur -> v < n -> length (L v) < length (nbrs n es v) ->
  filling n es deg (fun x => if decide (x = v) then L v ++ [u] else L x)
    (<[off v + length (L v) := u]> adj) (<[v := length (L v) + 1]> cur).
Proof.
  intros Hfill Hv Hlt. pose proof (push_bound L adj cur v Hfill Hv Hlt) as Hb.
  destruct Hfill as (H1 & H2 & H3 & H4 & H5).
  split; [by rewrite length_insert|]. split; [by rewrite length_insert|].
  split; [|split].
  - intros x Hx. destruct (decide (x = v)) as [->|Hne].
    + rewrite list_lookup_insert_eq by lia. by rewrite length_app.
    + rewrite list_lookup_insert_ne by done. by apply H3.
  - intros x j w Hx Hj.
    assert (Hold : forall j', L x !! j' = Some w ->
                     off x + j' <> off v + length (L v) \/ x = v /\ j' = length (L v)).
    { intros j' Hj'. apply lookup_lt_Some in Hj'.
      destruct (decide (x = v)) as [->|Hne]; [lia|]. left.
      pose proof (H5 x Hx).
      destruct (decide (x < v)).
      - pose proof (off_below x v ltac:(lia) Hx). lia.
      - pose proof (off_below v x ltac:(lia) Hv). lia. }
    destruct (decide (x = v)) as [->|Hne].
    + apply lookup_app_Some in Hj as [Hj|[Hge Hj]].
      * rewrite list_lookup_insert_ne; [by apply H4|].
        apply lookup_lt_Some in Hj. lia.
      * apply list_lookup_singleton_Some in Hj as [Hj ->].
        replace j with (length (L v)) by lia.
        by rewrite list_lookup_insert_eq by lia.
    + rewrite list_lookup_insert_ne; [by apply H4|].
      destruct (Hold j Hj) as [?|[? _]]; [lia|done].
  - intros x Hx. destruct (decide (x = v)) as [->|Hne]; [|by apply H5].
    rewrite length_app. simpl. lia.
Qed.

(** Second pass, one edge. *)
Lemma fill_edge k s d adj cur :
  es !! k = Some (s, d) ->
  filling n es deg (nbrs n (take k es)) adj cur ->
  exists adj' cur',
    cc_fill_edge m g n offset k (adj, cur) = Ok (adj', cur')
    /\ filling n es deg (nbrs n (take (S k) es)) adj' cur'.
Proof.
  intros Hsd Hfill.
  destruct Hedges as [_ Hread]. destruct (Hread k s d Hsd) as [Hs Hd].
  unfold cc_fill_edge. rewrite Hs, Hd. cbn [mbind result_bind].
  assert (Hnext : forall v, nbrs n (take (S k) es) v
                            = nbrs n (take k es) v ++ edge_nbrs n v (s, d)).
  { intros v. by rewrite (take_S_r _ _ _ Hsd), nbrs_snoc. }
  destruct (cc_in_range n s d) eqn:Hr.
  2:{ exists adj, cur. split; [done|].
      eapply filling_ext; [|exact Hfill].
      intros v. rewrite Hnext. unfold edge_nbrs. simpl. rewrite Hr.
      by rewrite app_nil_r. }
  pose proof Hr as Hr'. apply cc_in_range_spec in Hr' as [Hsn Hdn].
  set (L := nbrs n (take k es)) in *.
  assert (Hlen_next : forall v, length (L v) + length (edge_nbrs n v (s, d))
                                <= length (nbrs n es v)).
  { intros v. rewrite <- length_app, <- Hnext. apply nbrs_take_le. }
  assert (Hb1 : length (L s) < length (nbrs n es s)).
  { pose proof (Hlen_next s) as Hle. rewrite length_edge_nbrs, Hr in Hle.
    destruct (decide (s = s)); [|done]. lia. }
  pose proof (push_bound L adj cur s Hfill Hsn Hb1) as Hpos1.
  pose proof (push_filling L adj cur s d Hfill Hsn Hb1) as Hfill1.
  destruct Hfill as (HA & HC & Hcur & _ & _).
  rewrite (proj2 (aget_Ok _ _ _) (Hoffset s ltac:(lia))). cbn [mbind result_bind].
  rewrite (proj2 (aget_Ok _ _ _) (Hcur s Hsn)). cbn [mbind result_bind].
  rewrite aset_lt by lia. cbn [mbind result_bind].
  rewrite aset_lt by lia. cbn [mbind result_bind].
  set (L1 := fun x => if decide (x = s) then L s ++ [d] else L x) in *.
  set (adj1 := <[_ := d]> adj) in *. set (cur1 := <[s := _]> cur) in *.
  assert (Hb2 : length (L1 d) < length (nbrs n es d)).
  { pose proof (Hlen_next d) as Hle. rewrite length_edge_nbrs, Hr in Hle.
    unfold L1. destruct (decide (d = d)); [|done].
    destruct (decide (d = s)) as [->|Hne].
    - destruct (decide (s = s)); [|done]. rewrite length_app. simpl. lia.
    - destruct (decide (s = d)); [congruence|]. lia. }
  pose proof (push_bound L1 adj1 cur1 d Hfill1 Hdn Hb2) as Hpos2.
  pose proof (push_filling L1 adj1 cur1 d s Hfill1 Hdn Hb2) as Hfill2.
  destruct Hfill1 as (HA1 & HC1 & Hcur1 & _ & _).
  rewrite (proj2 (aget_Ok _ _ _) (Hoffset d ltac:(lia))). cbn [mbind result_bind].
  rewrite (proj2 (aget_Ok _ _ _) (Hcur1 d Hdn)). cbn [mbind result_bind].
  rewrite aset_lt by lia. cbn [mbind result_bind].
  rewrite aset_lt by lia. cbn [mbind result_bind].
  eexists _, _. split; [done|].
  eapply filling_ext; [|exact Hfill2].
  intros v. cbn beta. rewrite Hnext. unfold L1, edge_nbrs. simpl. rewrite Hr.
  destruct (decide (v = d)) as [->|Hvd], (decide (d = s)) as [Hds|Hds];
    subst; repeat (case_decide; subst; try done);
    rewrite <- ?(assoc_L (++)), ?app_nil_r; done.
Qed.

(** Second pass: every slice of [adj] is the adjacency of its node. *)
Lemma fill_pass adj0 :
  length adj0 = off n ->
  exists adj cur,
    for_range 0 (length es) (cc_fill_edge m g n offset) (adj0, replicate n 0)
    = Ok (adj, cur)
    /\ filling n es deg (nbrs n es) adj cur.
Proof.
  intros Hadj.
  destruct (for_range_inv
              (fun k st => filling n es deg (nbrs n (take k es)) st.1 st.2)
              0 (length es) (cc_fill_edge m g n offset) (adj0, replicate n 0))
    as ([adj cur] & Hrun & Hfill).
  - simpl. repeat split; try done.
    + by rewrite length_replicate.
    + intros v Hv. by rewrite lookup_replicate_2.
    + intros v Hv. simpl. lia.
  - intros k [adj cur] Hk Hfill. simpl in Hfill.
    destruct (lookup_lt_is_Some_2 es k ltac:(lia)) as [[s d] Hsd].
    destruct (fill_edge k s d adj cur Hsd Hfill) as (adj' & cur' & Hrun & Hfill').
    by exists (adj', cur').
  - exists adj, cur. split; [done|]. simpl in Hfill.
    by rewrite firstn_all in Hfill.
Qed.

(** What the traversal needs of the adjacency. *)
Lemma slice_sound adj cur v k :
  filling n es deg (nbrs n es) adj cur -> v < n -> off v <= k < off (S v) ->
  exists u, adj !! k = Some u /\ u ∈ nbrs n es v.
Proof.
  intros (_ & _ & _ & H4 & _) Hv Hk. rewrite off_S in Hk by done.
  destruct (lookup_lt_is_Some_2 (nbrs n es v) (k - off v) ltac:(lia)) as [u Hu].
  exists u. split.
  - replace k with (off v + (k - off v)) by lia. by apply H4.
  - apply list_elem_of_lookup. by exists (k - off v).
Qed.

Lemma slice_complete adj cur v u :
  filling n es deg (nbrs n es) adj cur -> v < n -> u ∈ nbrs n es v ->
  exists k, off v <= k < off (S v) /\ adj !! k = Some u.
Proof.
  intros (_ & _ & _ & H4 & _) Hv Hu.
  apply list_elem_of_lookup in Hu as [j Hj].
  exists (off v + j). split; [|by apply H4].
  apply lookup_lt_Some in Hj. rewrite off_S by done. lia.
Qed.

End Fill.

(** ** Breadth-first traversal *)

Lemma u32_small i : fits_uint32 i -> u32 i = i.
Proof. unfold fits_uint32, u32. intros Hi. rewrite N.mod_small by done. lia. Qed.

(** At the last value of [uint32_t] the successor wraps: the traversal is
    followed on graphs of fewer than 2^32 nodes only. *)
Remark u32_wraps v : N.of_nat v = (2 ^ 32 - 1)%N -> u32 (v + 1) = 0.
Proof.
  intros Hv. unfold u32. rewrite Nat2N.inj_add, Hv. reflexivity.
Qed.

Lemma NoDup_below_length (l : list nat) n :
  NoDup l -> (forall x, x ∈ l -> x < n) -> length l <= n.
Proof.
  intros Hnd Hlt. rewrite <- (length_seq n 0). apply submseteq_length.
  apply NoDup_submseteq; [done|]. intros x Hx. apply elem_of_seq.
  specialize (Hlt x Hx). lia.
Qed.

Section Bfs.
Context (n : nat) (E : list (nat * nat)) (offset adj : list nat)
        (off : nat -> nat).
Hypothesis Hn32 : fits_uint32 n.
Hypothesis Hoffset : forall i, i <= n -> offset !! i = Some (off i).
Hypothesis Hsound : forall v k, v < n -> off v <= k < off (S v) ->
  exists u, adj !! k = Some u /\ adjacent E v u.
Hypothesis Hcomplete : forall v u, v < n -> adjacent E v u ->
  exists k, off v <= k < off (S v) /\ adj !! k = Some u.
Hypothesis Hlt : forall u v, adjacent E u v -> u < n /\ v < n.

Lemma is_seen_lt sn v : seen_ok n sn -> is_seen sn v -> v < n.
Proof. intros [Hlen _] Hv. apply lookup_lt_Some in Hv. lia. Qed.

Lemma mark_seen sn u :
  seen_ok n sn -> u < n ->
  seen_ok n (<[u := 1]> sn)
  /\ forall x, is_seen (<[u := 1]> sn) x <-> is_seen sn x \/ x = u.
Proof.
  intros [Hlen Hcells] Hu. split; [split|].
  - by rewrite length_insert.
  - intros v Hv. destruct (decide (v = u)) as [->|Hne].
    + right. by rewrite list_lookup_insert_eq by lia.
    + rewrite list_lookup_insert_ne by done. by apply Hcells.
  - intros x. unfold is_seen. destruct (decide (x = u)) as [->|Hne].
    + rewrite list_lookup_insert_eq by lia. tauto.
    + rewrite list_lookup_insert_ne by done. tauto.
Qed.

Lemma bfs_visit_step sn0 i qh0 v k st :
  v < n -> off v <= k < off (S v) ->
  scan_inv n E adj sn0 i qh0 v (off v) k st ->
  exists st', bfs_visit adj k st = Ok st'
              /\ scan_inv n E adj sn0 i qh0 v (off v) (S k) st'.
Proof.
  intros Hv Hk (Hinv & Hqh & Hqv & Hprog).
  destruct Hinv as (Hok & Hql & Hhl & Htn & Hnd & Hqlt & Hseen & Hconn
                    & Hq0 & Hqt0 & Hdone).
  destruct (Hsound v k Hv Hk) as (u & Hu & Hadj).
  destruct (Hlt _ _ Hadj) as [_ Hun].
  unfold bfs_visit. rewrite (proj2 (aget_Ok _ _ _) Hu). cbn [mbind result_bind].
  destruct Hok as [Hsl Hcells].
  assert (Hvq : v ∈ take (qt st) (queue st)).
  { apply elem_of_take. exists qh0. split; [done|lia]. }
  destruct (Hcells u Hun) as [Hu0|Hu1].
  - (* not seen: mark and enqueue *)
    rewrite (proj2 (aget_Ok _ _ _) Hu0). cbn [mbind result_bind].
    destruct (decide (0 = 0)); [|done].
    assert (Hnotseen : ~ is_seen (seen st) u) by (unfold is_seen; congruence).
    assert (Hunq : u ∉ take (qt st) (queue st)).
    { intros Hin. apply Hnotseen. apply Hseen. by right. }
    assert (Hlen_q : length (take (qt st) (queue st)) = qt st)
      by (apply length_take_le; lia).
    assert (Hroom : qt st < n).
    { assert (Hnd' : NoDup (take (qt st) (queue st) ++ [u])).
      { apply NoDup_app. split; [done|]. split; [|apply NoDup_singleton].
        intros x Hx Hxu. apply list_elem_of_singleton in Hxu as ->. done. }
      apply NoDup_below_length with (n := n) in Hnd'.
      - rewrite length_app, Hlen_q in Hnd'. simpl in Hnd'. lia.
      - intros x Hx. apply elem_of_app in Hx as [Hx|Hx]; [by apply Hqlt|].
        by apply list_elem_of_singleton in Hx as ->. }
    rewrite aset_lt by lia. cbn [mbind result_bind].
    rewrite aset_lt by lia. cbn [mbind result_bind].
    eexists. split; [done|].
    destruct (mark_seen (seen st) u (conj Hsl Hcells) Hun) as [Hok' Hmark].
    assert (Htake : take (qt st + 1) (<[qt st := u]> (queue st))
                    = take (qt st) (queue st) ++ [u]).
    { replace (qt st + 1) with (S (qt st)) by lia.
      rewrite (take_S_r _ _ u) by (by rewrite list_lookup_insert_eq by lia).
      by rewrite take_insert_ge by lia. }
    split; [|split; [done|split]].
    + unfold bfs_inv. cbn [seen queue qh qt]. rewrite Htake.
      split; [done|]. split; [by rewrite length_insert|].
      split; [lia|]. split; [lia|].
      split.
      { apply NoDup_app. split; [done|]. split; [|apply NoDup_singleton].
        intros x Hx Hxu. apply list_elem_of_singleton in Hxu as ->. done. }
      split.
      { intros x Hx. apply elem_of_app in Hx as [Hx|Hx]; [by apply Hqlt|].
        by apply list_elem_of_singleton in Hx as ->. }
      split.
      { intros x. rewrite Hmark, Hseen, elem_of_app, list_elem_of_singleton.
        tauto. }
      split.
      { intros x Hx. apply elem_of_app in Hx as [Hx|Hx]; [by apply Hconn|].
        apply list_elem_of_singleton in Hx as ->.
        eapply rtc_r; [by apply Hconn|done]. }
      split; [by rewrite list_lookup_insert_ne by lia|].
      split; [lia|].
      intros j x y Hj Hjq Hx Hxy. apply Hmark. left.
      destruct (decide (j = qt st)) as [->|Hne]; [lia|].
      rewrite list_lookup_insert_ne in Hx by done.
      apply (Hdone j x y); [done|lia|done|done].
    + cbn [queue]. by rewrite list_lookup_insert_ne by lia.
    + intros k' Hk'. cbn [seen]. destruct (decide (k' = k)) as [->|Hne].
      * exists u. split; [done|]. apply Hmark. by right.
      * destruct (Hprog k' ltac:(lia)) as (u' & Hu' & Hs').
        exists u'. split; [done|]. apply Hmark. by left.
  - (* seen already *)
    rewrite (proj2 (aget_Ok _ _ _) Hu1). cbn [mbind result_bind].
    destruct (decide (1 = 0)); [done|].
    eexists. split; [done|].
    split; [|split; [done|split; [done|]]].
    + unfold bfs_inv. done.
    + intros k' Hk'. destruct (decide (k' = k)) as [->|Hne].
      * by exists u.
      * apply Hprog. lia.
Qed.

Lemma bfs_drain_ok sn0 i fuel : forall st,
  (forall x y, is_seen sn0 x -> adjacent E x y -> is_seen sn0 y) ->
  bfs_inv n E sn0 i (qh st) st -> n - qh st <= fuel ->
  exists st', bfs_drain fuel offset adj st = Ok st'
              /\ bfs_inv n E sn0 i (qt st') st' /\ qh st' = qt st'.
Proof.
  induction fuel as [|fuel IH]; intros st Hclosed Hinv Hfuel.
  - pose proof Hinv as (_ & _ & Hhl & Htn & _).
    simpl. destruct (decide (qh st < qt st)); [lia|].
    exists st. assert (qh st = qt st) as Heq by lia.
    split; [done|]. by rewrite <- Heq.
  - pose proof Hinv as (Hok & Hql & Hhl & Htn & Hnd & Hqlt & Hseen & Hconn
                        & Hq0 & Hqt0 & Hdone).
    simpl. destruct (decide (qh st < qt st)) as [Hlt'|Hge].
    2:{ exists st. assert (qh st = qt st) as Heq by lia.
        split; [done|]. by rewrite <- Heq. }
    destruct (lookup_lt_is_Some_2 (queue st) (qh st) ltac:(lia)) as [v Hqv].
    assert (Hvq : v ∈ take (qt st) (queue st)).
    { apply elem_of_take. exists (qh st). split; [done|lia]. }
    pose proof (Hqlt v Hvq) as Hv.
    rewrite (proj2 (aget_Ok _ _ _) Hqv). cbn [mbind result_bind].
    rewrite (proj2 (aget_Ok _ _ _) (Hoffset v ltac:(lia))).
    cbn [mbind result_bind].
    rewrite u32_small by (unfold fits_uint32 in *; lia).
    replace (v + 1) with (S v) by lia.
    rewrite (proj2 (aget_Ok _ _ _) (Hoffset (S v) ltac:(lia))).
    cbn [mbind result_bind].
    set (st1 := Bfs (seen st) (queue st) (qh st + 1) (qt st)).
    destruct (for_range_inv
                (fun k st' => scan_inv n E adj sn0 i (qh st) v (off v) k st'
                              /\ off v <= k)
                (off v) (off (S v) - off v) (bfs_visit adj) st1)
      as (st2 & Hscan & (Hinv2 & Hqh2 & Hqv2 & Hprog2) & _).
    + split; [|lia]. split; [|split; [simpl; lia|split; [done|]]].
      * unfold bfs_inv, st1. cbn [seen queue qh qt].
        repeat (split; [first [done|lia]|]). done.
      * intros k' Hk'. lia.
    + intros k st' Hk [Hsc Hlo].
      destruct (bfs_visit_step sn0 i (qh st) v k st' Hv ltac:(lia) Hsc)
        as (st'' & Hrun & Hsc').
      exists st''. split; [done|]. split; [done|lia].
    + rewrite Hscan. cbn [mbind result_bind].
      assert (Hhi : off v <= off (S v) \/ off (S v) < off v) by lia.
      apply IH; [done| |lia].
      rewrite Hqh2.
      destruct Hinv2 as (Hok2 & Hql2 & Hhl2 & Htn2 & Hnd2 & Hqlt2 & Hseen2
                         & Hconn2 & Hq02 & Hqt02 & Hdone2).
      unfold bfs_inv. repeat (split; [first [done|lia]|]).
      intros j x y Hj Hjq Hx Hxy.
      destruct (decide (j = qh st)) as [->|Hne].
      * rewrite Hqv2 in Hx. injection Hx as <-.
        destruct (Hcomplete v y Hv Hxy) as (k & Hk & Hky).
        destruct (Hprog2 k) as (u' & Hu' & Hs'); [lia|].
        rewrite Hky in Hu'. by injection Hu' as <-.
      * apply (Hdone2 j x y); [lia|done|done|done].
Qed.

Lemma closed_reach (P : nat -> Prop) :
  (forall x y, P x -> adjacent E x y -> P y) ->
  forall a b, connected E a b -> P a -> P b.
Proof.
  intros Hstep a b Hab. induction Hab as [|x y z Hxy _ IH]; [done|].
  intros Hx. apply IH. by eapply Hstep.
Qed.

Lemma cc_root_step fuel i st :
  n <= fuel -> i < n -> roots_inv n E i st ->
  exists st', cc_root fuel offset adj i st = Ok st' /\ roots_inv n E (S i) st'.
Proof.
  intros Hfuel Hi. destruct st as [[sn qu] comps].
  intros (Hok & Hql & roots & Hcomps & Hnd & Hrlt & Hseen & Hsep & Hall).
  cbn [fst snd] in *. unfold cc_root.
  pose proof Hok as [Hsl Hcells].
  destruct (Hcells i Hi) as [Hi0|Hi1].
  2:{ rewrite (proj2 (aget_Ok _ _ _) Hi1). cbn [mbind result_bind].
      destruct (decide (1 = 0)); [done|].
      eexists. split; [done|]. split; [done|]. split; [done|].
      exists roots. cbn [fst snd]. repeat (split; [done|]).
      split; [|split; [done|split; [done|]]].
      - intros r Hr. specialize (Hrlt r Hr). lia.
      - intros v Hv. destruct (decide (v = i)) as [->|]; [done|].
        apply Hall. lia. }
  rewrite (proj2 (aget_Ok _ _ _) Hi0). cbn [mbind result_bind].
  destruct (decide (0 = 0)); [|done].
  rewrite aset_lt by lia. cbn [mbind result_bind].
  rewrite aset_lt by lia. cbn [mbind result_bind].
  rewrite u32_small by (unfold fits_uint32 in *; lia).
  assert (Hnotseen : ~ is_seen sn i) by (unfold is_seen; congruence).
  assert (Hclosed : forall x y, is_seen sn x -> adjacent E x y -> is_seen sn y).
  { intros x y Hx Hxy. apply Hseen in Hx as (r & Hr & Hrx).
    apply Hseen. exists r. split; [done|]. by eapply rtc_r. }
  destruct (mark_seen sn i Hok Hi) as [Hok1 Hmark].
  destruct (bfs_drain_ok sn i fuel (Bfs (<[i := 1]> sn) (<[0 := i]> qu) 0 1))
    as (b & Hrun & Hinv & Hqh); [done| |simpl; lia|].
  { unfold bfs_inv. cbn [seen queue qh qt].
    assert (Htake : take 1 (<[0 := i]> qu) = [i]).
    { destruct qu; [simpl in Hql; lia|done]. }
    rewrite Htake.
    split; [done|]. split; [by rewrite length_insert|].
    split; [lia|]. split; [lia|]. split; [apply NoDup_singleton|].
    split; [by intros v ->%list_elem_of_singleton|].
    split; [intros v; by rewrite Hmark, list_elem_of_singleton|].
    split; [intros v ->%list_elem_of_singleton; constructor|].
    split; [by rewrite list_lookup_insert_eq by lia|].
    split; [lia|]. intros j v u Hj. lia. }
  rewrite Hrun. cbn [mbind result_bind].
  destruct Hinv as (Hok' & Hql' & Hhl' & Htn' & Hnd' & Hqlt' & Hseen' & Hconn'
                    & Hq0' & Hqt0' & Hdone').
  assert (Hroot_in : i ∈ take (qt b) (queue b)).
  { apply elem_of_take. exists 0. split; [done|lia]. }
  assert (Hclosed' : forall x y, is_seen (seen b) x -> adjacent E x y ->
                                 is_seen (seen b) y).
  { intros x y Hx Hxy. apply Hseen' in Hx as [Hx|Hx].
    - apply Hseen'. left. by eapply Hclosed.
    - apply elem_of_take in Hx as (j & Hj & Hjq).
      apply (Hdone' j x y); [lia|lia|done|done]. }
  assert (Hreach : forall x, connected E i x -> is_seen (seen b) x).
  { intros x Hix. apply (closed_reach (is_seen (seen b)) Hclosed' i x Hix).
    apply Hseen'. by right. }
  eexists. split; [done|]. split; [done|]. split; [done|].
  exists (roots ++ [i]). cbn [fst snd].
  split; [rewrite length_app; simpl; lia|].
  split.
  { apply NoDup_app. split; [done|]. split; [|apply NoDup_singleton].
    intros r Hr ->%list_elem_of_singleton. specialize (Hrlt i Hr). lia. }
  split.
  { intros r [Hr|Hr%list_elem_of_singleton]%elem_of_app; [|lia].
    specialize (Hrlt r Hr). lia. }
  split.
  { intros v. split.
    - intros [Hv|Hv]%Hseen'.
      + apply Hseen in Hv as (r & Hr & Hrv). exists r.
        split; [apply elem_of_app; by left|done].
      + exists i. split; [apply elem_of_app; right; by apply list_elem_of_singleton|].
        by apply Hconn'.
    - intros (r & [Hr|Hr%list_elem_of_singleton]%elem_of_app & Hrv).
      + apply Hseen'. left. apply Hseen. by exists r.
      + subst r. by apply Hreach. }
  split.
  { intros r r' [Hr|Hr%list_elem_of_singleton]%elem_of_app
           [Hr'|Hr'%list_elem_of_singleton]%elem_of_app Hc.
    - by apply Hsep.
    - subst r'. exfalso. apply Hnotseen. apply Hseen. by exists r.
    - subst r. exfalso. apply Hnotseen. apply Hseen. exists r'.
      split; [done|]. by apply connected_sym.
    - congruence. }
  intros v Hv. destruct (decide (v = i)) as [->|Hne].
  - apply Hseen'. by right.
  - apply Hseen'. left. apply Hall. lia.
Qed.

(** The loop over the roots counts the components. *)
Lemma roots_pass fuel sn0 qu0 :
  n <= fuel -> sn0 = replicate n 0 -> length qu0 = n ->
  exists sn qu comps,
    for_range 0 n (cc_root fuel offset adj) (sn0, qu0, 0) = Ok (sn, qu, comps)
    /\ component_count n E comps.
Proof.
  intros Hfuel -> Hql.
  destruct (for_range_inv (roots_inv n E) 0 n (cc_root fuel offset adj)
              (replicate n 0, qu0, 0))
    as ([[sn qu] comps] & Hrun & Hinv).
  - unfold roots_inv. cbn [fst snd]. split; [|split; [done|]].
    + split; [by rewrite length_replicate|].
      intros v Hv. left. by rewrite lookup_replicate_2.
    + exists []. cbn [fst snd]. split; [done|]. split; [constructor|].
      split; [by intros r Hr%elem_of_nil|]. split; [|split].
      * intros v. unfold is_seen. split.
        -- intros Hv. pose proof (lookup_lt_Some _ _ _ Hv) as Hlt'.
           rewrite length_replicate in Hlt'.
           rewrite lookup_replicate_2 in Hv by done. done.
        -- by intros (r & Hr%elem_of_nil & _).
      * by intros r r' Hr%elem_of_nil.
      * intros v Hv. lia.
  - intros i st Hi Hinv. apply cc_root_step; [done|lia|done].
  - exists sn, qu, comps. split; [done|].
    destruct Hinv as (Hok & _ & roots & Hc & Hnd & Hrlt & Hseen & Hsep & Hall).
    cbn [fst snd] in *. exists roots. split; [done|]. split; [done|].
    split; [intros r Hr; specialize (Hrlt r Hr); lia|].
    split; [|done].
    intros v Hv. apply Hseen. apply Hall. lia.
Qed.

End Bfs.

(** ** The function *)

Lemma all_granted_step gs :
  all_granted gs -> granted gs = true /\ all_granted (tail gs).
Proof.
  intros Hall. destruct gs as [|b gs]; [done|].
  apply Forall_cons in Hall as [-> Hall]. done.
Qed.

Lemma size_mul_fits_small a b :
  fits_size_t (a * b) -> size_mul_fits a b = true.
Proof. unfold fits_size_t, size_mul_fits. intros Hfit. apply N.ltb_lt. lia. Qed.

Lemma fits_uint32_size n k :
  fits_uint32 n -> k <= 8 -> fits_size_t (k * (n + 1)).
Proof.
  unfold fits_uint32, fits_size_t. intros Hn Hk.
  rewrite Nat2N.inj_mul, Nat2N.inj_add.
  assert (N.of_nat k <= 8)%N as Hk' by lia.
  assert (N.of_nat n + N.of_nat 1 <= 2 ^ 32)%N as Hn' by lia.
  apply N.le_lt_trans with (8 * 2 ^ 32)%N; [|done].
  by apply N.mul_le_mono.
Qed.

Section Components.
Context {T : Type}.

Lemma components_run fuel (g : hil_graph_t) (w : world T) es :
  edge_list (w_mem w) g es ->
  0 < num_nodes g -> fits_uint32 (num_nodes g) ->
  fits_size_t (8 * num_edges g) -> num_nodes g <= fuel ->
  exists k,
    hil_graph_connected_components fuel (Some g) w = Ok k
    /\ (all_granted (w_grants w) ->
        component_count (num_nodes g) (in_range_edges (num_nodes g) es) k).
Proof.
  intros Hedges Hn Hn32 Hm Hfuel.
  destruct w as [mem gs jf ji]. cbn [w_mem w_grants] in *.
  unfold hil_graph_connected_components.
  set (n := num_nodes g) in *.
  destruct (decide (n = 0)) as [?|_]; [lia|].
  assert (Hrefused : forall gs',
            granted gs' = false ->
            (all_granted gs -> all_granted gs') ->
            exists k, Ok 0 = Ok k
              /\ (all_granted gs ->
                  component_count n (in_range_edges n es) k)).
  { intros gs' Hno Himp. exists 0. split; [done|]. intros Hall.
    apply Himp, all_granted_step in Hall as [Hyes _]. congruence. }
  (* deg *)
  unfold calloc_local, malloc_local.
  cbn [w_grants w_mem w_junk_int set_grants].
  rewrite !size_mul_fits_small
    by (eapply fits_size_t_le; [|apply (fits_uint32_size n 8 Hn32)]; lia).
  cbn [andb].
  destruct (granted gs) eqn:G0; [|by apply (Hrefused gs)].
  cbn [w_grants w_mem w_junk_int set_grants].
  destruct (count_pass mem g n es Hedges) as (deg & Hcount & Hdl & Hdeg & Hsum).
  destruct Hedges as [Hel Hread]. rewrite <- Hel. rewrite Hcount.
  cbn [mbind result_bind w_grants w_mem w_junk_int set_grants].
  (* offset *)
  destruct (granted (tail gs)) eqn:G1.
  2:{ apply (Hrefused (tail gs)); [done|]. intros Hall.
      by apply all_granted_step in Hall as [_ ?]. }
  rewrite (size_mul_small 8 (n + 1))
    by (apply (fits_uint32_size n 8 Hn32); lia).
  rewrite (Nat.mul_comm 8 (n + 1)), Nat.div_mul by done.
  set (offset0 := ji <$> seq 0 (n + 1)).
  assert (Hol : length offset0 = n + 1).
  { unfold offset0. by rewrite length_fmap, length_seq. }
  rewrite aset_lt by lia. cbn [mbind result_bind].
  destruct (offsets_pass n deg offset0 Hdl Hol) as (offset & Hoffs & Hofl & Hoff).
  rewrite Hoffs. cbn [mbind result_bind].
  rewrite (proj2 (aget_Ok _ _ _) (Hoff n ltac:(lia))).
  cbn [mbind result_bind w_grants w_mem w_junk_int set_grants].
  (* adj *)
  assert (Htotal : prefix_sum deg n = sum_list deg).
  { apply prefix_sum_all. lia. }
  destruct (granted (tail (tail gs))) eqn:G2.
  2:{ apply (Hrefused (tail (tail gs))); [done|]. intros Hall.
      apply all_granted_step in Hall as [_ Hall].
      by apply all_granted_step in Hall as [_ ?]. }
  rewrite (size_mul_small 4 (prefix_sum deg n))
    by (eapply fits_size_t_le; [|exact Hm]; rewrite Htotal; lia).
  rewrite (Nat.mul_comm 4 (prefix_sum deg n)), Nat.div_mul by done.
  set (adj0 := ji <$> seq 0 (prefix_sum deg n)).
  assert (Hal : length adj0 = prefix_sum deg n).
  { unfold adj0. by rewrite length_fmap, length_seq. }
  cbn [w_grants w_mem w_junk_int set_grants].
  (* cur *)
  destruct (granted (tail (tail (tail gs)))) eqn:G3.
  2:{ apply (Hrefused (tail (tail (tail gs)))); [done|]. intros Hall.
      do 2 apply all_granted_step in Hall as [_ Hall].
      by apply all_granted_step in Hall as [_ ?]. }
  cbn [w_grants w_mem w_junk_int set_grants].
  destruct (fill_pass mem g n es deg offset (conj Hel Hread) Hdl Hdeg Hoff
              adj0 Hal) as (adj & cur & Hfillrun & Hfill).
  rewrite Hfillrun.
  cbn [mbind result_bind w_grants w_mem w_junk_int set_grants].
  (* seen, queue *)
  destruct (granted (tail (tail (tail (tail gs))))) eqn:G4.
  2:{ cbn [w_grants w_mem w_junk_int set_grants].
      destruct (granted (tail (tail (tail (tail (tail gs))))));
        (apply (Hrefused (tail (tail (tail (tail gs))))); [done|]);
        intros Hall; do 3 apply all_granted_step in Hall as [_ Hall];
        by apply all_granted_step in Hall as [_ ?]. }
  cbn [w_grants w_mem w_junk_int set_grants].
  destruct (granted (tail (tail (tail (tail (tail gs)))))) eqn:G5.
  2:{ apply (Hrefused (tail (tail (tail (tail (tail gs)))))); [done|].
      intros Hall. do 4 apply all_granted_step in Hall as [_ Hall].
      by apply all_granted_step in Hall as [_ ?]. }
  cbn [w_grants w_mem w_junk_int set_grants].
  rewrite (size_mul_small 4 n)
    by (eapply fits_size_t_le; [|apply (fits_uint32_size n 4 Hn32)]; lia).
  rewrite (Nat.mul_comm 4 n), Nat.div_mul by done.
  destruct (roots_pass n (in_range_edges n es) offset adj (prefix_sum deg)
              Hn32 Hoff) with (fuel := fuel) (sn0 := replicate n 0)
              (qu0 := ji <$> seq 0 n)
    as (sn & qu & comps & Hroots & Hcount_ok).
  - intros v k Hv Hk.
    destruct (slice_sound n es deg Hdl Hdeg adj cur v k Hfill Hv Hk) as (u & Hu & Hin).
    exists u. split; [done|]. by apply elem_of_nbrs.
  - intros v u Hv Hadj.
    apply (slice_complete n es deg Hdl Hdeg adj cur v u Hfill Hv).
    by apply elem_of_nbrs.
  - intros u v. apply adjacent_lt.
  - done.
  - done.
  - by rewrite length_fmap, length_seq.
  - rewrite Hroots. cbn [mbind result_bind]. exists comps. done.
Qed.

End Components.

(** ** The count is a function of the graph *)

Section Count.
Context (n : nat) (es : list (nat * nat)).

Lemma connected_sym_any u v : connected es u v -> connected es v u.
Proof.
  induction 1 as [|x y z Hxy _ IH]; [apply rtc_refl|].
  eapply rtc_r; [exact IH|]. destruct Hxy; [by right|by left].
Qed.

(** A list that maps one-to-one into another is no longer. *)
Lemma injection_length (R : relation nat) (l l' : list nat) :
  NoDup l ->
  (forall x, x ∈ l -> exists y, y ∈ l' /\ R x y) ->
  (forall x x' y, x ∈ l -> x' ∈ l -> R x y -> R x' y -> x = x') ->
  length l <= length l'.
Proof.
  intros Hnd. revert l'.
  induction Hnd as [|x l Hx Hnd IH]; intros l' Hto Hinj; simpl; [lia|].
  destruct (Hto x) as (y & Hy & Hxy); [by left|].
  apply list_elem_of_split in Hy as (l1 & l2 & ->).
  rewrite length_app. simpl.
  specialize (IH (l1 ++ l2)). rewrite length_app in IH.
  cut (length l <= length l1 + length l2); [lia|].
  apply IH.
  - intros x' Hx'. destruct (Hto x') as (y' & Hy' & Hxy'); [by right|].
    exists y'. split; [|done].
    rewrite elem_of_app in Hy'. rewrite elem_of_app.
    destruct Hy' as [?|Hy']; [by left|].
    apply elem_of_cons in Hy' as [->|?]; [|by right].
    exfalso. apply Hx.
    by rewrite (Hinj x x' y (list_elem_of_here _ _) (list_elem_of_further _ _ _ Hx') Hxy Hxy').
  - intros x1 x2 y' H1 H2. apply Hinj; by right.
Qed.

Lemma component_count_le k k' :
  component_count n es k -> component_count n es k' -> k <= k'.
Proof.
  intros (reps & <- & Hnd & Hlt & Hcov & Hsep)
         (reps' & <- & Hnd' & Hlt' & Hcov' & Hsep').
  apply (injection_length (connected es)); [done|..].
  - intros r Hr. destruct (Hcov' r (Hlt r Hr)) as (r' & Hr' & Hc).
    exists r'. split; [done|]. by apply connected_sym_any.
  - intros r1 r2 y H1 H2 Hc1 Hc2. apply Hsep; [done..|].
    etrans; [exact Hc1|]. by apply connected_sym_any.
Qed.

Lemma component_count_unique k k' :
  component_count n es k -> component_count n es k' -> k' = k.
Proof.
  intros H1 H2. apply Nat.le_antisymm; by apply component_count_le.
Qed.

Lemma component_count_pos k : 0 < n -> component_count n es k -> 0 < k.
Proof.
  intros Hn (reps & <- & _ & _ & Hcov & _).
  destruct (Hcov 0 Hn) as (r & Hr & _).
  destruct reps; [by apply elem_of_nil in Hr|simpl; lia].
Qed.

End Count.

Lemma in_range_edges_all n es :
  Forall (edge_in_range n) es -> in_range_edges n es = es.
Proof.
  intros Hall. unfold in_range_edges.
  induction Hall as [|e es He _ IH]; [done|].
  rewrite filter_cons_True by done. by rewrite IH.
Qed.

(** No edge: every node is a component. *)
Lemma connected_nil u v : connected [] u v -> u = v.
Proof.
  induction 1 as [|x y z Hxy _ IH]; [done|].
  destruct Hxy as [Hin|Hin]; by apply elem_of_nil in Hin.
Qed.

Lemma component_count_isolated n : component_count n [] n.
Proof.
  exists (seq 0 n). split; [by rewrite length_seq|].
  split; [apply NoDup_seq|]. split; [|split].
  - intros r Hr. apply elem_of_seq in Hr. lia.
  - intros v Hv. exists v. split; [apply elem_of_seq; lia|apply rtc_refl].
  - intros r r' _ _. apply connected_nil.
Qed.

(** A path: one component. *)
Lemma connected_path n v : v < n -> connected (path_edges n) 0 v.
Proof.
  induction v as [|v IH]; intros Hv; [apply rtc_refl|].
  eapply rtc_r; [apply IH; lia|].
  left. unfold path_edges. apply list_elem_of_fmap. exists v.
  split; [done|]. apply elem_of_seq. lia.
Qed.

Lemma component_count_path n : 0 < n -> component_count n (path_edges n) 1.
Proof.
  intros Hn. exists [0]. split; [done|].
  split; [apply NoDup_singleton|]. split; [|split].
  - intros r Hr. apply list_elem_of_singleton in Hr. lia.
  - intros v Hv. exists 0. split; [apply list_elem_of_here|by apply connected_path].
  - intros r r' Hr Hr' _.
    apply list_elem_of_singleton in Hr, Hr'. congruence.
Qed.

(** Two triangles: two components. *)
Lemma two_triangles_sides u v :
  connected two_triangles u v -> (u < 3 <-> v < 3).
Proof.
  induction 1 as [|x y z Hxy _ IH]; [done|].
  rewrite <- IH. clear IH.
  unfold adjacent, two_triangles in Hxy.
  rewrite !elem_of_cons, !elem_of_nil in Hxy.
  destruct Hxy as [Hxy|Hxy];
    repeat (destruct Hxy as [Hxy|Hxy]; [inversion Hxy; subst; lia|]); done.
Qed.

Lemma component_count_two_triangles : component_count 6 two_triangles 2.
Proof.
  assert (Hstep : forall u v, (u, v) ∈ two_triangles ->
                    connected two_triangles u v).
  { intros u v Huv. apply rtc_once. by left. }
  assert (Hback : forall u v, (v, u) ∈ two_triangles ->
                    connected two_triangles u v).
  { intros u v Huv. apply rtc_once. by right. }
  exists [0; 3]. split; [done|]. split; [|split; [|split]].
  - apply NoDup_cons. split; [|apply NoDup_singleton].
    rewrite list_elem_of_singleton. lia.
  - intros r Hr. rewrite !elem_of_cons, elem_of_nil in Hr. lia.
  - intros v Hv.
    destruct v as [|[|[|[|[|[|v]]]]]]; [..|lia].
    + exists 0. split; [apply list_elem_of_here|apply rtc_refl].
    + exists 0. split; [apply list_elem_of_here|].
      apply Hstep. unfold two_triangles. set_solver.
    + exists 0. split; [apply list_elem_of_here|].
      apply Hback. unfold two_triangles. set_solver.
    + exists 3. split; [set_solver|apply rtc_refl].
    + exists 3. split; [set_solver|].
      apply Hstep. unfold two_triangles. set_solver.
    + exists 3. split; [set_solver|].
      apply Hback. unfold two_triangles. set_solver.
  - intros r r' Hr Hr' Hc. apply two_triangles_sides in Hc.
    rewrite !elem_of_cons, elem_of_nil in Hr, Hr'. lia.
Qed.

(** ** Edge lists in memory *)

Lemma edge_list_none {T} (m : memory T) (g : hil_graph_t) :
  num_edges g = 0 -> edge_list m g [].
Proof. intros Hm. split; [done|]. intros e s d Hl. done. Qed.

Lemma edge_list_cells {T} (m : memory T) (g : hil_graph_t) srcs dsts :
  u32_cells m (src g) srcs -> u32_cells m (dst g) dsts ->
  length srcs = num_edges g -> length dsts = num_edges g ->
  edge_list m g (zip srcs dsts).
Proof.
  intros Hs Hd Hls Hld. split.
  - rewrite length_zip_with. lia.
  - intros e s d Hl. apply lookup_zip_with_Some in Hl as (s' & d' & Heq & Hs' & Hd').
    injection Heq as <- <-.
    destruct Hs as (ls & os & pres & posts & -> & Hms & Hos).
    destruct Hd as (ld & od & pred & postd & -> & Hmd & Hod).
    rewrite (read_u32_block _ _ _ _ _ Hms), (read_u32_block _ _ _ _ _ Hmd).
    split; apply aget_Ok.
    + rewrite lookup_app_r by lia. rewrite lookup_app_l.
      * by replace (os + e - length pres) with e by lia.
      * apply lookup_lt_Some in Hs'. lia.
    + rewrite lookup_app_r by lia. rewrite lookup_app_l.
      * by replace (od + e - length pred) with e by lia.
      * apply lookup_lt_Some in Hd'. lia.
Qed.

Lemma count_edge_skips {T} (m : memory T) (g : hil_graph_t) n e s d deg :
  read_u32 m (src g) e = Ok s -> read_u32 m (dst g) e = Ok d ->
  ~ edge_in_range n (s, d) -> cc_count_edge m g n e deg = Ok deg.
Proof.
  intros Hs Hd Hout. unfold cc_count_edge. rewrite Hs, Hd.
  cbn [mbind result_bind].
  destruct (cc_in_range n s d) eqn:Hr; [|done].
  apply cc_in_range_spec in Hr. by destruct Hout.
Qed.

Lemma fill_edge_skips {T} (m : memory T) (g : hil_graph_t) n offset e s d st :
  read_u32 m (src g) e = Ok s -> read_u32 m (dst g) e = Ok d ->
  ~ edge_in_range n (s, d) -> cc_fill_edge m g n offset e st = Ok st.
Proof.
  intros Hs Hd Hout. unfold cc_fill_edge. destruct st as [adj cur].
  rewrite Hs, Hd. cbn [mbind result_bind].
  destruct (cc_in_range n s d) eqn:Hr; [|done].
  apply cc_in_range_spec in Hr. by destruct Hout.
Qed.

Section ValidRange.
Context {T : Type} {SC : Scalar T}.

(** What [hil_graph_validate] accepts has its edges in range. *)
Lemma validate_edges_in_range (m : memory T) (g : hil_graph_t) e cnt :
  validate_edges m g e cnt = Ok true ->
  forall e' s d, e <= e' < e + cnt ->
    read_u32 m (src g) e' = Ok s -> read_u32 m (dst g) e' = Ok d ->
    s < num_nodes g /\ d < num_nodes g.
Proof.
  revert e. induction cnt as [|k IH]; intros e Hv e' s d He Hs Hd; [lia|].
  simpl in Hv.
  apply bind_Ok in Hv as (s0 & Hs0 & Hv). apply bind_Ok in Hv as (d0 & Hd0 & Hv).
  destruct (decide (num_nodes g ≤ s0)); [done|].
  destruct (decide (num_nodes g ≤ d0)); [done|].
  apply bind_Ok in Hv as (w & Hw & Hv).
  destruct (negb (s_isfinite w)); [done|]. destruct (s_ltb w s_zero); [done|].
  destruct (decide (e' = e)) as [->|Hne].
  - rewrite Hs in Hs0. rewrite Hd in Hd0. simplify_eq. lia.
  - apply (IH (S e) Hv e'); [lia|done..].
Qed.

Lemma validate_in_range (m : memory T) (g : hil_graph_t) es :
  edge_list m g es -> hil_graph_validate m (Some g) = Ok true ->
  0 < num_nodes g /\ Forall (edge_in_range (num_nodes g)) es.
Proof.
  intros [Hlen Hread] Hv. unfold hil_graph_validate in Hv.
  destruct (decide (num_nodes g = 0)); [done|]. split; [lia|].
  destruct (bool_decide (0 < num_edges g)
            && (is_null (src g) || is_null (dst g) || is_null (weight g)));
    [done|].
  apply Forall_lookup. intros i [s d] Hi.
  destruct (Hread i s d Hi) as [Hs Hd].
  apply lookup_lt_Some in Hi.
  apply (validate_edges_in_range m g 0 (num_edges g) Hv i); [lia|done..].
Qed.

End ValidRange.

(** The sample graphs, run. *)
Example five_nodes_run :
  hil_graph_connected_components 5 (Some five_nodes_graph) (world_of ∅ []) = Ok 5.
Proof. vm_compute. reflexivity. Qed.

Example two_triangles_run :
  hil_graph_connected_components 6 (Some two_triangles_graph)
    (world_of two_triangles_memory []) = Ok 2.
Proof. vm_compute. reflexivity. Qed.

(** C1, as stated, fails when the allocator refuses a request: a graph of one
    node, which is one component, is answered with 0. *)
Lemma one_node_refused :
  hil_graph_validate (∅ : memory float) (Some one_node_graph) = Ok true
  /\ num_nodes one_node_graph = 1
  /\ hil_graph_connected_components 1 (Some one_node_graph) (world_of ∅ [false])
     = Ok 0
  /\ component_count 1 [] 1.
Proof.
  split; [reflexivity|]. split; [reflexivity|]. split; [reflexivity|].
  apply component_count_isolated.
Qed.

(** C1: [hil_graph_connected_components] answers 0 for an absent graph and for
    a graph of no node.  For a graph of at least one and fewer than 2^32 nodes
    whose edge arrays can be read and whose edges all lie in the node range,
    when no allocation is refused and the traversal is given [num_nodes]
    rounds, it answers the number of connected components of the undirected
    graph of its edge list; that number is positive, it is [n] for [n] nodes
    without edge, 1 for the path on [n] nodes and 2 for two triangles on 6
    nodes.  A graph that [hil_graph_validate] accepts has at least one node
    and all its edges in the node range. *)
Theorem components_counted :
  (forall T fuel (w : world T),
      hil_graph_connected_components fuel None w = Ok 0)
  /\ (forall T fuel (g : hil_graph_t) (w : world T),
      num_nodes g = 0 -> hil_graph_connected_components fuel (Some g) w = Ok 0)
  /\ (forall T fuel (g : hil_graph_t) (w : world T) es,
      edge_list (w_mem w) g es ->
      Forall (edge_in_range (num_nodes g)) es ->
      0 < num_nodes g -> fits_uint32 (num_nodes g) ->
      fits_size_t (8 * num_edges g) ->
      num_nodes g <= fuel ->
      all_granted (w_grants w) ->
      exists k,
        hil_graph_connected_components fuel (Some g) w = Ok k
        /\ 0 < k
        /\ component_count (num_nodes g) es k
        /\ (forall k', component_count (num_nodes g) es k' -> k' = k)
        /\ (es = [] -> k = num_nodes g)
        /\ (es = path_edges (num_nodes g) -> k = 1)
        /\ (num_nodes g = 6 -> es = two_triangles -> k = 2))
  /\ (forall T (SC : Scalar T) (m : memory T) (g : hil_graph_t) es,
      edge_list m g es -> hil_graph_validate m (Some g) = Ok true ->
      0 < num_nodes g /\ Forall (edge_in_range (num_nodes g)) es).
Proof.
  split; [done|]. split; [|split].
  - intros T fuel g w Hn. unfold hil_graph_connected_components.
    by destruct (decide (num_nodes g = 0)).
  - intros T fuel g w es Hes Hvalid Hn Hn32 Hm Hfuel Hall.
    destruct (components_run fuel g w es Hes Hn Hn32 Hm Hfuel)
      as (k & Hrun & Hcount).
    specialize (Hcount Hall). rewrite in_range_edges_all in Hcount by done.
    exists k. split; [done|]. split; [by eapply component_count_pos|].
    split; [done|]. split; [|split; [|split]].
    + intros k' Hk'. by eapply component_count_unique.
    + intros ->. eapply component_count_unique; [apply component_count_isolated|done].
    + intros ->. eapply component_count_unique; [by apply component_count_path|done].
    + intros H6 ->. rewrite H6 in Hcount.
      eapply component_count_unique; [apply component_count_two_triangles|done].
  - intros T SC m g es. apply validate_in_range.
Qed.

Lemma components_counted_witness :
  hil_graph_connected_components 4 (Some path4_graph) (world_of path4_memory [])
  = Ok 1.
Proof.
  destruct components_counted as (_ & _ & Hcount & _).
  destruct (Hcount float 4 path4_graph (world_of path4_memory [])
              [(0, 1); (1, 2); (2, 3)])
    as (k & Hrun & _ & _ & _ & _ & Hpath & _).
  - apply (edge_list_cells path4_memory path4_graph [0; 1; 2] [1; 2; 3]).
    + exists 1%positive, 0, [], []. repeat split; reflexivity.
    + exists 2%positive, 0, [], []. repeat split; reflexivity.
    + reflexivity.
    + reflexivity.
  - repeat constructor.
  - simpl. lia.
  - unfold fits_uint32. simpl. lia.
  - unfold fits_size_t. simpl. lia.
  - reflexivity.
  - constructor.
  - rewrite Hrun. f_equal. apply Hpath. reflexivity.
Defined.

(** C10, as stated, fails when the allocator refuses a request: the only edge
    of the graph leaves the node range, two components remain, and the answer
    is 0. *)
Lemma stray_edge_refused :
  edge_list stray_edge_memory stray_edge_graph [(0, 5)]
  /\ in_range_edges 2 [(0, 5)] = []
  /\ hil_graph_connected_components 2 (Some stray_edge_graph)
       (world_of stray_edge_memory [true; true; false]) = Ok 0
  /\ component_count 2 (in_range_edges 2 [(0, 5)]) 2.
Proof.
  split; [|split; [reflexivity|split; [reflexivity|]]].
  - apply (edge_list_cells stray_edge_memory stray_edge_graph [0] [5]).
    + exists 1%positive, 0, [], []. repeat split; reflexivity.
    + exists 2%positive, 0, [], []. repeat split; reflexivity.
    + reflexivity.
    + reflexivity.
  - apply component_count_isolated.
Qed.

(** C10: each of the two passes over the edges leaves its arrays as they are
    at an edge with an end outside the node range.  For a graph of at least
    one and fewer than 2^32 nodes whose edge arrays can be read, also one with
    such edges, [hil_graph_connected_components] returns without an access out
    of bounds, whatever the allocator answers, given [num_nodes] rounds of
    traversal; when no allocation is refused its answer is the number of
    connected components of the graph of the in-range edges. *)
Theorem components_skip_stray_edges :
  (forall T (m : memory T) (g : hil_graph_t) n e s d deg,
      read_u32 m (src g) e = Ok s -> read_u32 m (dst g) e = Ok d ->
      ~ edge_in_range n (s, d) -> cc_count_edge m g n e deg = Ok deg)
  /\ (forall T (m : memory T) (g : hil_graph_t) n offset e s d st,
      read_u32 m (src g) e = Ok s -> read_u32 m (dst g) e = Ok d ->
      ~ edge_in_range n (s, d) -> cc_fill_edge m g n offset e st = Ok st)
  /\ (forall T fuel (g : hil_graph_t) (w : world T) es,
      edge_list (w_mem w) g es ->
      0 < num_nodes g -> fits_uint32 (num_nodes g) ->
      fits_size_t (8 * num_edges g) ->
      num_nodes g <= fuel ->
      exists k,
        hil_graph_connected_components fuel (Some g) w = Ok k
        /\ (all_granted (w_grants w) ->
            component_count (num_nodes g) (in_range_edges (num_nodes g) es) k
            /\ forall k',
                 component_count (num_nodes g)
                   (in_range_edges (num_nodes g) es) k' -> k' = k)).
Proof.
  split; [intros T; apply count_edge_skips|].
  split; [intros T; apply fill_edge_skips|].
  intros T fuel g w es Hes Hn Hn32 Hm Hfuel.
  destruct (components_run fuel g w es Hes Hn Hn32 Hm Hfuel)
    as (k & Hrun & Hcount).
  exists k. split; [done|]. intros Hall. split; [by apply Hcount|].
  intros k' Hk'. eapply component_count_unique; [by apply Hcount|exact Hk'].
Qed.

Lemma components_skip_stray_edges_witness :
  hil_graph_connected_components 2 (Some stray_edge_graph)
    (world_of stray_edge_memory []) = Ok 2.
Proof.
  destruct components_skip_stray_edges as (_ & _ & Hcount).
  destruct (Hcount float 2 stray_edge_graph (world_of stray_edge_memory [])
              [(0, 5)])
    as (k & Hrun & Hk).
  - apply (edge_list_cells stray_edge_memory stray_edge_graph [0] [5]).
    + exists 1%positive, 0, [], []. repeat split; reflexivity.
    + exists 2%positive, 0, [], []. repeat split; reflexivity.
    + reflexivity.
    + reflexivity.
  - simpl. lia.
  - unfold fits_uint32. simpl. lia.
  - unfold fits_size_t. simpl. lia.
  - reflexivity.
  - rewrite Hrun. f_equal.
    destruct Hk as [_ Huniq]; [constructor|].
    symmetry. apply Huniq. apply (component_count_isolated 2).
Defined.

(* ====================================================================== *)
(** * Scalar helpers and decay kernels *)

Section FloatClamp.

Lemma ltb_nan_l (m : float) : PrimFloat.ltb nan m = false.
Proof. rewrite ltb_spec. reflexivity. Qed.

Lemma ltb_nan_r (x : float) : PrimFloat.ltb x nan = false.
Proof.
  rewrite ltb_spec. change (Prim2SF nan) with S754_nan.
  by destruct (Prim2SF x) as [[]|[]| |[]].
Qed.

End FloatClamp.

Section ExactScalars.
Local Open Scope R_scope.

Lemma clamp_min_Rmax (x m : R) : hil_clamp_min x m = Rmax x m.
Proof.
  unfold hil_clamp_min. change (s_ltb x m) with (Rltb x m).
  unfold Rmax. destruct (Rle_dec x m) as [Hle|Hgt].
  - destruct (Req_dec x m) as [->|Hne]; [by rewrite Rltb_false by lra|].
    by rewrite Rltb_true by lra.
  - by rewrite Rltb_false by lra.
Qed.

Lemma lim_value : (s_of_size 709 : R) = 709.
Proof. change (s_of_size 709 : R) with (INR 709). rewrite INR_IZR_INZ. reflexivity. Qed.

Lemma safe_exp_clamped (x : R) :
  hil_safe_exp x = exp (Rmax (- 709) (Rmin x 709)).
Proof.
  unfold hil_safe_exp. rewrite lim_value.
  change (@s_ltb R real_scalar) with Rltb.
  change (@s_opp R real_scalar) with Ropp.
  change (@s_exp R real_mathlib_exp) with exp.
  unfold Rmin, Rmax.
  destruct (Rle_dec x 709) as [Hle|Hgt].
  - rewrite (Rltb_false 709 x) by lra.
    destruct (Rle_dec (- 709) x) as [Hle'|Hgt'].
    + by rewrite Rltb_false by lra.
    + rewrite Rltb_true by lra.
      destruct (Rle_dec (-709) x); [lra|done].
  - rewrite (Rltb_true 709 x) by lra. rewrite Rltb_false by lra.
    destruct (Rle_dec (- 709) 709); [done|lra].
Qed.

Lemma exp_le (x y : R) : x <= y -> exp x <= exp y.
Proof.
  intros [Hlt| ->]; [left; by apply exp_increasing|lra].
Qed.

Lemma exp_le_1 (x : R) : x <= 0 -> exp x <= 1.
Proof. intros Hx. rewrite <- exp_0. by apply exp_le. Qed.

End ExactScalars.

Section ExactDecay.
Local Open Scope R_scope.

Lemma ln_le (x y : R) : 0 < x -> x <= y -> ln x <= ln y.
Proof.
  intros Hx [Hlt| ->]; [left; by apply ln_increasing|lra].
Qed.

Lemma Rmax_eps_pos (x : R) : 0 < Rmax x s_eps.
Proof.
  pose proof eps_pos. pose proof (Rmax_r x s_eps). lra.
Qed.

Lemma decay_exponential_late (t tau : R) :
  0 < t ->
  hil_decay_exponential t tau = exp (- Rmin (t / Rmax tau s_eps) 709).
Proof.
  intros Ht. unfold hil_decay_exponential, HIL_EPS.
  rewrite clamp_min_Rmax.
  change (s_leb t s_zero) with (Rleb t 0). rewrite Rleb_false by done.
  rewrite safe_exp_clamped.
  change (s_div (s_opp t) (Rmax tau s_eps)) with (- t / Rmax tau s_eps).
  pose proof (Rmax_eps_pos tau) as Hpos.
  assert (Hq : 0 < t / Rmax tau s_eps) by (by apply Rdiv_lt_0_compat).
  replace (- t / Rmax tau s_eps) with (- (t / Rmax tau s_eps)) by (field; lra).
  set (q := t / Rmax tau s_eps) in *. clearbody q.
  f_equal. unfold Rmin, Rmax.
  destruct (Rle_dec (- q) 709); [|lra].
  destruct (Rle_dec (- 709) (- q)), (Rle_dec q 709); lra.
Qed.

Lemma decay_exponential_early (t tau : R) :
  t <= 0 -> hil_decay_exponential t tau = 1.
Proof.
  intros Ht. unfold hil_decay_exponential.
  change (s_leb t s_zero) with (Rleb t 0). by rewrite Rleb_true.
Qed.

Lemma decay_linear_late (t t_max : R) :
  0 < t -> hil_decay_linear t t_max = Rmax 0 (1 - t / Rmax t_max s_eps).
Proof.
  intros Ht. unfold hil_decay_linear, HIL_EPS. rewrite clamp_min_Rmax.
  change (s_leb t s_zero) with (Rleb t 0). rewrite Rleb_false by done.
  change (s_sub s_one (s_div t (Rmax t_max s_eps)))
    with (1 - t / Rmax t_max s_eps).
  change (@s_ltb R real_scalar) with Rltb. change (@s_zero R real_scalar) with 0.
  set (v := 1 - t / Rmax t_max s_eps). unfold Rmax.
  destruct (Rle_dec 0 v) as [Hle|Hgt].
  - by rewrite Rltb_false.
  - by rewrite Rltb_true by lra.
Qed.

Lemma decay_linear_early (t t_max : R) :
  t <= 0 -> hil_decay_linear t t_max = 1.
Proof.
  intros Ht. unfold hil_decay_linear.
  change (s_leb t s_zero) with (Rleb t 0). by rewrite Rleb_true.
Qed.

Lemma decay_power_early (t alpha : R) :
  t <= 0 -> hil_decay_power t alpha = 1.
Proof.
  intros Ht. unfold hil_decay_power.
  change (s_leb t s_zero) with (Rleb t 0). by rewrite Rleb_true.
Qed.

Lemma decay_power_late (t alpha : R) :
  0 < t -> hil_decay_power t alpha = Rpower (1 + t) (- Rmax alpha 0).
Proof.
  intros Ht. unfold hil_decay_power.
  change (s_leb t s_zero) with (Rleb t 0). rewrite Rleb_false by done.
  change (@s_ltb R real_scalar) with Rltb. change (@s_zero R real_scalar) with 0.
  change (@s_pow R real_mathlib_exp) with Rpower.
  change (@s_add R real_scalar) with Rplus.
  change (@s_one R real_scalar) with 1.
  change (@s_opp R real_scalar) with Ropp.
  unfold Rmax. destruct (Rle_dec alpha 0) as [Hle|Hgt].
  - destruct (Req_dec alpha 0) as [->|Hne]; [by rewrite Rltb_false by lra|].
    by rewrite Rltb_true by lra.
  - by rewrite Rltb_false by lra.
Qed.

End ExactDecay.

(** X1 (clamp): in exact arithmetic [hil_clamp_min x m] is the larger of [x]
    and [m]; in binary64 a NaN is not ordered, so a NaN [x] is returned as it
    is and a NaN bound [m] clamps nothing. *)
Theorem clamp_min_larger_or_nan :
  (forall x m : R, hil_clamp_min x m = Rmax x m)
  /\ (forall m : float, hil_clamp_min nan m = nan)
  /\ (forall x : float, hil_clamp_min x nan = x).
Proof.
  split; [apply clamp_min_Rmax|]. split.
  - intros m. unfold hil_clamp_min.
    change (s_ltb nan m) with (PrimFloat.ltb nan m). by rewrite ltb_nan_l.
  - intros x. unfold hil_clamp_min.
    change (s_ltb x nan) with (PrimFloat.ltb x nan). by rewrite ltb_nan_r.
Qed.

(** X2 (safe log): in exact arithmetic [hil_safe_log x] is the logarithm of
    the larger of [x] and [EPS]: it is defined for every [x], zero and
    negative values included, it is never below [ln EPS], and it does not
    decrease with [x]. *)
Theorem safe_log_floor (x : R) :
  hil_safe_log x = ln (Rmax x s_eps)
  /\ (ln s_eps <= hil_safe_log x)%R
  /\ forall y : R, (x <= y)%R -> (hil_safe_log x <= hil_safe_log y)%R.
Proof.
  assert (Hval : forall z : R, hil_safe_log z = ln (Rmax z s_eps)).
  { intros z. unfold hil_safe_log, HIL_EPS. by rewrite clamp_min_Rmax. }
  pose proof eps_pos as He.
  split; [apply Hval|]. split.
  - rewrite Hval. apply ln_le; [done|apply Rmax_r].
  - intros y Hxy. rewrite !Hval. apply ln_le; [apply Rmax_eps_pos|].
    apply Rmax_case; [|apply Rmax_r].
    etrans; [exact Hxy|apply Rmax_l].
Qed.

Lemma safe_log_floor_witness : (hil_safe_log 0 <= hil_safe_log 1)%R.
Proof.
  apply (proj2 (proj2 (safe_log_floor 0%R)) 1%R). lra.
Defined.

(** X3 (safe exp): in exact arithmetic [hil_safe_exp x] is [exp] of [x]
    clamped to [-709, 709]; it lies between [exp (-709)] and [exp 709] and
    does not decrease with [x]. *)
Theorem safe_exp_bounded (x : R) :
  hil_safe_exp x = exp (Rmax (- 709) (Rmin x 709))
  /\ (exp (- 709) <= hil_safe_exp x <= exp 709)%R
  /\ forall y : R, (x <= y)%R -> (hil_safe_exp x <= hil_safe_exp y)%R.
Proof.
  split; [apply safe_exp_clamped|]. split.
  - rewrite safe_exp_clamped. split; apply exp_le.
    + apply Rmax_l.
    + apply Rmax_case; [lra|apply Rmin_r].
  - intros y Hxy. rewrite !safe_exp_clamped. apply exp_le.
    apply Rle_max_compat_l. by apply Rle_min_compat_r.
Qed.

Lemma safe_exp_bounded_witness : (hil_safe_exp 1000 <= hil_safe_exp 2000)%R.
Proof.
  apply (proj2 (proj2 (safe_exp_bounded 1000%R)) 2000%R). lra.
Defined.

(** X4 (exponential decay): in exact arithmetic [hil_decay_exponential t tau]
    is 1 for [t <= 0] and [exp (- min (t / max tau EPS) 709)] for [t > 0]; it
    lies in (0, 1] and does not increase with [t]. *)
Theorem decay_exponential_range (t tau : R) :
  (0 < hil_decay_exponential t tau <= 1)%R
  /\ ((t <= 0)%R -> hil_decay_exponential t tau = 1%R)
  /\ ((0 < t)%R ->
      hil_decay_exponential t tau = exp (- Rmin (t / Rmax tau s_eps) 709))
  /\ forall t' : R, (t <= t')%R ->
       (hil_decay_exponential t' tau <= hil_decay_exponential t tau)%R.
Proof.
  pose proof (Rmax_eps_pos tau) as Hpos.
  assert (Hrange : forall u : R, (0 < hil_decay_exponential u tau <= 1)%R).
  { intros u. destruct (Rle_lt_dec u 0) as [Hu|Hu].
    - rewrite decay_exponential_early by done. lra.
    - rewrite decay_exponential_late by done. split; [apply exp_pos|].
      apply exp_le_1.
      assert (0 < u / Rmax tau s_eps)%R by (by apply Rdiv_lt_0_compat).
      apply Rmin_case; lra. }
  split; [apply Hrange|]. split; [apply decay_exponential_early|].
  split; [apply decay_exponential_late|].
  intros t' Htt'. destruct (Rle_lt_dec t 0) as [Ht|Ht].
  - rewrite (decay_exponential_early t) by done. apply Hrange.
  - rewrite !decay_exponential_late by lra. apply exp_le.
    apply Ropp_le_contravar. apply Rle_min_compat_r.
    apply Rmult_le_compat_r; [|done]. left. by apply Rinv_0_lt_compat.
Qed.

Lemma decay_exponential_range_witness :
  (hil_decay_exponential 0 1 = 1)%R.
Proof.
  apply (proj1 (proj2 (decay_exponential_range 0%R 1%R))). lra.
Defined.

(** X5 (linear decay): in exact arithmetic [hil_decay_linear t t_max] is 1
    for [t <= 0] and [max 0 (1 - t / max t_max EPS)] for [t > 0]; it lies in
    [0, 1], is 0 from [max t_max EPS] on, and does not increase with [t]. *)
Theorem decay_linear_range (t t_max : R) :
  (0 <= hil_decay_linear t t_max <= 1)%R
  /\ ((t <= 0)%R -> hil_decay_linear t t_max = 1%R)
  /\ ((0 < t)%R ->
      hil_decay_linear t t_max = Rmax 0 (1 - t / Rmax t_max s_eps))
  /\ ((Rmax t_max s_eps <= t)%R -> hil_decay_linear t t_max = 0%R)
  /\ forall t' : R, (t <= t')%R ->
       (hil_decay_linear t' t_max <= hil_decay_linear t t_max)%R.
Proof.
  pose proof (Rmax_eps_pos t_max) as Hpos.
  assert (Hrange : forall u : R, (0 <= hil_decay_linear u t_max <= 1)%R).
  { intros u. destruct (Rle_lt_dec u 0) as [Hu|Hu].
    - rewrite decay_linear_early by done. lra.
    - rewrite decay_linear_late by done. split; [apply Rmax_l|].
      assert (0 < u / Rmax t_max s_eps)%R by (by apply Rdiv_lt_0_compat).
      apply Rmax_case; lra. }
  split; [apply Hrange|]. split; [apply decay_linear_early|].
  split; [apply decay_linear_late|]. split.
  - intros Hlate. rewrite decay_linear_late by lra.
    assert (1 <= t / Rmax t_max s_eps)%R.
    { apply (Rmult_le_reg_r (Rmax t_max s_eps)); [done|].
      unfold Rdiv. rewrite Rmult_assoc, Rinv_l by lra. lra. }
    rewrite Rmax_left; lra.
  - intros t' Htt'. destruct (Rle_lt_dec t 0) as [Ht|Ht].
    + rewrite (decay_linear_early t) by done. apply Hrange.
    + rewrite !decay_linear_late by lra. apply Rle_max_compat_l.
      apply Rplus_le_compat_l, Ropp_le_contravar.
      apply Rmult_le_compat_r; [|done]. left. by apply Rinv_0_lt_compat.
Qed.

Lemma decay_linear_range_witness : (hil_decay_linear 3 2 = 0)%R.
Proof.
  apply (proj1 (proj2 (proj2 (proj2 (decay_linear_range 3%R 2%R))))).
  apply Rmax_case; simpl; lra.
Defined.

(** X6 (power decay): in exact arithmetic [hil_decay_power t alpha] is 1 for
    [t <= 0] and [(1 + t) ^ (- max alpha 0)] for [t > 0]; it lies in (0, 1]
    and does not increase with [t]. *)
Theorem decay_power_range (t alpha : R) :
  (0 < hil_decay_power t alpha <= 1)%R
  /\ ((t <= 0)%R -> hil_decay_power t alpha = 1%R)
  /\ ((0 < t)%R -> hil_decay_power t alpha = Rpower (1 + t) (- Rmax alpha 0))
  /\ forall t' : R, (t <= t')%R ->
       (hil_decay_power t' alpha <= hil_decay_power t alpha)%R.
Proof.
  assert (Ha : (0 <= Rmax alpha 0)%R) by apply Rmax_r.
  assert (Hrange : forall u : R, (0 < hil_decay_power u alpha <= 1)%R).
  { intros u. destruct (Rle_lt_dec u 0) as [Hu|Hu].
    - rewrite decay_power_early by done. lra.
    - rewrite decay_power_late by done. unfold Rpower.
      split; [apply exp_pos|]. apply exp_le_1.
      assert (0 <= ln (1 + u))%R.
      { rewrite <- ln_1. apply ln_le; lra. }
      nra. }
  split; [apply Hrange|]. split; [apply decay_power_early|].
  split; [apply decay_power_late|].
  intros t' Htt'. destruct (Rle_lt_dec t 0) as [Ht|Ht].
  - rewrite (decay_power_early t) by done. apply Hrange.
  - rewrite !decay_power_late by lra. unfold Rpower. apply exp_le.
    assert (ln (1 + t) <= ln (1 + t'))%R by (apply ln_le; lra).
    nra.
Qed.

Lemma decay_power_range_witness : (hil_decay_power (- 1) 2 = 1)%R.
Proof.
  apply (proj1 (proj2 (decay_power_range (- 1)%R 2%R))). lra.
Defined.

(* ====================================================================== *)
(** * Vector helpers *)

Section VectorRuns.
Context {T : Type} {SC : Scalar T}.
Implicit Types (m : memory T) (xs ys pre post : list T).

Lemma vec_norm_at m a xs n :
  f64_cells m a xs -> length xs = n -> hil_vec_norm m a n = Ok (norm_list xs).
Proof.
  intros (l & o & pre & post & -> & Hl & Ho) Hn.
  by apply (vec_norm_cells m l o n pre xs post).
Qed.

Lemma vec_dot_at m a b xs ys n :
  f64_cells m a xs -> f64_cells m b ys -> length xs = n -> length ys = n ->
  hil_vec_dot m a b n = Ok (dot_list xs ys).
Proof.
  intros (l & o & pre & post & -> & Hl & Ho)
         (l' & o' & pre' & post' & -> & Hl' & Ho') Hn Hn'.
  by apply (vec_dot_cells m l o n pre xs post l' o' pre' ys post').
Qed.

(** The norm is the square root of the dot product of the array with itself,
    rounding included, and faults where it faults. *)
Lemma vec_norm_dot m a n :
  hil_vec_norm m a n = (s ← hil_vec_dot m a a n; Ok (s_sqrt s)).
Proof.
  unfold hil_vec_norm, hil_vec_dot. f_equal.
  apply for_range_ext. intros i s _. by destruct (read_f64 m a i).
Qed.

Lemma vec_copy_cells m l o pre row post l' o' pre' row' post' n :
  l' <> l ->
  m !! l = Some (F64 (pre ++ row ++ post)) -> length pre = o ->
  m !! l' = Some (F64 (pre' ++ row' ++ post')) -> length pre' = o' ->
  length row = n -> length row' = n ->
  hil_vec_copy m (Some (l', o')) (Some (l, o)) n
  = Ok (<[l' := F64 (pre' ++ row ++ post')]> m).
Proof.
  intros Hne Hl Ho Hl' Ho' Hn Hn'.
  rewrite <- (memcpy_cells m l o pre row post l' o' pre' row' post' (n * 8))
    by (done || lia || by rewrite Nat.div_mul).
  unfold hil_vec_copy, memcpy_f64. by rewrite Nat.div_mul.
Qed.

End VectorRuns.

Section ExactVectors.
Local Open Scope R_scope.
Implicit Types (xs ys : list R).

Lemma dot_list_from (a : R) xs ys :
  foldl (fun s xy => s + xy.1 * xy.2) a (zip xs ys) = a + dot_list xs ys.
Proof.
  unfold dot_list. change (@s_zero R real_scalar) with 0.
  change (@s_add R real_scalar) with Rplus.
  change (@s_mul R real_scalar) with Rmult.
  set (f := fun (s : R) (xy : R * R) => s + xy.1 * xy.2).
  revert a ys. induction xs as [|x xs IH]; intros a ys; [simpl; lra|].
  destruct ys as [|y ys]; [simpl; lra|].
  cbn [zip_with foldl]. rewrite (IH (f a (x, y))), (IH (f 0 (x, y))).
  unfold f at 1 3. simpl. lra.
Qed.

Lemma dot_list_cons x xs y ys :
  dot_list (x :: xs) (y :: ys) = x * y + dot_list xs ys.
Proof.
  unfold dot_list at 1. change (@s_zero R real_scalar) with 0.
  change (@s_add R real_scalar) with Rplus.
  change (@s_mul R real_scalar) with Rmult.
  cbn [zip_with foldl]. rewrite dot_list_from. simpl. lra.
Qed.

Lemma dot_list_nil_r xs : dot_list xs [] = 0.
Proof. unfold dot_list. by destruct xs. Qed.

Lemma cauchy_schwarz_step (x y A B D : R) :
  0 <= A -> 0 <= B -> D * D <= A * B ->
  (x * y + D) * (x * y + D) <= (x * x + A) * (y * y + B).
Proof.
  intros HA HB HD.
  assert (Hmix : 2 * (x * y * D) <= x * x * B + y * y * A).
  { destruct (Rle_lt_dec (2 * (x * y * D)) (x * x * B + y * y * A)) as [|Hlt];
      [done|exfalso].
    pose proof (Rle_0_sqr (x * x * B - y * y * A)) as H1. unfold Rsqr in H1.
    pose proof (Rle_0_sqr (x * y)) as Hxy. unfold Rsqr in Hxy.
    pose proof (Rle_0_sqr x) as Hxx. unfold Rsqr in Hxx.
    pose proof (Rle_0_sqr y) as Hyy. unfold Rsqr in Hyy.
    assert (H2 : 0 <= (x * y) * (x * y) * (A * B - D * D)).
    { apply Rmult_le_pos; lra. }
    assert (HP : 0 <= x * x * B + y * y * A).
    { apply Rplus_le_le_0_compat; by apply Rmult_le_pos. }
    pose proof (Rmult_le_0_lt_compat _ _ _ _ HP HP Hlt Hlt) as HPQ.
    assert (E : (x * x * B + y * y * A) * (x * x * B + y * y * A)
                - 2 * (x * y * D) * (2 * (x * y * D))
                = (x * x * B - y * y * A) * (x * x * B - y * y * A)
                  + 4 * ((x * y) * (x * y) * (A * B - D * D))) by ring.
    lra. }
  nra.
Qed.

Lemma cauchy_schwarz_sq xs ys :
  dot_list xs ys * dot_list xs ys <= sum_sq xs * sum_sq ys.
Proof.
  revert ys. induction xs as [|x xs IH]; intros ys.
  - unfold dot_list, sum_sq at 1. simpl. lra.
  - destruct ys as [|y ys].
    + rewrite dot_list_nil_r. pose proof (sum_sq_nonneg (x :: xs)).
      unfold sum_sq at 2. simpl. lra.
    + rewrite dot_list_cons, !sum_sq_cons.
      apply cauchy_schwarz_step; [apply sum_sq_nonneg..|apply IH].
Qed.

Lemma norm_list_nonneg xs : 0 <= norm_list xs.
Proof. unfold norm_list. apply sqrt_pos. Qed.

Lemma norm_list_sq xs : norm_list xs * norm_list xs = sum_sq xs.
Proof. unfold norm_list. apply sqrt_sqrt, sum_sq_nonneg. Qed.

Lemma cauchy_schwarz xs ys :
  Rabs (dot_list xs ys) <= norm_list xs * norm_list ys.
Proof.
  pose proof (cauchy_schwarz_sq xs ys) as Hsq.
  pose proof (norm_list_nonneg xs) as Hx. pose proof (norm_list_nonneg ys) as Hy.
  rewrite <- (norm_list_sq xs), <- (norm_list_sq ys) in Hsq.
  assert (Hsq' : Rsqr (dot_list xs ys) <= Rsqr (norm_list xs * norm_list ys)).
  { unfold Rsqr.
    replace (norm_list xs * norm_list ys * (norm_list xs * norm_list ys))
      with (norm_list xs * norm_list xs * (norm_list ys * norm_list ys)) by ring.
    done. }
  apply Rsqr_le_abs_0 in Hsq'.
  rewrite (Rabs_right (norm_list xs * norm_list ys)) in Hsq'; [done|].
  apply Rle_ge. by apply Rmult_le_pos.
Qed.

End ExactVectors.

Section ExactNorms.
Local Open Scope R_scope.
Implicit Types (xs ys : list R).

Lemma sum_sq_add xs : forall ys,
  length ys = length xs ->
  sum_sq (zip_with Rplus xs ys) = sum_sq xs + 2 * dot_list xs ys + sum_sq ys.
Proof.
  induction xs as [|x xs IH]; intros [|y ys] Hlen; try discriminate.
  - unfold sum_sq, dot_list. simpl. lra.
  - cbn [zip_with]. rewrite !sum_sq_cons, dot_list_cons, IH by (simpl in Hlen; lia).
    lra.
Qed.

Lemma norm_list_add xs ys :
  length ys = length xs ->
  norm_list (zip_with Rplus xs ys) <= norm_list xs + norm_list ys.
Proof.
  intros Hlen.
  pose proof (norm_list_nonneg xs) as Hx. pose proof (norm_list_nonneg ys) as Hy.
  pose proof (cauchy_schwarz xs ys) as Hcs.
  pose proof (Rle_abs (dot_list xs ys)) as Habs.
  apply Rsqr_incr_0_var; [|lra].
  unfold Rsqr. rewrite norm_list_sq, sum_sq_add by done.
  replace ((norm_list xs + norm_list ys) * (norm_list xs + norm_list ys))
    with (norm_list xs * norm_list xs + 2 * (norm_list xs * norm_list ys)
          + norm_list ys * norm_list ys) by ring.
  rewrite !norm_list_sq. lra.
Qed.

Lemma norm_list_scale (k : R) xs :
  norm_list ((fun x => x * k) <$> xs) = Rabs k * norm_list xs.
Proof.
  unfold norm_list. change (@s_sqrt R real_scalar) with R_sqrt.sqrt.
  rewrite sum_sq_scale.
  rewrite sqrt_mult; [|nra|apply sum_sq_nonneg].
  f_equal. apply sqrt_Rsqr_abs.
Qed.

Lemma sum_sq_zero_iff xs : sum_sq xs = 0 <-> Forall (fun x => x = 0) xs.
Proof.
  induction xs as [|x xs IH].
  - split; [constructor|]. intros _. unfold sum_sq. reflexivity.
  - rewrite sum_sq_cons, Forall_cons, <- IH.
    pose proof (sum_sq_nonneg xs). split.
    + intros Hsum. split; nra.
    + intros [-> ->]. lra.
Qed.

Lemma norm_list_zero_iff xs : norm_list xs = 0 <-> Forall (fun x => x = 0) xs.
Proof.
  rewrite <- sum_sq_zero_iff. unfold norm_list.
  change (@s_sqrt R real_scalar) with R_sqrt.sqrt. split.
  - intros Hs. apply sqrt_eq_0; [apply sum_sq_nonneg|done].
  - intros ->. apply sqrt_0.
Qed.

End ExactNorms.

(** X7 (copy): [hil_vec_copy] of [n] cells between two blocks leaves the [n]
    source cells in the destination; the cells around them and every other
    block keep their contents. *)
Theorem vec_copy_copies (T : Type) (SC : Scalar T) (m : memory T)
  l o pre row post l' o' pre' old post' n :
  l' <> l ->
  m !! l = Some (F64 (pre ++ row ++ post)) -> length pre = o ->
  m !! l' = Some (F64 (pre' ++ old ++ post')) -> length pre' = o' ->
  length row = n -> length old = n ->
  hil_vec_copy m (Some (l', o')) (Some (l, o)) n
  = Ok (<[l' := F64 (pre' ++ row ++ post')]> m).
Proof. intros. by eapply vec_copy_cells. Qed.

Lemma vec_copy_copies_witness :
  hil_vec_copy (two_vectors [1; 2; 3]%float [7; 8; 9; 10]%float)
    (Some (2%positive, 1)) (Some (1%positive, 0)) 3
  = Ok (<[2%positive := F64 [7; 1; 2; 3]%float]>
          (two_vectors [1; 2; 3]%float [7; 8; 9; 10]%float)).
Proof.
  apply (vec_copy_copies float float_scalar
           (two_vectors [1; 2; 3]%float [7; 8; 9; 10]%float)
           1%positive 0 [] [1; 2; 3]%float []
           2%positive 1 [7%float] [8; 9; 10]%float [] 3);
    (done || reflexivity).
Defined.

(** X8 (norm and dot): for every scalar type, rounding included,
    [hil_vec_norm a n] is the square root of [hil_vec_dot a a n], and it is
    undefined on the same arrays. *)
Theorem vec_norm_is_sqrt_dot (T : Type) (SC : Scalar T) (m : memory T)
  (a : ptr) (n : nat) :
  hil_vec_norm m a n = (s ← hil_vec_dot m a a n; Ok (s_sqrt s)).
Proof. apply vec_norm_dot. Qed.

(** X9 (Cauchy-Schwarz): in exact arithmetic the dot product of two arrays of
    [n] cells is at most the product of their norms, in absolute value. *)
Theorem vec_dot_cauchy_schwarz (m : memory R) (a b : ptr) xs ys (n : nat) :
  f64_cells m a xs -> f64_cells m b ys -> length xs = n -> length ys = n ->
  exists d na nb : R,
    hil_vec_dot m a b n = Ok d /\ hil_vec_norm m a n = Ok na
    /\ hil_vec_norm m b n = Ok nb /\ (Rabs d <= na * nb)%R.
Proof.
  intros Ha Hb Hn Hn'.
  exists (dot_list xs ys), (norm_list xs), (norm_list ys).
  split; [by apply vec_dot_at|]. split; [by apply vec_norm_at|].
  split; [by apply vec_norm_at|]. apply cauchy_schwarz.
Qed.

Lemma vec_dot_cauchy_schwarz_witness :
  exists d na nb : R,
    hil_vec_dot (two_vectors [3; 4]%R [1; 2]%R) (Some (1%positive, 0))
      (Some (2%positive, 0)) 2 = Ok d
    /\ hil_vec_norm (two_vectors [3; 4]%R [1; 2]%R) (Some (1%positive, 0)) 2 = Ok na
    /\ hil_vec_norm (two_vectors [3; 4]%R [1; 2]%R) (Some (2%positive, 0)) 2 = Ok nb
    /\ (Rabs d <= na * nb)%R.
Proof.
  apply (vec_dot_cauchy_schwarz (two_vectors [3; 4]%R [1; 2]%R) _ _
           [3; 4]%R [1; 2]%R 2).
  - exists 1%positive, 0, [], []. repeat split; reflexivity.
  - exists 2%positive, 0, [], []. repeat split; reflexivity.
  - reflexivity.
  - reflexivity.
Defined.

(** X10 (triangle inequality): in exact arithmetic, after
    [hil_vec_add_inplace dst src n] the norm of [dst] is at most the sum of
    the norms that [dst] and [src] had. *)
Theorem vec_add_norm_triangle (m : memory R)
  l o pre xs post l' o' pre' ys post' (n : nat) :
  l <> l' ->
  m !! l = Some (F64 (pre ++ xs ++ post)) -> length pre = o ->
  m !! l' = Some (F64 (pre' ++ ys ++ post')) -> length pre' = o' ->
  length xs = n -> length ys = n ->
  exists m' nd,
    hil_vec_add_inplace m (Some (l, o)) (Some (l', o')) n = Ok m'
    /\ hil_vec_norm m' (Some (l, o)) n = Ok nd
    /\ (nd <= norm_list xs + norm_list ys)%R
    /\ hil_vec_norm m (Some (l, o)) n = Ok (norm_list xs)
    /\ hil_vec_norm m (Some (l', o')) n = Ok (norm_list ys).
Proof.
  intros Hne Hl Ho Hl' Ho' Hn Hn'.
  eexists _, _. split; [by eapply vec_add_cells|]. split.
  - eapply vec_norm_cells; [apply lookup_insert_eq|done|].
    rewrite length_zip_with. lia.
  - split; [apply norm_list_add; lia|].
    split; by eapply vec_norm_cells.
Qed.

Lemma vec_add_norm_triangle_witness :
  exists m' nd,
    hil_vec_add_inplace (two_vectors [3; 4]%R [1; 2]%R) (Some (1%positive, 0))
      (Some (2%positive, 0)) 2 = Ok m'
    /\ hil_vec_norm m' (Some (1%positive, 0)) 2 = Ok nd
    /\ (nd <= norm_list [3; 4] + norm_list [1; 2])%R
    /\ hil_vec_norm (two_vectors [3; 4]%R [1; 2]%R) (Some (1%positive, 0)) 2
       = Ok (norm_list [3; 4]%R)
    /\ hil_vec_norm (two_vectors [3; 4]%R [1; 2]%R) (Some (2%positive, 0)) 2
       = Ok (norm_list [1; 2]%R).
Proof.
  apply (vec_add_norm_triangle (two_vectors [3; 4]%R [1; 2]%R)
           1%positive 0 [] [3; 4]%R [] 2%positive 0 [] [1; 2]%R [] 2);
    (done || reflexivity).
Defined.

(** X11 (scaling): in exact arithmetic, after [hil_vec_scale_inplace dst n k]
    the norm of [dst] is [|k|] times the norm it had. *)
Theorem vec_scale_norm (m : memory R) l o pre xs post (n : nat) (k : R) :
  m !! l = Some (F64 (pre ++ xs ++ post)) -> length pre = o -> length xs = n ->
  exists m',
    hil_vec_scale_inplace m (Some (l, o)) n k = Ok m'
    /\ hil_vec_norm m' (Some (l, o)) n = Ok (Rabs k * norm_list xs)%R
    /\ hil_vec_norm m (Some (l, o)) n = Ok (norm_list xs).
Proof.
  intros Hl Ho Hn. eexists. split; [by eapply vec_scale_cells|]. split.
  - rewrite <- norm_list_scale.
    eapply vec_norm_cells; [apply lookup_insert_eq|done|].
    by rewrite length_fmap.
  - by eapply vec_norm_cells.
Qed.

Lemma vec_scale_norm_witness :
  exists m',
    hil_vec_scale_inplace (two_vectors [3; 4]%R [1; 2]%R) (Some (1%positive, 0)) 2
      (- 2)%R = Ok m'
    /\ hil_vec_norm m' (Some (1%positive, 0)) 2
       = Ok (Rabs (- 2) * norm_list [3; 4])%R
    /\ hil_vec_norm (two_vectors [3; 4]%R [1; 2]%R) (Some (1%positive, 0)) 2
       = Ok (norm_list [3; 4]%R).
Proof.
  apply (vec_scale_norm (two_vectors [3; 4]%R [1; 2]%R) 1%positive 0 []
           [3; 4]%R [] 2 (- 2)%R); (done || reflexivity).
Defined.

(** X12 (zero): in exact arithmetic the norm of an array is never negative
    and is 0 exactly when every cell is 0; after [hil_vec_zero dst n] the
    norm of [dst] is 0, in binary64 as well. *)
Theorem vec_norm_definite :
  (forall (m : memory R) a xs n,
      f64_cells m a xs -> length xs = n ->
      exists na : R,
        hil_vec_norm m a n = Ok na /\ (0 <= na)%R
        /\ (na = 0%R <-> Forall (fun x => x = 0%R) xs))
  /\ (forall (m : memory R) l o pre xs post n,
      m !! l = Some (F64 (pre ++ xs ++ post)) -> length pre = o ->
      length xs = n ->
      exists m', hil_vec_zero m (Some (l, o)) n = Ok m'
                 /\ hil_vec_norm m' (Some (l, o)) n = Ok 0%R)
  /\ (forall (m : memory float) l o pre xs post n,
      m !! l = Some (F64 (pre ++ xs ++ post)) -> length pre = o ->
      length xs = n ->
      exists m', hil_vec_zero m (Some (l, o)) n = Ok m'
                 /\ hil_vec_norm m' (Some (l, o)) n = Ok 0%float).
Proof.
  split; [|split].
  - intros m a xs n Ha Hn. exists (norm_list xs).
    split; [by apply vec_norm_at|]. split; [apply norm_list_nonneg|].
    apply norm_list_zero_iff.
  - intros m l o pre xs post n Hl Ho Hn. eexists.
    split; [by eapply vec_zero_cells|].
    erewrite vec_norm_cells;
      [|apply lookup_insert_eq|done|by rewrite length_replicate].
    f_equal. apply norm_list_zero_iff. apply Forall_replicate. reflexivity.
  - intros m l o pre xs post n Hl Ho Hn. eexists.
    split; [by eapply vec_zero_cells|].
    erewrite vec_norm_cells;
      [|apply lookup_insert_eq|done|by rewrite length_replicate].
    f_equal. unfold norm_list, sum_sq.
    assert (Hz : forall k (s : float), s = 0%float ->
              foldl (fun s x => s_add s (s_mul x x)) s (replicate k s_zero)
              = 0%float).
    { induction k as [|k IH]; intros s ->; [done|]. simpl. by apply IH. }
    rewrite Hz by done. reflexivity.
Qed.

Lemma vec_norm_definite_witness :
  exists m', hil_vec_zero (two_vectors [3; 4]%float [1; 2]%float)
               (Some (1%positive, 0)) 2 = Ok m'
             /\ hil_vec_norm m' (Some (1%positive, 0)) 2 = Ok 0%float.
Proof.
  destruct vec_norm_definite as (_ & _ & Hzero).
  apply (Hzero (two_vectors [3; 4]%float [1; 2]%float) 1%positive 0 []
           [3; 4]%float [] 2); (done || reflexivity).
Defined.

(* ====================================================================== *)
(** * Density *)

Section ExactDensity.
Local Open Scope R_scope.

Lemma density_few_nodes (g : hil_graph_t) :
  (num_nodes g <= 1)%nat -> hil_graph_density (Some g) = 0.
Proof.
  intros Hn. unfold hil_graph_density.
  change (@s_leb R real_scalar) with Rleb.
  change (s_of_size (num_nodes g) : R) with (INR (num_nodes g)).
  rewrite Rleb_true; [done|].
  change (@s_one R real_scalar) with (INR 1). by apply le_INR.
Qed.

Lemma density_ratio (g : hil_graph_t) :
  (2 <= num_nodes g)%nat ->
  hil_graph_density (Some g)
  = Rmin 1 (2 * INR (num_edges g) / (INR (num_nodes g) * (INR (num_nodes g) - 1))).
Proof.
  intros Hn. unfold hil_graph_density.
  change (@s_leb R real_scalar) with Rleb.
  change (@s_ltb R real_scalar) with Rltb.
  change (@s_of_size R real_scalar) with INR.
  change (@s_one R real_scalar) with 1.
  change (@s_zero R real_scalar) with 0.
  change (@s_div R real_scalar) with Rdiv.
  change (@s_mul R real_scalar) with Rmult.
  change (@s_sub R real_scalar) with Rminus.
  assert (HN : 2 <= INR (num_nodes g)).
  { change 2 with (INR 2). by apply le_INR. }
  assert (HE : 0 <= INR (num_edges g)) by apply pos_INR.
  set (N := INR (num_nodes g)) in *. set (E := INR (num_edges g)) in *.
  replace (INR 2) with 2 by (simpl; lra).
  assert (Hmax : 0 < N * (N - 1) / 2) by nra.
  rewrite (Rleb_false N 1) by lra.
  rewrite (Rleb_false (N * (N - 1) / 2) 0) by done.
  assert (Hd : 0 <= E / (N * (N - 1) / 2)).
  { apply Rmult_le_pos; [done|]. left. by apply Rinv_0_lt_compat. }
  rewrite (Rltb_false (E / (N * (N - 1) / 2)) 0) by done.
  replace (2 * E / (N * (N - 1))) with (E / (N * (N - 1) / 2)) by (field; nra).
  unfold Rmin. destruct (Rle_dec 1 (E / (N * (N - 1) / 2))) as [Hle|Hgt].
  - destruct (Req_dec 1 (E / (N * (N - 1) / 2))) as [Heq|Hne].
    + rewrite Rltb_false by lra. done.
    + by rewrite Rltb_true by lra.
  - by rewrite Rltb_false by lra.
Qed.

End ExactDensity.

(** X13 (density, range): [hil_graph_density] never returns a value below 0
    or above 1: in binary64 the result is neither less than 0 nor greater
    than 1, in exact arithmetic it lies in [0, 1]. *)
Theorem density_in_unit_interval :
  (forall graph : option hil_graph_t,
      PrimFloat.ltb (hil_graph_density graph) 0 = false
      /\ PrimFloat.ltb 1 (hil_graph_density graph) = false)
  /\ (forall graph : option hil_graph_t,
      (0 <= hil_graph_density graph <= 1)%R).
Proof.
  split.
  - intros [g|]; [|split; reflexivity]. unfold hil_graph_density.
    change (@s_ltb float float_scalar) with PrimFloat.ltb.
    change (@s_zero float float_scalar) with 0%float.
    change (@s_one float float_scalar) with 1%float.
    destruct (s_leb _ _); [split; reflexivity|].
    destruct (s_leb _ _); [split; reflexivity|].
    set (d := s_div _ _). clearbody d.
    destruct (PrimFloat.ltb d 0) eqn:Hlow.
    + split; reflexivity.
    + destruct (PrimFloat.ltb 1 d) eqn:Hhigh; [split; reflexivity|done].
  - intros [g|]; [|simpl; lra].
    destruct (le_lt_dec (num_nodes g) 1) as [Hn|Hn].
    + rewrite density_few_nodes by done. lra.
    + rewrite density_ratio by lia.
      assert (HN : (2 <= INR (num_nodes g))%R).
      { change 2%R with (INR 2). apply le_INR. lia. }
      pose proof (pos_INR (num_edges g)) as HE.
      split; [|apply Rmin_l].
      apply Rmin_glb; [lra|].
      apply Rmult_le_pos; [lra|]. left. apply Rinv_0_lt_compat. nra.
Qed.

(** X14 (density, value): in exact arithmetic [hil_graph_density] is 0 for an
    absent graph and for a graph of at most one node; for [n >= 2] nodes and
    [e] edges it is [2 e / (n (n - 1))], capped at 1. *)
Theorem density_value (g : hil_graph_t) :
  hil_graph_density (T := R) None = 0%R
  /\ (num_nodes g <= 1 -> hil_graph_density (Some g) = 0%R)
  /\ (2 <= num_nodes g ->
      hil_graph_density (Some g)
      = Rmin 1 (2 * INR (num_edges g)
                / (INR (num_nodes g) * (INR (num_nodes g) - 1)))).
Proof.
  split; [done|]. split; [apply density_few_nodes|apply density_ratio].
Qed.

Lemma density_value_witness :
  hil_graph_density (Some triangle_graph) = Rmin 1 (2 * INR 3 / (INR 3 * (INR 3 - 1))).
Proof.
  apply (proj2 (proj2 (density_value triangle_graph))). simpl. lia.
Defined.

(* ====================================================================== *)
(** * Mean norm *)

Section MeanNorm.
Context {T : Type} {SC : Scalar T}.
Implicit Types (m : memory T) (row pre post xs : list T).

Lemma norm_loop M l o m cnt : forall r pre xs post (s : T),
  data M = Some (l, o) ->
  m !! l = Some (F64 (pre ++ xs ++ post)) ->
  length pre = o + r * cols M -> length xs = cnt * cols M ->
  for_range r cnt
    (fun r s =>
       let row := ptr_add (data M) (r * cols M) in
       x ← hil_vec_norm m row (cols M);
       Ok (s_add s x)) s
  = Ok (foldl (fun s row => s_add s (norm_list row)) s
          (chunks (cols M) cnt xs)).
Proof.
  induction cnt as [|k IH]; intros r pre xs post s HM Hl Hpre Hxs.
  - done.
  - simpl in *. rewrite HM. simpl ptr_add.
    pose proof Hl as Hl0.
    rewrite <- (take_drop (cols M) xs) in Hl. rewrite <- (assoc_L (++)) in Hl.
    rewrite (vec_norm_cells m l (o + r * cols M) (cols M) pre
               (take (cols M) xs) _ Hl)
      by (done || rewrite length_take; lia).
    simpl.
    specialize (IH (S r) (pre ++ take (cols M) xs) (drop (cols M) xs) post
                  (s_add s (norm_list (take (cols M) xs))) HM).
    rewrite HM in IH. simpl in IH. apply IH.
    + by rewrite <- (assoc_L (++)).
    + rewrite length_app, length_take. simpl. lia.
    + rewrite length_drop. lia.
Qed.

Lemma mean_norm_run m (f : hil_field_t) xs :
  field_cells m f xs ->
  0 < rows (coordinates f) -> 0 < cols (coordinates f) ->
  hil_field_mean_norm m (Some f)
  = Ok (mean_norm_of (chunks (cols (coordinates f)) (rows (coordinates f)) xs)).
Proof.
  intros (l & o & pre & post & HM & Hl & Hpre & Hxs) Hr Hc.
  unfold hil_field_mean_norm.
  rewrite (matrix_empty_false _ l o) by done.
  rewrite (norm_loop (coordinates f) l o m (rows (coordinates f)) 0 pre xs post)
    by (done || lia).
  simpl. unfold mean_norm_of. by rewrite length_chunks.
Qed.

Lemma chunks_perturb epsilon cols cnt : forall r xs,
  length xs = cnt * cols ->
  chunks cols cnt (perturb_spec epsilon cols r cnt xs)
  = perturbed_rows epsilon cols r (chunks cols cnt xs).
Proof.
  unfold perturbed_rows.
  induction cnt as [|k IH]; intros r xs Hxs; simpl in *; [done|].
  assert (Hrow : length (renormalize (shift_row epsilon cols r (take cols xs)))
                 = cols).
  { rewrite length_renormalize. unfold shift_row.
    rewrite length_imap, length_take. lia. }
  rewrite take_app_length' by done. rewrite drop_app_length' by done.
  rewrite Nat.add_0_r. f_equal.
  rewrite IH by (rewrite length_drop; lia).
  apply imap_ext. intros i row _. simpl. do 2 f_equal. lia.
Qed.

End MeanNorm.

Section ExactMeanNorm.
Local Open Scope R_scope.

Lemma sum_norms_nonneg (rs : list (list R)) : forall a : R,
  0 <= a -> 0 <= foldl (fun s row => s + norm_list row) a rs.
Proof.
  induction rs as [|row rs IH]; intros a Ha; [done|].
  cbn [foldl]. apply IH. pose proof (norm_list_nonneg row). lra.
Qed.

Lemma mean_norm_nonneg (rs : list (list R)) : 0 <= mean_norm_of rs.
Proof.
  unfold mean_norm_of.
  change (@s_div R real_scalar) with Rdiv.
  change (@s_add R real_scalar) with Rplus.
  change (@s_zero R real_scalar) with 0.
  change (@s_of_size R real_scalar) with INR.
  destruct rs as [|row rs].
  - simpl. lra.
  - apply Rmult_le_pos; [apply sum_norms_nonneg; lra|].
    left. apply Rinv_0_lt_compat. apply lt_0_INR. simpl. lia.
Qed.

Lemma mean_norm_unit (rs : list (list R)) :
  rs <> [] -> Forall (fun row => norm_list row = 1) rs -> mean_norm_of rs = 1.
Proof.
  intros Hne Hall. unfold mean_norm_of.
  change (@s_div R real_scalar) with Rdiv.
  change (@s_add R real_scalar) with Rplus.
  change (@s_zero R real_scalar) with 0.
  change (@s_of_size R real_scalar) with INR.
  rewrite (count_ones norm_list).
  - assert (0 < INR (length rs)).
    { apply lt_0_INR. destruct rs; [done|simpl; lia]. }
    field. lra.
  - intros row Hrow. by apply (proj1 (Forall_forall _ _) Hall).
Qed.

End ExactMeanNorm.

(** X15 (mean norm): [hil_field_mean_norm] returns the mean of the Euclidean
    norms of the rows of the field, for every scalar type; it returns 0 for an
    absent and for an empty field, and in exact arithmetic it is never
    negative. *)
Theorem mean_norm_refines_spec :
  (forall (T : Type) (SC : Scalar T) (m : memory T) (f : hil_field_t) xs,
      field_cells m f xs ->
      0 < rows (coordinates f) -> 0 < cols (coordinates f) ->
      hil_field_mean_norm m (Some f)
      = Ok (mean_norm_of
              (chunks (cols (coordinates f)) (rows (coordinates f)) xs)))
  /\ (forall (T : Type) (SC : Scalar T) (m : memory T),
      hil_field_mean_norm m None = Ok s_zero)
  /\ (forall (T : Type) (SC : Scalar T) (m : memory T) (f : hil_field_t),
      matrix_empty (coordinates f) = true ->
      hil_field_mean_norm m (Some f) = Ok s_zero)
  /\ (forall rs : list (list R), (0 <= mean_norm_of rs)%R).
Proof.
  split; [intros T SC; apply mean_norm_run|]. split; [done|]. split.
  - intros T SC m f He. unfold hil_field_mean_norm. by rewrite He.
  - apply mean_norm_nonneg.
Qed.

Lemma mean_norm_refines_spec_witness :
  hil_field_mean_norm demo_field_memory (Some demo_field)
  = Ok (mean_norm_of [[1; 2; 3]; [1; 2; 4]]%float).
Proof.
  destruct mean_norm_refines_spec as (Hrun & _).
  apply (Hrun float float_scalar demo_field_memory demo_field
           [1; 2; 3; 1; 2; 4]%float).
  - exists 1%positive, 0, [], [].
    split; [reflexivity|]. split; [reflexivity|]. split; reflexivity.
  - simpl. lia.
  - simpl. lia.
Defined.

(** X16 (perturbation, then mean norm): in exact arithmetic, when every row
    of the field has a norm above [EPS] once [epsilon * det_sign] is added,
    [hil_field_perturb] leaves a field whose [hil_field_mean_norm] is 1. *)
Theorem perturb_then_mean_norm (m : memory R) (f : hil_field_t) (epsilon : R) xs :
  field_cells m f xs ->
  0 < rows (coordinates f) -> 0 < cols (coordinates f) ->
  (forall i row,
      chunks (cols (coordinates f)) (rows (coordinates f)) xs !! i = Some row ->
      (s_eps < norm_list (shift_row epsilon (cols (coordinates f)) i row))%R) ->
  exists m',
    hil_field_perturb m (Some f) epsilon = Ok m'
    /\ hil_field_mean_norm m' (Some f) = Ok 1%R.
Proof.
  intros Hcells Hr Hc Hrows.
  destruct (perturb_run m f epsilon xs Hcells Hr Hc)
    as (l & o & pre & post & HM & Hl & Hpre & Hrun).
  eexists. split; [exact Hrun|].
  destruct Hcells as (l' & o' & pre' & post' & HM' & _ & _ & Hxs).
  rewrite (mean_norm_run _ f
             (perturb_spec epsilon (cols (coordinates f)) 0
                (rows (coordinates f)) xs)); [|  |done|done].
  - f_equal. rewrite chunks_perturb by done. apply mean_norm_unit.
    + unfold perturbed_rows. intros Hnil.
      apply (f_equal length) in Hnil.
      rewrite length_imap, length_chunks in Hnil. simpl in Hnil. lia.
    + unfold perturbed_rows. apply Forall_lookup. intros i row Hi.
      rewrite list_lookup_imap in Hi.
      destruct (chunks _ _ xs !! i) as [row0|] eqn:Hrow0; [|done].
      simpl in Hi. injection Hi as <-.
      apply renormalize_unit. by apply Hrows.
  - exists l, o, pre, post. split; [done|].
    split; [apply lookup_insert_eq|]. split; [done|].
    by apply length_perturb_spec.
Qed.

Lemma perturb_then_mean_norm_witness :
  exists m',
    hil_field_perturb (w_mem exact_rows_world) (Some exact_rows_field) 0%R = Ok m'
    /\ hil_field_mean_norm m' (Some exact_rows_field) = Ok 1%R.
Proof.
  apply (perturb_then_mean_norm (w_mem exact_rows_world) exact_rows_field 0%R
           [3; 4; 3; 4]%R).
  - exists 1%positive, 0, [], [].
    split; [reflexivity|]. split; [reflexivity|]. split; reflexivity.
  - simpl. lia.
  - simpl. lia.
  - intros i row Hi.
    assert (Hrow : row = [3; 4]%R).
    { destruct i as [|[|i]]; simpl in Hi; by simplify_eq. }
    subst row. apply Rlt_le_trans with 1%R; [simpl; lra|].
    unfold norm_list. change (@s_sqrt R real_scalar) with R_sqrt.sqrt.
    rewrite <- sqrt_1 at 1. apply sqrt_le_1_alt.
    unfold shift_row. cbn [imap]. rewrite !sum_sq_cons.
    pose proof (sum_sq_nonneg []) as Hnil.
    change (@s_mul R real_scalar) with Rmult.
    change (@s_add R real_scalar) with Rplus.
    unfold compose. cbv beta. rewrite !Rmult_0_l, !Rplus_0_r.
    unfold sum_sq. cbn [foldl]. change (@s_zero R real_scalar) with 0%R. lra.
Defined.

Section ExactPerturbBound.
Local Open Scope R_scope.

Lemma eps_le_1 : (s_eps : R) <= 1.
Proof. simpl. lra. Qed.

Lemma renormalize_norm_le (row : list R) : norm_list (renormalize row) <= 1.
Proof.
  pose proof eps_le_1 as He1.
  destruct (Rlt_dec s_eps (norm_list row)) as [Hgt|Hle].
  - rewrite renormalize_unit by done. lra.
  - unfold renormalize.
    change (s_ltb s_eps (norm_list row)) with (Rltb s_eps (norm_list row)).
    rewrite Rltb_false by lra. lra.
Qed.

Lemma sum_norms_le (rs : list (list R)) : forall a : R,
  Forall (fun row => norm_list row <= 1) rs ->
  foldl (fun s row => s + norm_list row) a rs <= a + INR (length rs).
Proof.
  induction rs as [|row rs IH]; intros a Hall.
  - simpl. lra.
  - apply Forall_cons in Hall as [Hrow Hall]. cbn [foldl].
    rewrite length_cons, S_INR. specialize (IH (a + norm_list row) Hall). lra.
Qed.

Lemma mean_norm_le_1 (rs : list (list R)) :
  Forall (fun row => norm_list row <= 1) rs -> mean_norm_of rs <= 1.
Proof.
  intros Hall. unfold mean_norm_of.
  change (@s_div R real_scalar) with Rdiv.
  change (@s_add R real_scalar) with Rplus.
  change (@s_zero R real_scalar) with 0.
  change (@s_of_size R real_scalar) with INR.
  pose proof (sum_norms_le rs 0 Hall) as Hsum. rewrite Rplus_0_l in Hsum.
  destruct rs as [|row rs].
  - simpl. lra.
  - assert (Hk : 0 < INR (length (row :: rs))) by (apply lt_0_INR; simpl; lia).
    apply (Rmult_le_reg_r (INR (length (row :: rs)))); [done|].
    unfold Rdiv. rewrite Rmult_assoc, Rinv_l by lra. lra.
Qed.

End ExactPerturbBound.

(** X17 (perturbation is bounded): in exact arithmetic, after
    [hil_field_perturb], whatever [epsilon] is, every row of the field has
    norm 1 or norm at most [EPS], and [hil_field_mean_norm] of the field lies
    in [0, 1]. *)
Theorem perturb_bounds_mean_norm (m : memory R) (f : hil_field_t)
  (epsilon : R) xs :
  field_cells m f xs ->
  0 < rows (coordinates f) -> 0 < cols (coordinates f) ->
  exists (m' : memory R) (ys : list R) (mn : R),
    hil_field_perturb m (Some f) epsilon = Ok m'
    /\ field_cells m' f ys
    /\ Forall (fun row => norm_list row = 1%R \/ (norm_list row <= s_eps)%R)
         (chunks (cols (coordinates f)) (rows (coordinates f)) ys)
    /\ hil_field_mean_norm m' (Some f) = Ok mn
    /\ (0 <= mn <= 1)%R.
Proof.
  intros Hcells Hr Hc.
  destruct (perturb_run m f epsilon xs Hcells Hr Hc)
    as (l & o & pre & post & HM & Hl & Hpre & Hrun).
  destruct Hcells as (l' & o' & pre' & post' & HM' & _ & _ & Hxs).
  set (ys := perturb_spec epsilon (cols (coordinates f)) 0
               (rows (coordinates f)) xs).
  assert (Hys : field_cells
                  (<[l := F64 (pre ++ ys ++ post)]> m) f ys).
  { exists l, o, pre, post. split; [done|].
    split; [apply lookup_insert_eq|]. split; [done|].
    by apply length_perturb_spec. }
  assert (Hrows : Forall (fun row => norm_list row = 1%R
                                     \/ (norm_list row <= s_eps)%R)
                    (chunks (cols (coordinates f)) (rows (coordinates f)) ys)).
  { unfold ys. rewrite chunks_perturb by done. unfold perturbed_rows.
    apply Forall_lookup. intros i row Hi. rewrite list_lookup_imap in Hi.
    destruct (chunks _ _ xs !! i) as [row0|]; [|done].
    simpl in Hi. injection Hi as <-.
    set (sh := shift_row _ _ _ _).
    destruct (Rlt_dec s_eps (norm_list sh)) as [Hgt|Hle].
    - left. by apply renormalize_unit.
    - right. unfold renormalize.
      change (s_ltb s_eps (norm_list sh)) with (Rltb s_eps (norm_list sh)).
      rewrite Rltb_false by lra. lra. }
  exists (<[l := F64 (pre ++ ys ++ post)]> m), ys,
    (mean_norm_of (chunks (cols (coordinates f)) (rows (coordinates f)) ys)).
  split; [exact Hrun|]. split; [exact Hys|]. split; [exact Hrows|].
  split; [by apply mean_norm_run|].
  split; [apply mean_norm_nonneg|]. apply mean_norm_le_1.
  pose proof eps_le_1 as He1.
  eapply Forall_impl; [exact Hrows|]. intros row [->|Hle]; lra.
Qed.

Lemma perturb_bounds_mean_norm_witness :
  exists (m' : memory R) (ys : list R) (mn : R),
    hil_field_perturb (w_mem exact_rows_world) (Some exact_rows_field) 5%R = Ok m'
    /\ field_cells m' exact_rows_field ys
    /\ Forall (fun row => norm_list row = 1%R \/ (norm_list row <= s_eps)%R)
         (chunks 2 2 ys)
    /\ hil_field_mean_norm m' (Some exact_rows_field) = Ok mn
    /\ (0 <= mn <= 1)%R.
Proof.
  apply (perturb_bounds_mean_norm (w_mem exact_rows_world) exact_rows_field 5%R
           [3; 4; 3; 4]%R).
  - exists 1%positive, 0, [], [].
    split; [reflexivity|]. split; [reflexivity|]. split; reflexivity.
  - simpl. lia.
  - simpl. lia.
Defined.

(* ====================================================================== *)
(** * Bounds on coherence and stability *)

Section ExactBounds.
Local Open Scope R_scope.

Lemma clamp_min_ge (x : R) : x <= hil_clamp_min x s_eps /\ s_eps <= hil_clamp_min x s_eps.
Proof. rewrite clamp_min_Rmax. split; [apply Rmax_l|apply Rmax_r]. Qed.

Lemma Rabs_le_both (x y : R) : Rabs x <= y -> - y <= x <= y.
Proof. unfold Rabs. destruct (Rcase_abs x); lra. Qed.

(** A cosine with clamped norms is a cosine at most. *)
Lemma cosine_to_bound (c row : list R) :
  Rabs (cosine_to c (hil_clamp_min (norm_list c) s_eps) row) <= 1.
Proof.
  unfold cosine_to.
  change (@s_div R real_scalar) with Rdiv.
  change (@s_mul R real_scalar) with Rmult.
  pose proof eps_pos as He.
  pose proof (clamp_min_ge (norm_list c)) as [Hc1 Hc2].
  pose proof (clamp_min_ge (norm_list row)) as [Hr1 Hr2].
  pose proof (norm_list_nonneg c) as Hc0.
  pose proof (norm_list_nonneg row) as Hr0.
  pose proof (cauchy_schwarz row c) as Hcs.
  set (rn := hil_clamp_min (norm_list row) s_eps) in *.
  set (cn := hil_clamp_min (norm_list c) s_eps) in *.
  assert (Hden : 0 < rn * cn) by (apply Rmult_lt_0_compat; lra).
  unfold Rdiv. rewrite Rabs_mult, (Rabs_right (/ (rn * cn))).
  2:{ apply Rle_ge. left. by apply Rinv_0_lt_compat. }
  apply (Rmult_le_reg_r (rn * cn)); [done|].
  rewrite Rmult_assoc, Rinv_l, Rmult_1_r, Rmult_1_l by lra.
  etrans; [exact Hcs|]. apply Rmult_le_compat; lra.
Qed.

Lemma sum_bounded {A} (g : A -> R) (l : list A) : forall a : R,
  (forall x, x ∈ l -> Rabs (g x) <= 1) ->
  Rabs (foldl (fun s x => s + g x) a l - a) <= INR (length l).
Proof.
  induction l as [|x l IH]; intros a Hg.
  - simpl. rewrite Rminus_diag, Rabs_R0. lra.
  - cbn [foldl]. rewrite length_cons, S_INR.
    specialize (IH (a + g x) (fun y Hy => Hg y (list_elem_of_further _ _ _ Hy))).
    specialize (Hg x (list_elem_of_here _ _)).
    replace (foldl (fun s y => s + g y) (a + g x) l - a)
      with ((foldl (fun s y => s + g y) (a + g x) l - (a + g x)) + g x) by ring.
    etrans; [apply Rabs_triang|]. lra.
Qed.

Lemma coherence_of_bound (cols : nat) (rs : list (list R)) :
  -1 <= coherence_of cols rs <= 1.
Proof.
  unfold coherence_of.
  change (@s_div R real_scalar) with Rdiv.
  change (@s_add R real_scalar) with Rplus.
  change (@s_zero R real_scalar) with 0.
  change (@s_of_size R real_scalar) with INR.
  set (c := centroid_of cols rs).
  pose proof (sum_bounded (cosine_to c (hil_clamp_min (norm_list c) s_eps)) rs 0
                (fun row _ => cosine_to_bound c row)) as Hsum.
  rewrite Rminus_0_r in Hsum.
  set (S := foldl _ 0 rs) in *. clearbody S.
  destruct rs as [|row rs].
  - simpl in *. apply Rabs_le_both in Hsum. replace S with 0 by lra.
    unfold Rdiv. rewrite Rmult_0_l. lra.
  - assert (Hk : 0 < INR (length (row :: rs))) by (apply lt_0_INR; simpl; lia).
    set (k := INR (length (row :: rs))) in *. clearbody k.
    apply Rabs_le_both in Hsum.
    split.
    + apply (Rmult_le_reg_r k); [done|].
      unfold Rdiv. rewrite Rmult_assoc, Rinv_l by lra. lra.
    + apply (Rmult_le_reg_r k); [done|].
      unfold Rdiv. rewrite Rmult_assoc, Rinv_l by lra. lra.
Qed.

Lemma stability_of_bound (rows cols : nat) (xs : list R) (gs : list bool) :
  0 <= stability_of rows cols xs gs <= 2000000.
Proof.
  unfold stability_of. destruct (granted (tail gs)); [|simpl; lra].
  set (C0 := if granted gs then _ else _).
  set (C1 := if granted (tail (tail gs)) then _ else _).
  assert (H0 : -1 <= C0 <= 1).
  { unfold C0. destruct (granted gs); [apply coherence_of_bound|simpl; lra]. }
  assert (H1 : -1 <= C1 <= 1).
  { unfold C1. destruct (granted (tail (tail gs)));
      [apply coherence_of_bound|simpl; lra]. }
  clearbody C0 C1.
  change (s_div (s_abs (s_sub C1 C0)) s_step) with (Rabs (C1 - C0) / / 1000000).
  pose proof (Rabs_pos (C1 - C0)) as Hpos.
  assert (Habs : Rabs (C1 - C0) <= 2) by (apply Rabs_le; lra).
  unfold Rdiv. rewrite Rinv_inv. lra.
Qed.

End ExactBounds.

(** X18 (coherence, range): in exact arithmetic [hil_field_coherence] of a
    field that is absent, empty or laid out in live cells returns a value in
    [-1, 1], whatever the allocator answers. *)
Theorem coherence_in_range (field : option hil_field_t) (w : world R) :
  field_ok (w_mem w) field ->
  exists (c : R) (w' : world R),
    hil_field_coherence field w = Ok (c, w') /\ (-1 <= c <= 1)%R.
Proof.
  destruct field as [f|]; cbn [field_ok].
  - intros [He|(Hr & Hc & Hfit & xs & Hcells)].
    + exists s_zero, w. split; [by apply coherence_empty|simpl; lra].
    + eexists _, _. split.
      * apply (coherence_run f w xs); [done..|].
        eapply fits_size_t_le; [|exact Hfit]. nia.
      * destruct (granted (w_grants w)); [apply coherence_of_bound|simpl; lra].
  - intros _. exists s_zero, w. split; [done|simpl; lra].
Qed.

Lemma coherence_in_range_witness :
  exists (c : R) (w' : world R),
    hil_field_coherence (Some exact_rows_field) exact_rows_world = Ok (c, w')
    /\ (-1 <= c <= 1)%R.
Proof.
  apply (coherence_in_range (Some exact_rows_field) exact_rows_world).
  right. split; [simpl; lia|]. split; [simpl; lia|].
  split; [vm_compute; reflexivity|].
  exists [3; 4; 3; 4]%R, 1%positive, 0, [], [].
  split; [reflexivity|]. split; [reflexivity|]. split; reflexivity.
Defined.

(** X19 (stability, range): in exact arithmetic [hil_epistemic_stability] of
    a field that is absent, empty or laid out in live cells returns a value
    between 0 and 2 / 1e-6, whatever the graph and whatever the allocator
    answers. *)
Theorem stability_in_range (field : option hil_field_t)
  (graph : option hil_graph_t) (w : world R) :
  field_ok (w_mem w) field ->
  exists (s : R) (w' : world R),
    hil_epistemic_stability field graph w = Ok (s, w')
    /\ (0 <= s <= 2000000)%R.
Proof.
  destruct field as [f|]; cbn [field_ok].
  - intros [He|(Hr & Hc & Hfit & xs & Hcells)].
    + exists s_zero, w. split; [by apply stability_empty|simpl; lra].
    + eexists _, _. split; [by apply (stability_run f graph w xs)|].
      apply stability_of_bound.
  - intros _. exists s_zero, w. split; [done|simpl; lra].
Qed.

Lemma stability_in_range_witness :
  exists (s : R) (w' : world R),
    hil_epistemic_stability (Some exact_rows_field) None exact_rows_world
    = Ok (s, w')
    /\ (0 <= s <= 2000000)%R.
Proof.
  apply (stability_in_range (Some exact_rows_field) None exact_rows_world).
  right. split; [simpl; lia|]. split; [simpl; lia|].
  split; [vm_compute; reflexivity|].
  exists [3; 4; 3; 4]%R, 1%positive, 0, [], [].
  split; [reflexivity|]. split; [reflexivity|]. split; reflexivity.
Defined.

(* ====================================================================== *)
(** * Degrees and entropy of validated graphs *)

Section ValidWeights.
Context {T : Type} {SC : Scalar T}.

(** A graph whose ends are nodes and whose weights are finite and not below
    zero is accepted. *)
Lemma validate_cells_accepts (m : memory T) (g : hil_graph_t) srcs dsts ws :
  u32_cells m (src g) srcs -> u32_cells m (dst g) dsts ->
  f64_cells m (weight g) ws ->
  length srcs = num_edges g -> length dsts = num_edges g ->
  length ws = num_edges g ->
  0 < num_nodes g ->
  Forall (fun s => s < num_nodes g) srcs ->
  Forall (fun d => d < num_nodes g) dsts ->
  Forall (fun w => s_isfinite w = true /\ s_ltb w s_zero = false) ws ->
  hil_graph_validate m (Some g) = Ok true.
Proof.
  intros Hs Hd Hw Hls Hld Hlw Hn Hsr Hdr Hwr.
  unfold hil_graph_validate.
  destruct (decide (num_nodes g = 0)); [lia|].
  assert (Hnull : is_null (src g) || is_null (dst g) || is_null (weight g)
                  = false).
  { destruct Hs as (? & ? & ? & ? & -> & _), Hd as (? & ? & ? & ? & -> & _),
      Hw as (? & ? & ? & ? & -> & _). done. }
  rewrite Hnull, andb_false_r.
  assert (Hreads : forall e, e < num_edges g ->
            exists s d w,
              read_u32 m (src g) e = Ok s /\ read_u32 m (dst g) e = Ok d
              /\ read_f64 m (weight g) e = Ok w
              /\ s < num_nodes g /\ d < num_nodes g
              /\ s_isfinite w = true /\ s_ltb w s_zero = false).
  { intros e He.
    destruct (lookup_lt_is_Some_2 srcs e) as [s Hse]; [lia|].
    destruct (lookup_lt_is_Some_2 dsts e) as [d Hde]; [lia|].
    destruct (lookup_lt_is_Some_2 ws e) as [w Hwe]; [lia|].
    exists s, d, w.
    split; [by eapply cells_read_u32|]. split; [by eapply cells_read_u32|].
    split; [by eapply cells_read_f64|].
    split; [by apply (proj1 (Forall_lookup _ _) Hsr e)|].
    split; [by apply (proj1 (Forall_lookup _ _) Hdr e)|].
    by apply (proj1 (Forall_lookup _ _) Hwr e). }
  destruct (validate_edges_spec m g 0 (num_edges g)) as (b & Hb & Hiff).
  { intros e He. destruct (Hreads e ltac:(lia)) as (s & d & w & ? & ? & ? & _).
    by exists s, d, w. }
  rewrite Hb. f_equal. destruct b; [done|].
  destruct (proj1 Hiff eq_refl) as (e & He & s & d & Hs' & Hd' & Hbad).
  destruct (Hreads e ltac:(lia)) as (s0 & d0 & w0 & Hs0 & Hd0 & Hw0 & ? & ? & ? & ?).
  rewrite Hs0 in Hs'. rewrite Hd0 in Hd'. simplify_eq.
  destruct Hbad as [?|[?|(w & Hw' & Hbad)]]; [lia|lia|].
  rewrite Hw0 in Hw'. simplify_eq. destruct Hbad; congruence.
Qed.

End ValidWeights.

Section ValidStored.
Context {T : Type} {SC : Scalar T}.

(** What the loop of [hil_graph_validate] accepts it has read: the edges are
    stored, their ends are nodes, their weights are finite and not below
    zero. *)
Lemma validate_edges_stored (m : memory T) (g : hil_graph_t) cnt : forall e,
  validate_edges m g e cnt = Ok true ->
  exists srcs dsts ws,
    length srcs = cnt /\ length dsts = cnt /\ length ws = cnt
    /\ (forall i s, srcs !! i = Some s -> read_u32 m (src g) (e + i) = Ok s)
    /\ (forall i d, dsts !! i = Some d -> read_u32 m (dst g) (e + i) = Ok d)
    /\ (forall i w, ws !! i = Some w -> read_f64 m (weight g) (e + i) = Ok w)
    /\ Forall (fun s => s < num_nodes g) srcs
    /\ Forall (fun d => d < num_nodes g) dsts
    /\ Forall (fun w => s_isfinite w = true /\ s_ltb w s_zero = false) ws.
Proof.
  induction cnt as [|k IH]; intros e Hv.
  - exists [], [], []. repeat split; try done; constructor.
  - simpl in Hv.
    apply bind_Ok in Hv as (s0 & Hs0 & Hv). apply bind_Ok in Hv as (d0 & Hd0 & Hv).
    destruct (decide (num_nodes g ≤ s0)); [done|].
    destruct (decide (num_nodes g ≤ d0)); [done|].
    apply bind_Ok in Hv as (w0 & Hw0 & Hv).
    destruct (s_isfinite w0) eqn:Hfin; [|done]. simpl in Hv.
    destruct (s_ltb w0 s_zero) eqn:Hneg; [done|].
    destruct (IH (S e) Hv)
      as (srcs & dsts & ws & Hls & Hld & Hlw & Hs & Hd & Hw & Hsr & Hdr & Hwr).
    exists (s0 :: srcs), (d0 :: dsts), (w0 :: ws).
    split; [simpl; lia|]. split; [simpl; lia|]. split; [simpl; lia|].
    split; [|split; [|split; [|split; [|split]]]].
    + intros [|i] s Hi.
      * injection Hi as <-. by rewrite Nat.add_0_r.
      * replace (e + S i) with (S e + i) by lia. by apply Hs.
    + intros [|i] d Hi.
      * injection Hi as <-. by rewrite Nat.add_0_r.
      * replace (e + S i) with (S e + i) by lia. by apply Hd.
    + intros [|i] w Hi.
      * injection Hi as <-. by rewrite Nat.add_0_r.
      * replace (e + S i) with (S e + i) by lia. by apply Hw.
    + constructor; [lia|done].
    + constructor; [lia|done].
    + by constructor.
Qed.

(** An accepted graph has a node, and its edge arrays hold edges between
    nodes with finite weights that are not below zero. *)
Lemma validate_stored (m : memory T) (g : hil_graph_t) :
  hil_graph_validate m (Some g) = Ok true ->
  0 < num_nodes g
  /\ exists srcs dsts ws,
       edges_stored m g srcs dsts ws
       /\ Forall (fun s => s < num_nodes g) srcs
       /\ Forall (fun d => d < num_nodes g) dsts
       /\ Forall (fun w => s_isfinite w = true /\ s_ltb w s_zero = false) ws.
Proof.
  intros Hv. unfold hil_graph_validate in Hv.
  destruct (decide (num_nodes g = 0)); [done|]. split; [lia|].
  destruct (bool_decide (0 < num_edges g)
            && (is_null (src g) || is_null (dst g) || is_null (weight g)));
    [done|].
  destruct (validate_edges_stored m g (num_edges g) 0 Hv)
    as (srcs & dsts & ws & Hls & Hld & Hlw & Hs & Hd & Hw & Hsr & Hdr & Hwr).
  exists srcs, dsts, ws. split; [|done].
  repeat split; done.
Qed.

End ValidStored.

(** X20 (validate, then degree): for every scalar type, a graph that
    [hil_graph_validate] accepts, its edge arrays absent or not, can be
    passed to [hil_graph_degree] with a buffer of [num_nodes] live cells
    that, when the graph has an edge, lies in another allocation than the
    weight array: the edges are stored, and the call ends without an access
    out of bounds and leaves their weighted degrees in the buffer. *)
Theorem validate_then_degree (T : Type) (SC : Scalar T) (m : memory T)
  (g : hil_graph_t) lo oo pre old post :
  hil_graph_validate m (Some g) = Ok true ->
  m !! lo = Some (F64 (pre ++ old ++ post)) -> length pre = oo ->
  length old = num_nodes g ->
  (0 < num_edges g -> forall lw ow, weight g = Some (lw, ow) -> lw <> lo) ->
  exists srcs dsts ws,
    edges_stored m g srcs dsts ws
    /\ hil_graph_degree m (Some g) (Some (lo, oo))
       = Ok (<[lo := F64 (pre ++ weighted_degree (num_nodes g) srcs dsts ws
                            ++ post)]> m).
Proof.
  intros Hv Hlo Hpre Hold Hsep.
  destruct (validate_stored m g Hv)
    as (_ & srcs & dsts & ws & Hst & Hsr & Hdr & _).
  exists srcs, dsts, ws. split; [done|]. by eapply degree_run_stored.
Qed.

Lemma validate_then_degree_witness :
  (exists srcs dsts ws,
     edges_stored path4_memory path4_graph srcs dsts ws
     /\ hil_graph_degree path4_memory (Some path4_graph) (Some (4%positive, 0))
        = Ok (<[4%positive := F64 (weighted_degree 4 srcs dsts ws)]> path4_memory))
  /\ (exists srcs dsts ws,
        edges_stored path4_memory (Graph 4 0 None None None) srcs dsts ws
        /\ hil_graph_degree path4_memory (Some (Graph 4 0 None None None))
             (Some (4%positive, 0))
           = Ok (<[4%positive := F64 (weighted_degree 4 srcs dsts ws)]>
                   path4_memory)).
Proof.
  split.
  - destruct (validate_then_degree float float_scalar path4_memory path4_graph
                4%positive 0 [] [nan; nan; nan; nan]%float [])
      as (srcs & dsts & ws & Hst & Hrun).
    + vm_compute. reflexivity.
    + reflexivity.
    + reflexivity.
    + reflexivity.
    + intros _ lw ow Hw. injection Hw as <- _. discriminate.
    + exists srcs, dsts, ws. split; [exact Hst|].
      cbn [app] in Hrun. rewrite app_nil_r in Hrun. exact Hrun.
  - destruct (validate_then_degree float float_scalar path4_memory
                (Graph 4 0 None None None)
                4%positive 0 [] [nan; nan; nan; nan]%float [])
      as (srcs & dsts & ws & Hst & Hrun).
    + vm_compute. reflexivity.
    + reflexivity.
    + reflexivity.
    + reflexivity.
    + simpl. lia.
    + exists srcs, dsts, ws. split; [exact Hst|].
      cbn [app] in Hrun. rewrite app_nil_r in Hrun. exact Hrun.
Defined.

Section ExactIncidence.
Local Open Scope R_scope.
Implicit Types (deg ws : list R) (srcs dsts : list nat).

Lemma lookup_add_at (j i : nat) (w x : R) deg :
  deg !! i = Some x -> (j < length deg)%nat ->
  add_at j w deg !! i = Some (if decide (j = i) then x + w else x).
Proof.
  intros Hi Hj. unfold add_at.
  destruct (lookup_lt_is_Some_2 deg j Hj) as [y Hy]. rewrite Hy.
  destruct (decide (j = i)) as [->|Hne].
  - rewrite list_lookup_insert_eq by done. f_equal.
    rewrite Hi in Hy. by simplify_eq.
  - by rewrite list_lookup_insert_ne.
Qed.

Lemma accumulate_lookup (i : nat) srcs : forall dsts ws deg (x : R),
  deg !! i = Some x ->
  Forall (fun s => (s < length deg)%nat) srcs ->
  Forall (fun d => (d < length deg)%nat) dsts ->
  accumulate srcs dsts ws deg !! i = Some (x + incident_weight i srcs dsts ws).
Proof.
  induction srcs as [|s srcs IH]; intros dsts ws deg x Hi Hs Hd.
  - simpl. rewrite Hi. f_equal. lra.
  - destruct dsts as [|d dsts]; [simpl; rewrite Hi; f_equal; lra|].
    destruct ws as [|w ws]; [simpl; rewrite Hi; f_equal; lra|].
    apply Forall_cons in Hs as [Hs Hss]. apply Forall_cons in Hd as [Hd Hds].
    cbn [accumulate incident_weight].
    rewrite (IH dsts ws _ (if decide (d = i)
                           then (if decide (s = i) then x + w else x) + w
                           else (if decide (s = i) then x + w else x))).
    + f_equal. destruct (decide (s = i)), (decide (d = i)); lra.
    + apply lookup_add_at; [by apply lookup_add_at|by rewrite length_add_at].
    + rewrite !length_add_at. done.
    + rewrite !length_add_at. done.
Qed.

Lemma weighted_degree_lookup (n i : nat) srcs dsts ws :
  (i < n)%nat ->
  Forall (fun s => (s < n)%nat) srcs -> Forall (fun d => (d < n)%nat) dsts ->
  weighted_degree n srcs dsts ws !! i = Some (incident_weight i srcs dsts ws).
Proof.
  intros Hi Hs Hd. unfold weighted_degree.
  rewrite (accumulate_lookup i srcs dsts ws _ 0).
  - f_equal. lra.
  - by apply lookup_replicate_2.
  - by rewrite length_replicate.
  - by rewrite length_replicate.
Qed.

End ExactIncidence.

(** X21 (degree of a node): in exact arithmetic, for a graph whose edge
    arrays can be read over their first [num_edges] entries (with no edge
    they may be [NULL]), whose edge ends are below [num_nodes], and a buffer
    of [num_nodes] live cells that, when the graph has an edge, lies in
    another allocation than the weight array: after [hil_graph_degree] the
    entry of node [i] is the sum, over the edges, of the weight of the edge
    once for each of its two ends that is [i]; a loop at [i] counts twice. *)
Theorem degree_is_incident_weight (m : memory R) (g : hil_graph_t)
  srcs dsts ws lo oo pre old post (i : nat) :
  edges_stored m g srcs dsts ws ->
  m !! lo = Some (F64 (pre ++ old ++ post)) -> length pre = oo ->
  length old = num_nodes g ->
  (0 < num_edges g -> forall lw ow, weight g = Some (lw, ow) -> lw <> lo) ->
  Forall (fun s => s < num_nodes g) srcs ->
  Forall (fun d => d < num_nodes g) dsts ->
  i < num_nodes g ->
  exists m',
    hil_graph_degree m (Some g) (Some (lo, oo)) = Ok m'
    /\ read_f64 m' (Some (lo, oo)) i = Ok (incident_weight i srcs dsts ws).
Proof.
  intros Hst Hlo Hpre Hold Hsep Hsr Hdr Hi.
  pose proof Hst as (Hls & Hld & Hlw & _).
  eexists. split; [by eapply degree_run_stored|].
  apply (cells_read_f64 _ _ (weighted_degree (num_nodes g) srcs dsts ws)).
  - exists lo, oo, pre, post. split; [done|].
    split; [apply lookup_insert_eq|done].
  - by apply weighted_degree_lookup.
Qed.

Lemma degree_is_incident_weight_witness :
  exists m',
    hil_graph_degree exact_path4_memory (Some path4_graph) (Some (4%positive, 0))
    = Ok m'
    /\ read_f64 m' (Some (4%positive, 0)) 1
       = Ok (incident_weight 1 [0; 1; 2] [1; 2; 3] [1; 2; 3]%R).
Proof.
  apply (degree_is_incident_weight exact_path4_memory path4_graph
           [0; 1; 2] [1; 2; 3] [1; 2; 3]%R 4%positive 0 [] [7; 7; 7; 7]%R []).
  - apply cells_edges_stored; try reflexivity.
    + exists 1%positive, 0, [], []. repeat split; reflexivity.
    + exists 2%positive, 0, [], []. repeat split; reflexivity.
    + exists 3%positive, 0, [], []. repeat split; reflexivity.
  - reflexivity.
  - reflexivity.
  - reflexivity.
  - intros _ lw ow Hw. injection Hw as <- _. discriminate.
  - repeat constructor.
  - repeat constructor.
  - simpl. lia.
Defined.

Section ExactEntropyRange.
Local Open Scope R_scope.
Implicit Types (deg ws : list R) (srcs dsts : list nat).

Lemma ln_le_minus_1 (y : R) : 0 < y -> ln y <= y - 1.
Proof.
  intros Hy. pose proof (exp_ineq1_le (ln y)) as Hexp.
  rewrite exp_ln in Hexp by done. lra.
Qed.

(** One term of the entropy: what it adds is not negative, and at most its
    share of [ln n]. *)
Lemma entropy_term_bounds (n : nat) (p : R) :
  (0 < n)%nat -> 0 < p <= 1 ->
  0 <= - (p * ln p) <= p * (ln (INR n) - 1) + / INR n.
Proof.
  intros Hn [Hp0 Hp1].
  assert (HN : 0 < INR n) by (by apply lt_0_INR).
  assert (Hln : ln p <= 0).
  { rewrite <- ln_1. by apply ln_le. }
  split; [nra|].
  assert (Hle : ln (/ (INR n * p)) <= / (INR n * p) - 1).
  { apply ln_le_minus_1. apply Rinv_0_lt_compat. nra. }
  rewrite ln_Rinv, ln_mult in Hle by nra.
  assert (Hmul : p * (- (ln (INR n) + ln p)) <= p * (/ (INR n * p) - 1)).
  { apply Rmult_le_compat_l; lra. }
  replace (p * (/ (INR n * p) - 1)) with (/ INR n - p) in Hmul by (field; lra).
  lra.
Qed.

Lemma entropy_fold_bounds (n : nat) (S : R) deg : forall H : R,
  (0 < n)%nat -> 0 < S -> Forall (fun x => 0 <= x <= S) deg ->
  H <= foldl (fun H x =>
                let p := s_div x S in
                if s_ltb s_eps p then s_sub H (s_mul p (hil_safe_log p)) else H)
             H deg
    <= H + (sum_left deg / S * (ln (INR n) - 1) + INR (length deg) / INR n).
Proof.
  intros H Hn HS Hall. revert H.
  assert (HN : 0 < INR n) by (by apply lt_0_INR).
  induction Hall as [|x deg [Hx0 Hx1] _ IH]; intros H.
  - simpl. rewrite sum_left_nil. unfold Rdiv. rewrite !Rmult_0_l. lra.
  - cbn [foldl]. rewrite sum_left_cons, length_cons, S_INR.
    change (@s_div R real_scalar) with Rdiv in *.
    change (@s_sub R real_scalar) with Rminus in *.
    change (@s_mul R real_scalar) with Rmult in *.
    change (@s_ltb R real_scalar) with Rltb in *.
    cbv zeta in *.
    set (p := x / S).
    assert (Hp : 0 <= p <= 1).
    { unfold p. split.
      - apply Rmult_le_pos; [done|]. left. by apply Rinv_0_lt_compat.
      - apply (Rmult_le_reg_r S); [done|].
        unfold Rdiv. rewrite Rmult_assoc, Rinv_l by lra. lra. }
    assert (Hterm : 0 <= p * (ln (INR n) - 1) + / INR n
                    /\ (s_eps < p ->
                        0 <= - (p * hil_safe_log p)
                          <= p * (ln (INR n) - 1) + / INR n)).
    { destruct (Req_dec p 0) as [Hz|Hnz].
      - rewrite Hz. pose proof eps_pos. split; [|lra].
        rewrite Rmult_0_l. left. rewrite Rplus_0_l. by apply Rinv_0_lt_compat.
      - pose proof (entropy_term_bounds n p Hn ltac:(lra)) as Hb.
        split; [lra|]. intros Hgt.
        unfold hil_safe_log, HIL_EPS. rewrite clamp_min_above by lra. done. }
    replace ((x + sum_left deg) / S) with (p + sum_left deg / S)
      by (unfold p; field; lra).
    replace ((INR (length deg) + 1) / INR n)
      with (INR (length deg) / INR n + / INR n) by (field; lra).
    destruct Hterm as [Hskip Htake].
    destruct (Rlt_dec s_eps p) as [Hgt|Hle].
    + rewrite Rltb_true by done. specialize (Htake Hgt).
      specialize (IH (H - p * hil_safe_log p)). lra.
    + rewrite Rltb_false by lra. specialize (IH H). lra.
Qed.

Lemma sum_left_ge deg (x : R) :
  Forall (fun y => 0 <= y) deg -> x ∈ deg -> x <= sum_left deg.
Proof.
  intros Hall. induction Hall as [|y deg Hy Hall IH]; intros Hx.
  - by apply elem_of_nil in Hx.
  - rewrite sum_left_cons.
    assert (0 <= sum_left deg).
    { clear IH Hx. induction Hall as [|z deg Hz _ IHd];
        [rewrite sum_left_nil; lra|rewrite sum_left_cons; lra]. }
    apply elem_of_cons in Hx as [->|Hx]; [lra|].
    specialize (IH Hx). lra.
Qed.

Lemma entropy_of_bounds deg :
  deg <> [] -> Forall (fun x => 0 <= x) deg ->
  0 <= entropy_of deg <= ln (INR (length deg)).
Proof.
  intros Hne Hall.
  assert (Hn : (0 < length deg)%nat) by (destruct deg; [done|simpl; lia]).
  assert (HN : 0 < INR (length deg)) by (by apply lt_0_INR).
  assert (Hln : 0 <= ln (INR (length deg))).
  { rewrite <- ln_1. apply ln_le; [lra|].
    change 1 with (INR 1). apply le_INR. lia. }
  unfold entropy_of. cbv zeta.
  change (@s_leb R real_scalar) with Rleb.
  change (@s_zero R real_scalar) with 0.
  pose proof eps_pos as He.
  destruct (Rle_dec (sum_left deg) s_eps) as [Hle|Hgt].
  - rewrite Rleb_true by done. lra.
  - rewrite Rleb_false by lra.
    assert (HS : 0 < sum_left deg) by lra.
    destruct (entropy_fold_bounds (length deg) (sum_left deg) deg 0 Hn HS)
      as [Hlo Hhi].
    { apply Forall_forall. intros x Hx. split.
      - by apply (proj1 (Forall_forall _ _) Hall).
      - by apply sum_left_ge. }
    split; [exact Hlo|].
    etrans; [exact Hhi|].
    replace (sum_left deg / sum_left deg) with 1 by (field; lra).
    replace (INR (length deg) / INR (length deg)) with 1 by (field; lra).
    lra.
Qed.

Lemma incident_weight_nonneg (i : nat) srcs : forall dsts ws,
  Forall (fun w => 0 <= w) ws -> 0 <= incident_weight i srcs dsts ws.
Proof.
  induction srcs as [|s srcs IH]; intros dsts ws Hws; [simpl; lra|].
  destruct dsts as [|d dsts]; [simpl; lra|].
  destruct ws as [|w ws]; [simpl; lra|].
  apply Forall_cons in Hws as [Hw Hws]. cbn [incident_weight].
  specialize (IH dsts ws Hws).
  destruct (decide (s = i)), (decide (d = i)); lra.
Qed.

Lemma weighted_degree_nonneg (n : nat) srcs dsts ws :
  Forall (fun s => (s < n)%nat) srcs -> Forall (fun d => (d < n)%nat) dsts ->
  Forall (fun w => 0 <= w) ws ->
  Forall (fun x => 0 <= x) (weighted_degree n srcs dsts ws).
Proof.
  intros Hs Hd Hws. apply Forall_lookup. intros i x Hi.
  assert (Hlt : (i < n)%nat).
  { apply lookup_lt_Some in Hi. unfold weighted_degree in Hi.
    by rewrite length_accumulate, length_replicate in Hi. }
  rewrite weighted_degree_lookup in Hi by done. injection Hi as <-.
  by apply incident_weight_nonneg.
Qed.

End ExactEntropyRange.

(** X22 (entropy, range): in exact arithmetic, for a graph that
    [hil_graph_validate] accepts, its edge arrays absent or not, and whose
    [8 * num_nodes] is within the range of [size_t], [hil_graph_entropy]
    returns a value between 0 and [ln num_nodes], whatever the allocator
    answers, and gives the memory back as it found it. *)
Theorem entropy_in_range (g : hil_graph_t) (w : world R) :
  hil_graph_validate (w_mem w) (Some g) = Ok true ->
  fits_size_t (8 * num_nodes g) ->
  exists (H : R) (w' : world R),
    hil_graph_entropy (Some g) w = Ok (H, w')
    /\ (0 <= H <= ln (INR (num_nodes g)))%R
    /\ w_mem w' = w_mem w.
Proof.
  intros Hv Hfit.
  destruct (validate_stored (w_mem w) g Hv)
    as (Hn & srcs & dsts & ws & Hst & Hsr & Hdr & Hwr).
  pose proof Hst as (Hls & Hld & Hlw & _).
  eexists _, _. split; [by apply (entropy_run_stored g w srcs dsts ws)|].
  split; [|done].
  assert (Hln : (0 <= ln (INR (num_nodes g)))%R).
  { rewrite <- ln_1. apply ln_le; [lra|].
    change 1%R with (INR 1). apply le_INR. lia. }
  destruct (granted (w_grants w)); [|simpl; lra].
  assert (Hlen : length (weighted_degree (num_nodes g) srcs dsts ws)
                 = num_nodes g).
  { unfold weighted_degree. by rewrite length_accumulate, length_replicate. }
  pose proof (entropy_of_bounds (weighted_degree (num_nodes g) srcs dsts ws))
    as Hb.
  rewrite Hlen in Hb. apply Hb.
  - intros Hnil. rewrite Hnil in Hlen. simpl in Hlen. lia.
  - apply weighted_degree_nonneg; [done..|].
    eapply Forall_impl; [exact Hwr|]. intros x [_ Hx]. simpl in Hx.
    unfold Rltb in Hx. destruct (Rlt_dec x 0); [done|lra].
Qed.

Lemma entropy_in_range_witness :
  (exists (H : R) (w' : world R),
     hil_graph_entropy (Some triangle_graph) exact_triangle_world = Ok (H, w')
     /\ (0 <= H <= ln (INR (num_nodes triangle_graph)))%R
     /\ w_mem w' = w_mem exact_triangle_world)
  /\ (exists (H : R) (w' : world R),
        hil_graph_entropy (Some (Graph 2 0 None None None)) exact_triangle_world
        = Ok (H, w')
        /\ (0 <= H <= ln (INR 2))%R
        /\ w_mem w' = w_mem exact_triangle_world).
Proof.
  split.
  - apply (entropy_in_range triangle_graph exact_triangle_world).
    + apply (validate_cells_accepts _ triangle_graph [0; 1; 2] [1; 2; 0]
               [1; 1; 1]%R).
      * exists 1%positive, 0, [], []. repeat split; reflexivity.
      * exists 2%positive, 0, [], []. repeat split; reflexivity.
      * exists 3%positive, 0, [], []. repeat split; reflexivity.
      * reflexivity.
      * reflexivity.
      * reflexivity.
      * simpl. lia.
      * repeat constructor.
      * repeat constructor.
      * repeat constructor; simpl; apply Rltb_false; lra.
    + vm_compute. reflexivity.
  - apply (entropy_in_range (Graph 2 0 None None None) exact_triangle_world).
    + reflexivity.
    + vm_compute. reflexivity.
Defined.

(* ====================================================================== *)
(** * Connected components: the answer as a whole *)

Section ComponentsRequests.
Context {T : Type}.

(** The run of [hil_graph_connected_components] by the answers to its six
    requests. *)
Lemma components_run_requests fuel (g : hil_graph_t) (w : world T) es :
  edge_list (w_mem w) g es ->
  0 < num_nodes g -> fits_uint32 (num_nodes g) ->
  fits_size_t (8 * num_edges g) -> num_nodes g <= fuel ->
  exists k,
    hil_graph_connected_components fuel (Some g) w = Ok k
    /\ (requests_granted 6 (w_grants w) ->
        component_count (num_nodes g) (in_range_edges (num_nodes g) es) k)
    /\ (~ requests_granted 6 (w_grants w) -> k = 0).
Proof.
  intros Hedges Hn Hn32 Hm Hfuel.
  destruct w as [mem gs jf ji]. cbn [w_mem w_grants] in *.
  unfold hil_graph_connected_components.
  set (n := num_nodes g) in *.
  destruct (decide (n = 0)) as [?|_]; [lia|].
  assert (Hrefused : forall i,
            i < 6 -> granted (Nat.iter i tail gs) = false ->
            exists k, Ok 0 = Ok k
              /\ (requests_granted 6 gs ->
                  component_count n (in_range_edges n es) k)
              /\ (~ requests_granted 6 gs -> k = 0)).
  { intros i Hi Hno. exists 0. split; [done|]. split; [|done].
    intros Hall. rewrite (Hall i Hi) in Hno. done. }
  (* deg *)
  unfold calloc_local, malloc_local.
  cbn [w_grants w_mem w_junk_int set_grants].
  rewrite !size_mul_fits_small
    by (eapply fits_size_t_le; [|apply (fits_uint32_size n 8 Hn32)]; lia).
  cbn [andb].
  destruct (granted gs) eqn:G0; [|apply (Hrefused 0); [lia|exact G0]].
  cbn [w_grants w_mem w_junk_int set_grants].
  destruct (count_pass mem g n es Hedges) as (deg & Hcount & Hdl & Hdeg & Hsum).
  destruct Hedges as [Hel Hread]. rewrite <- Hel. rewrite Hcount.
  cbn [mbind result_bind w_grants w_mem w_junk_int set_grants].
  (* offset *)
  destruct (granted (tail gs)) eqn:G1.
  2:{ apply (Hrefused 1); [lia|exact G1]. }
  rewrite (size_mul_small 8 (n + 1))
    by (apply (fits_uint32_size n 8 Hn32); lia).
  rewrite (Nat.mul_comm 8 (n + 1)), Nat.div_mul by done.
  set (offset0 := ji <$> seq 0 (n + 1)).
  assert (Hol : length offset0 = n + 1).
  { unfold offset0. by rewrite length_fmap, length_seq. }
  rewrite aset_lt by lia. cbn [mbind result_bind].
  destruct (offsets_pass n deg offset0 Hdl Hol) as (offset & Hoffs & Hofl & Hoff).
  rewrite Hoffs. cbn [mbind result_bind].
  rewrite (proj2 (aget_Ok _ _ _) (Hoff n ltac:(lia))).
  cbn [mbind result_bind w_grants w_mem w_junk_int set_grants].
  (* adj *)
  assert (Htotal : prefix_sum deg n = sum_list deg).
  { apply prefix_sum_all. lia. }
  destruct (granted (tail (tail gs))) eqn:G2.
  2:{ apply (Hrefused 2); [lia|exact G2]. }
  rewrite (size_mul_small 4 (prefix_sum deg n))
    by (eapply fits_size_t_le; [|exact Hm]; rewrite Htotal; lia).
  rewrite (Nat.mul_comm 4 (prefix_sum deg n)), Nat.div_mul by done.
  set (adj0 := ji <$> seq 0 (prefix_sum deg n)).
  assert (Hal : length adj0 = prefix_sum deg n).
  { unfold adj0. by rewrite length_fmap, length_seq. }
  cbn [w_grants w_mem w_junk_int set_grants].
  (* cur *)
  destruct (granted (tail (tail (tail gs)))) eqn:G3.
  2:{ apply (Hrefused 3); [lia|exact G3]. }
  cbn [w_grants w_mem w_junk_int set_grants].
  destruct (fill_pass mem g n es deg offset (conj Hel Hread) Hdl Hdeg Hoff
              adj0 Hal) as (adj & cur & Hfillrun & Hfill).
  rewrite Hfillrun.
  cbn [mbind result_bind w_grants w_mem w_junk_int set_grants].
  (* seen, queue *)
  destruct (granted (tail (tail (tail (tail gs))))) eqn:G4.
  2:{ cbn [w_grants w_mem w_junk_int set_grants].
      destruct (granted (tail (tail (tail (tail (tail gs))))));
        (apply (Hrefused 4); [lia|exact G4]). }
  cbn [w_grants w_mem w_junk_int set_grants].
  destruct (granted (tail (tail (tail (tail (tail gs)))))) eqn:G5.
  2:{ apply (Hrefused 5); [lia|exact G5]. }
  cbn [w_grants w_mem w_junk_int set_grants].
  rewrite (size_mul_small 4 n)
    by (eapply fits_size_t_le; [|apply (fits_uint32_size n 4 Hn32)]; lia).
  rewrite (Nat.mul_comm 4 n), Nat.div_mul by done.
  destruct (roots_pass n (in_range_edges n es) offset adj (prefix_sum deg)
              Hn32 Hoff) with (fuel := fuel) (sn0 := replicate n 0)
              (qu0 := ji <$> seq 0 n)
    as (sn & qu & comps & Hroots & Hcount_ok).
  - intros v k Hv Hk.
    destruct (slice_sound n es deg Hdl Hdeg adj cur v k Hfill Hv Hk) as (u & Hu & Hin).
    exists u. split; [done|]. by apply elem_of_nbrs.
  - intros v u Hv Hadj.
    apply (slice_complete n es deg Hdl Hdeg adj cur v u Hfill Hv).
    by apply elem_of_nbrs.
  - intros u v. apply adjacent_lt.
  - done.
  - done.
  - by rewrite length_fmap, length_seq.
  - rewrite Hroots. cbn [mbind result_bind]. exists comps.
    split; [done|]. split; [done|]. intros Hnot. exfalso. apply Hnot.
    intros i Hi.
    destruct i as [|[|[|[|[|[|i]]]]]];
      [exact G0|exact G1|exact G2|exact G3|exact G4|exact G5|lia].
Qed.

End ComponentsRequests.

Lemma all_granted_tail gs : all_granted gs -> all_granted (tail gs).
Proof. intros Hall. by apply all_granted_step in Hall as [_ ?]. Qed.

Lemma all_granted_requests k gs : all_granted gs -> requests_granted k gs.
Proof.
  intros Hall i _.
  assert (Hi : all_granted (Nat.iter i tail gs)).
  { induction i as [|i IH]; [done|]. simpl. by apply all_granted_tail. }
  by apply all_granted_step in Hi as [? _].
Qed.

Section CountFacts.
Context (n : nat).
Implicit Types (es : list (nat * nat)).

Lemma connected_ext es1 es2 u v :
  (forall x y, adjacent es1 x y -> adjacent es2 x y) ->
  connected es1 u v -> connected es2 u v.
Proof.
  intros Hsub. induction 1 as [|x y z Hxy _ IH]; [apply rtc_refl|].
  eapply rtc_l; [by apply Hsub|done].
Qed.

(** The count is a function of the adjacency. *)
Lemma component_count_ext es1 es2 k :
  (forall x y, adjacent es1 x y <-> adjacent es2 x y) ->
  component_count n es1 k -> component_count n es2 k.
Proof.
  intros Hadj (reps & Hlen & Hnd & Hlt & Hcov & Hsep).
  exists reps. split; [done|]. split; [done|]. split; [done|]. split.
  - intros v Hv. destruct (Hcov v Hv) as (r & Hr & Hc).
    exists r. split; [done|].
    eapply connected_ext; [|exact Hc]. intros x y. apply Hadj.
  - intros r r' Hr Hr' Hc. apply Hsep; [done..|].
    eapply connected_ext; [|exact Hc]. intros x y. apply Hadj.
Qed.

Lemma component_count_le_nodes es k : component_count n es k -> k <= n.
Proof.
  intros (reps & <- & Hnd & Hlt & _). by apply NoDup_below_length.
Qed.

(** Edges taken the other way round join the same nodes. *)
Lemma adjacent_swap es u v :
  adjacent (in_range_edges n (prod_swap <$> es)) u v
  <-> adjacent (in_range_edges n es) u v.
Proof.
  assert (Hin : forall a b,
            (a, b) ∈ in_range_edges n (prod_swap <$> es)
            <-> (b, a) ∈ in_range_edges n es).
  { intros a b. unfold in_range_edges. rewrite !list_elem_of_filter.
    rewrite list_elem_of_fmap. unfold edge_in_range. simpl. split.
    - intros (Hr & [c d] & Heq & Hcd). simpl in Heq. simplify_eq.
      split; [lia|done].
    - intros (Hr & Hba). split; [lia|]. by exists (b, a). }
  unfold adjacent. rewrite !Hin. tauto.
Qed.

End CountFacts.

(** X23 (components, edge set): when its six allocations are granted, the
    answer of [hil_graph_connected_components] depends only on the number of
    nodes and on which pairs of nodes are joined by an in-range edge: the
    order of the edges, their direction, repeated edges and edges that leave
    the node range do not change it. *)
Theorem components_depend_on_adjacency (T : Type) (fuel : nat)
  (g1 g2 : hil_graph_t) (w1 w2 : world T) es1 es2 :
  edge_list (w_mem w1) g1 es1 -> edge_list (w_mem w2) g2 es2 ->
  num_nodes g2 = num_nodes g1 ->
  0 < num_nodes g1 -> fits_uint32 (num_nodes g1) ->
  fits_size_t (8 * num_edges g1) -> fits_size_t (8 * num_edges g2) ->
  num_nodes g1 <= fuel ->
  requests_granted 6 (w_grants w1) -> requests_granted 6 (w_grants w2) ->
  (forall u v,
      adjacent (in_range_edges (num_nodes g1) es1) u v
      <-> adjacent (in_range_edges (num_nodes g1) es2) u v) ->
  hil_graph_connected_components fuel (Some g1) w1
  = hil_graph_connected_components fuel (Some g2) w2.
Proof.
  intros Hes1 Hes2 Hn Hpos Hn32 Hm1 Hm2 Hfuel Hg1 Hg2 Hadj.
  destruct (components_run_requests fuel g1 w1 es1 Hes1 Hpos Hn32 Hm1 Hfuel)
    as (k1 & Hrun1 & Hcount1 & _).
  destruct (components_run_requests fuel g2 w2 es2 Hes2) as (k2 & Hrun2 & Hcount2 & _);
    [by rewrite Hn|by rewrite Hn|done|by rewrite Hn|].
  rewrite Hrun1, Hrun2. f_equal.
  specialize (Hcount1 Hg1). specialize (Hcount2 Hg2). rewrite Hn in Hcount2.
  eapply component_count_unique; [exact Hcount2|].
  eapply component_count_ext; [exact Hadj|exact Hcount1].
Qed.

Lemma components_depend_on_adjacency_witness :
  hil_graph_connected_components 4 (Some path4_graph) (world_of path4_memory [])
  = hil_graph_connected_components 4
      (Some (Graph 4 3 (Some (2%positive, 0)) (Some (1%positive, 0))
               (Some (3%positive, 0))))
      (world_of path4_memory []).
Proof.
  apply (components_depend_on_adjacency float 4 path4_graph
           (Graph 4 3 (Some (2%positive, 0)) (Some (1%positive, 0))
              (Some (3%positive, 0)))
           (world_of path4_memory []) (world_of path4_memory [])
           [(0, 1); (1, 2); (2, 3)] (prod_swap <$> [(0, 1); (1, 2); (2, 3)])).
  - apply (edge_list_cells path4_memory path4_graph [0; 1; 2] [1; 2; 3]).
    + exists 1%positive, 0, [], []. repeat split; reflexivity.
    + exists 2%positive, 0, [], []. repeat split; reflexivity.
    + reflexivity.
    + reflexivity.
  - apply (edge_list_cells path4_memory
             (Graph 4 3 (Some (2%positive, 0)) (Some (1%positive, 0))
                (Some (3%positive, 0))) [1; 2; 3] [0; 1; 2]).
    + exists 2%positive, 0, [], []. repeat split; reflexivity.
    + exists 1%positive, 0, [], []. repeat split; reflexivity.
    + reflexivity.
    + reflexivity.
  - reflexivity.
  - simpl. lia.
  - unfold fits_uint32. simpl. lia.
  - unfold fits_size_t. simpl. lia.
  - unfold fits_size_t. simpl. lia.
  - reflexivity.
  - apply all_granted_requests. constructor.
  - apply all_granted_requests. constructor.
  - intros u v. symmetry. apply adjacent_swap.
Defined.

(** X24 (components, range and refusal): for a graph of at least one and fewer
    than 2^32 nodes with readable edge arrays,
    [hil_graph_connected_components] returns, whatever the allocator answers,
    a number that is at most [num_nodes]; it returns 0 exactly when one of its
    six allocation requests is refused. *)
Theorem components_range_and_refusal (T : Type) (fuel : nat)
  (g : hil_graph_t) (w : world T) es :
  edge_list (w_mem w) g es ->
  0 < num_nodes g -> fits_uint32 (num_nodes g) ->
  fits_size_t (8 * num_edges g) -> num_nodes g <= fuel ->
  exists k,
    hil_graph_connected_components fuel (Some g) w = Ok k
    /\ k <= num_nodes g
    /\ (k = 0 <-> ~ requests_granted 6 (w_grants w)).
Proof.
  intros Hes Hn Hn32 Hm Hfuel.
  destruct (components_run_requests fuel g w es Hes Hn Hn32 Hm Hfuel)
    as (k & Hrun & Hcount & Hzero).
  exists k. split; [done|].
  assert (Hpos : requests_granted 6 (w_grants w) -> 0 < k <= num_nodes g).
  { intros Hg. specialize (Hcount Hg). split.
    - by eapply component_count_pos.
    - by eapply component_count_le_nodes. }
  split; [|split].
  - destruct (decide (k = 0)) as [->|Hk]; [lia|].
    destruct (le_lt_dec k (num_nodes g)) as [|Hgt]; [done|].
    exfalso. apply Hk, Hzero. intros Hg. specialize (Hpos Hg). lia.
  - intros -> Hg. specialize (Hpos Hg). lia.
  - exact Hzero.
Qed.

Lemma components_range_and_refusal_witness :
  exists k,
    hil_graph_connected_components 2 (Some stray_edge_graph)
      (world_of stray_edge_memory [true; true; true; false]) = Ok k
    /\ k <= num_nodes stray_edge_graph
    /\ (k = 0 <-> ~ requests_granted 6 [true; true; true; false]).
Proof.
  apply (components_range_and_refusal float 2 stray_edge_graph
           (world_of stray_edge_memory [true; true; true; false]) [(0, 5)]).
  - apply (edge_list_cells stray_edge_memory stray_edge_graph [0] [5]).
    + exists 1%positive, 0, [], []. repeat split; reflexivity.
    + exists 2%positive, 0, [], []. repeat split; reflexivity.
    + reflexivity.
    + reflexivity.
  - simpl. lia.
  - unfold fits_uint32. simpl. lia.
  - unfold fits_size_t. simpl. lia.
  - reflexivity.
Defined.

(* ====================================================================== *)
(** * Release of vectors and fields; release of shared arrays *)

Section ReleaseMore.
Context {T : Type}.
Implicit Types (m : memory T) (p : ptr).

Lemma free_no_timeout m p : free p m <> Timeout.
Proof.
  unfold free. destruct p as [[l [|o]]|]; try done. by destruct (m !! l).
Qed.

(** A block that was released cannot be released through another pointer. *)
Lemma free_released m l o o' m1 :
  free (Some (l, o)) m = Ok m1 -> free (Some (l, o')) m1 = Fault.
Proof.
  intros Hfree. apply free_Ok in Hfree as [_ ->]. unfold released, free.
  destruct o' as [|o']; [|done]. by rewrite lookup_delete_eq.
Qed.

Lemma free_keeps_released m l o p m1 m2 :
  free (Some (l, o)) m = Ok m1 -> free p m1 = Ok m2 -> m2 !! l = None.
Proof.
  intros H1 H2. apply free_Ok in H1 as [_ ->]. apply free_Ok in H2 as [_ ->].
  unfold released. destruct p as [[l' o']|].
  - destruct (decide (l' = l)) as [->|Hne].
    + apply lookup_delete_eq.
    + rewrite lookup_delete_ne by done. apply lookup_delete_eq.
  - apply lookup_delete_eq.
Qed.

End ReleaseMore.

(** X25 (release of vectors and fields): after [hil_vector_free] the vector
    is the zero vector (pointer null, length 0) and its array is released;
    after [hil_field_free] the coordinates of the field are the zero matrix
    and their array is released; a second release of the released structure
    changes neither the structure nor the memory.  The release of a live
    array goes through, and the release of an absent structure does
    nothing. *)
Theorem vector_and_field_release (T : Type) :
  (forall (v : hil_vector_t) (m : memory T) v' m',
      hil_vector_free (Some v) m = Ok (v', m') ->
      v' = Some zero_vector /\ m' = released (vec_data v) m
      /\ hil_vector_free v' m' = Ok (v', m'))
  /\ (forall (v : hil_vector_t) (m : memory T),
      freeable m (vec_data v) ->
      exists m', hil_vector_free (Some v) m = Ok (Some zero_vector, m'))
  /\ (forall (f : hil_field_t) (m : memory T) f' m',
      hil_field_free (Some f) m = Ok (f', m') ->
      f' = Some (Field zero_matrix)
      /\ m' = released (data (coordinates f)) m
      /\ hil_field_free f' m' = Ok (f', m'))
  /\ (forall (f : hil_field_t) (m : memory T),
      freeable m (data (coordinates f)) ->
      exists m', hil_field_free (Some f) m = Ok (Some (Field zero_matrix), m'))
  /\ (forall m : memory T,
      hil_vector_free None m = Ok (None, m)
      /\ hil_field_free None m = Ok (None, m)).
Proof.
  split; [|split; [|split; [|split]]].
  - intros v m v' m' Hrun. unfold hil_vector_free in Hrun.
    apply bind_Ok in Hrun as (m1 & Hfree & Hrun). simplify_eq.
    apply free_Ok in Hfree as [_ ->]. done.
  - intros v m Hv. eexists. unfold hil_vector_free.
    by rewrite (free_freeable _ _ Hv).
  - intros f m f' m' Hrun. unfold hil_field_free, hil_matrix_free in Hrun.
    apply bind_Ok in Hrun as ([M1 m1] & Hmat & Hrun).
    apply bind_Ok in Hmat as (m2 & Hfree & Hmat). simplify_eq.
    apply free_Ok in Hfree as [_ ->]. done.
  - intros f m Hf. eexists. unfold hil_field_free, hil_matrix_free.
    by rewrite (free_freeable _ _ Hf).
  - done.
Qed.

Lemma vector_and_field_release_witness :
  hil_vector_free (Some demo_vector) demo_matrix_memory = Ok (Some zero_vector, ∅)
  /\ hil_vector_free (Some zero_vector) (∅ : memory float)
     = Ok (Some zero_vector, ∅)
  /\ hil_field_free (Some demo_field) demo_field_memory
     = Ok (Some (Field zero_matrix), ∅)
  /\ hil_field_free (Some (Field zero_matrix)) (∅ : memory float)
     = Ok (Some (Field zero_matrix), ∅).
Proof.
  destruct (vector_and_field_release float) as (Hv & _ & Hf & _ & _).
  assert (Ev : hil_vector_free (Some demo_vector) demo_matrix_memory
               = Ok (Some zero_vector, ∅)) by (vm_compute; reflexivity).
  assert (Ef : hil_field_free (Some demo_field) demo_field_memory
               = Ok (Some (Field zero_matrix), ∅)) by (vm_compute; reflexivity).
  destruct (Hv _ _ _ _ Ev) as (_ & _ & Hv2).
  destruct (Hf _ _ _ _ Ef) as (_ & _ & Hf2).
  repeat split; assumption.
Defined.

(** X26 (release of shared arrays): [hil_graph_free] releases [src], [dst]
    and [weight] one after the other without looking for shared storage: when
    two of them point into one block, the call releases that block twice, an
    undefined second [free]. *)
Theorem graph_free_shared_block_faults (T : Type) (g : hil_graph_t)
  (m : memory T) (l : loc) (o o' : nat) :
  (src g = Some (l, o) /\ dst g = Some (l, o'))
  \/ (src g = Some (l, o) /\ weight g = Some (l, o'))
  \/ (dst g = Some (l, o) /\ weight g = Some (l, o')) ->
  hil_graph_free (Some g) m = Fault.
Proof.
  intros Hshared. unfold hil_graph_free.
  destruct (free (src g) m) as [m1| |] eqn:E1; [|done|by apply free_no_timeout in E1].
  cbn [mbind result_bind].
  destruct (free (dst g) m1) as [m2| |] eqn:E2; [|done|by apply free_no_timeout in E2].
  cbn [mbind result_bind].
  destruct (free (weight g) m2) as [m3| |] eqn:E3; [|done|by apply free_no_timeout in E3].
  exfalso. destruct Hshared as [[Hs Hd]|[[Hs Hw]|[Hd Hw]]].
  - rewrite Hs in E1. rewrite Hd in E2.
    by rewrite (free_released _ _ _ _ _ E1) in E2.
  - rewrite Hs in E1. rewrite Hw in E3.
    pose proof (free_keeps_released _ _ _ _ _ _ E1 E2) as Hgone.
    apply free_Ok in E3 as [[_ [b Hb]] _]. congruence.
  - rewrite Hd in E2. rewrite Hw in E3.
    by rewrite (free_released _ _ _ _ _ E2) in E3.
Qed.

Lemma graph_free_shared_block_faults_witness :
  hil_graph_free (Some shared_array_graph) demo_graph_memory = Fault.
Proof.
  apply (graph_free_shared_block_faults float shared_array_graph
           demo_graph_memory 1%positive 0 0).
  left. split; reflexivity.
Defined.

(* ====================================================================== *)
(** * Refused allocations *)

(** X27 (refused allocation): for every scalar type, when the allocator
    refuses the request of [hil_field_coherence] on a field that is not empty,
    or of [hil_graph_entropy] on a graph with nodes, the function returns 0
    without reading the field or the graph; [hil_epistemic_stability] returns
    0 when the request for its copy of the field is refused.  No memory is
    changed. *)
Theorem refused_allocation_answers_zero :
  (forall (T : Type) (SC : Scalar T) (f : hil_field_t) (w : world T),
      matrix_empty (coordinates f) = false ->
      granted (w_grants w) = false ->
      hil_field_coherence (Some f) w
      = Ok (s_zero, set_grants w (tail (w_grants w))))
  /\ (forall (T : Type) (SC : Scalar T) (ML : MathLib T) (g : hil_graph_t)
             (w : world T),
      num_nodes g <> 0 ->
      granted (w_grants w) = false ->
      hil_graph_entropy (Some g) w
      = Ok (s_zero, set_grants w (tail (w_grants w))))
  /\ (forall (T : Type) (SC : Scalar T) (f : hil_field_t)
             (graph : option hil_graph_t) (w : world T) xs,
      field_cells (w_mem w) f xs ->
      0 < rows (coordinates f) -> 0 < cols (coordinates f) ->
      fits_size_t (8 * (rows (coordinates f) * cols (coordinates f))) ->
      granted (tail (w_grants w)) = false ->
      hil_epistemic_stability (Some f) graph w
      = Ok (s_zero, set_grants w (tail (tail (w_grants w))))).
Proof.
  split; [|split].
  - intros T SC f w He Hno. unfold hil_field_coherence. rewrite He.
    unfold malloc_f64. rewrite Hno. reflexivity.
  - intros T SC ML g w Hn Hno. unfold hil_graph_entropy.
    destruct (decide (num_nodes g = 0)); [done|].
    unfold malloc_f64. rewrite Hno. reflexivity.
  - intros T SC f graph w xs Hcells Hr Hc Hfit Hno.
    rewrite (stability_run f graph w xs) by done.
    unfold stability_of, stability_grants. by rewrite Hno.
Qed.

Lemma refused_allocation_answers_zero_witness :
  hil_field_coherence (Some demo_field)
    (World demo_field_memory [false] (fun _ => nan) (fun _ => 0))
  = Ok (0%float, World demo_field_memory [] (fun _ => nan) (fun _ => 0)).
Proof.
  destruct refused_allocation_answers_zero as (Hcoh & _).
  apply (Hcoh float float_scalar demo_field
           (World demo_field_memory [false] (fun _ => nan) (fun _ => 0)));
    reflexivity.
Defined.

(* ====================================================================== *)
(** * The size of the degree array *)

Section SizeWrap.
Context {T : Type} {SC : Scalar T} {ML : MathLib T}.

(** When [8 * n] is beyond [size_t] the product wraps to fewer than [n]
    cells. *)
Lemma size_mul_wraps (n : nat) :
  ~ fits_size_t (8 * n) -> size_mul 8 n / 8 < n.
Proof.
  unfold fits_size_t, size_mul. intros Hbig.
  apply Nat.Div0.div_lt_upper_bound.
  rewrite Nat2N.inj_mul in Hbig.
  change (N.of_nat 8) with 8%N in *.
  change (2 ^ 64)%N with 18446744073709551616%N in *.
  assert (Hmod : ((8 * N.of_nat n) mod 18446744073709551616
                  < 8 * N.of_nat n)%N).
  { pose proof (N.mod_lt (8 * N.of_nat n) 18446744073709551616 ltac:(done)).
    lia. }
  lia.
Qed.

(** Zeroing [n] cells of an array of fewer cells writes beyond it. *)
Lemma zero_beyond (l : loc) cnt : forall lo (m : memory T) blk,
  m !! l = Some (F64 blk) -> lo <= length blk < lo + cnt ->
  for_range lo cnt (fun i m => write_f64 m (Some (l, 0)) i s_zero) m = Fault.
Proof.
  induction cnt as [|k IH]; intros lo m blk Hl Hlen; [lia|].
  assert (Hw : write_f64 m (Some (l, 0)) lo s_zero
               = if decide (lo < length blk)
                 then Ok (<[l := F64 (<[lo := s_zero]> blk)]> m) else Fault).
  { unfold write_f64, aset. rewrite Hl. cbn [Nat.add].
    by destruct (decide (lo < length blk)). }
  cbn [for_range]. rewrite Hw.
  destruct (decide (lo < length blk)) as [Hlt|Hge]; [|done].
  cbn [mbind result_bind].
  apply (IH (S lo) _ (<[lo := s_zero]> blk)).
  - apply lookup_insert_eq.
  - rewrite length_insert. lia.
Qed.

(** [hil_graph_entropy] on a graph whose degree array is beyond [size_t]. *)
Lemma entropy_beyond_size (g : hil_graph_t) (w : world T) :
  ~ fits_size_t (8 * num_nodes g) -> granted (w_grants w) = true ->
  hil_graph_entropy (Some g) w = Fault.
Proof.
  intros Hbig Hgr. pose proof (size_mul_wraps _ Hbig) as Hshort.
  unfold hil_graph_entropy.
  destruct (decide (num_nodes g = 0)) as [Hz|_].
  { rewrite Hz in Hshort. lia. }
  unfold malloc_f64. rewrite Hgr. world_simpl.
  unfold hil_graph_degree. cbn [is_null].
  set (blk := w_junk_f64 w <$> seq 0 (size_mul 8 (num_nodes g) / 8)).
  rewrite (zero_beyond _ (num_nodes g) 0 _ blk); [done|apply lookup_insert_eq|].
  unfold blk. rewrite length_fmap, length_seq. lia.
Qed.

End SizeWrap.

(** X28 (entropy, size of the degree array): for every scalar type, when
    [8 * num_nodes] is beyond the range of [size_t] and the allocation of the
    degree array is granted, [hil_graph_entropy] writes beyond the array it
    allocated, whatever the edges; [hil_graph_validate] accepts such a graph,
    one of 2^61 nodes and no edge. *)
Theorem entropy_size_wraps :
  (forall (T : Type) (SC : Scalar T) (ML : MathLib T) (g : hil_graph_t)
          (w : world T),
      ~ fits_size_t (8 * num_nodes g) -> granted (w_grants w) = true ->
      hil_graph_entropy (Some g) w = Fault)
  /\ (forall (T : Type) (SC : Scalar T) (m : memory T),
      hil_graph_validate m (Some wrapping_graph) = Ok true)
  /\ ~ fits_size_t (8 * num_nodes wrapping_graph).
Proof.
  split; [|split].
  - intros T SC ML g w. apply entropy_beyond_size.
  - intros T SC m. unfold hil_graph_validate, wrapping_graph.
    cbn [num_nodes num_edges src dst weight].
    destruct (decide (N.to_nat (2 ^ 61) = 0)) as [Hz|_]; [|done].
    apply (f_equal N.of_nat) in Hz. rewrite N2Nat.id in Hz. done.
  - unfold fits_size_t, wrapping_graph. cbn [num_nodes].
    rewrite Nat2N.inj_mul, N2Nat.id. done.
Qed.

Lemma entropy_size_wraps_witness :
  hil_graph_entropy (Some wrapping_graph) exact_triangle_world = Fault.
Proof.
  destruct entropy_size_wraps as (Hfault & _ & Hbig).
  apply (Hfault R real_scalar _ wrapping_graph exact_triangle_world).
  - exact Hbig.
  - reflexivity.
Defined.
